(** * QuantStats [stats.py]: return-series primitives and drawdown segmentation

    A shallow embedding of the functions of [quantstats/stats.py] that turn a
    return series into an equity curve, a drawdown series and a table of
    drawdown episodes, together with the ratio kernels built on them.

    Numbers.  Python floats are modelled by exact numbers: rationals ([Q])
    for the series pipeline, where every operation is a field operation or a
    comparison and the model can be run, and reals ([R]) for the ratio
    kernels, which take square roots.  Rounding is therefore not modelled.
    The special values a float can take are kept: [ext A] adds the two
    infinities and not-a-number to a carrier [A].

    Series.  A pandas Series is a list: of values where only positions
    matter, of (timestamp, value) pairs where the index is used. *)

From Stdlib Require Import List ZArith QArith Qround Qabs Qpower Bool String Lia.
From Stdlib Require Import Sorted Reals Psatz.
Import ListNotations.

(** ** Float special values *)

Inductive ext (A : Type) : Type :=
| Fin (a : A)
| PInf
| NInf
| NaN.
Arguments Fin {A} a.
Arguments PInf {A}.
Arguments NInf {A}.
Arguments NaN {A}.

Definition isnan {A : Type} (x : ext A) : bool :=
  match x with NaN => true | _ => false end.

(** * Part I: the series pipeline over the rationals *)

Module Series.

Local Open Scope Q_scope.

(** [returns.add(1)] *)
Definition add1 (returns : list Q) : list Q := map (fun r => r + 1) returns.

(** [Series.cumprod()]: the running product, one output per input. *)
Fixpoint cumprod_from (acc : Q) (l : list Q) : list Q :=
  match l with
  | [] => []
  | x :: r => (acc * x) :: cumprod_from (acc * x) r
  end.

Definition cumprod (l : list Q) : list Q :=
  match l with
  | [] => []
  | x :: r => x :: cumprod_from x r
  end.

(** [Series.prod()]: the product of all values, 1 for an empty series. *)
Definition prod (l : list Q) : Q := fold_left Qmult l 1.

(** [compsum]: [returns.add(1).cumprod() - 1] *)
Definition compsum (returns : list Q) : list Q :=
  map (fun x => x - 1) (cumprod (add1 returns)).

(** [comp]: [returns.add(1).prod() - 1] *)
Definition comp (returns : list Q) : Q := prod (add1 returns) - 1.

End Series.

(** ** Drawdown series: [max_drawdown] and [to_drawdown_series] *)

Module Drawdown.
Import Series.
Local Open Scope Q_scope.

Definition Qltb (a b : Q) : bool := negb (Qle_bool b a).

(** Element-wise combination of two aligned series. *)
Fixpoint map2 {A B C : Type} (f : A -> B -> C) (l : list A) (m : list B)
  : list C :=
  match l, m with
  | a :: l', b :: m' => f a b :: map2 f l' m'
  | _, _ => []
  end.

(** Float division of two finite values: a zero divisor gives an infinity
    of the sign of the dividend, and [0 / 0] is not a number. *)
Definition fdiv (a b : Q) : ext Q :=
  if Qeq_bool b 0 then
    if Qltb 0 a then PInf else if Qltb a 0 then NInf else NaN
  else Fin (a / b).

Definition ediv (x y : ext Q) : ext Q :=
  match x, y with
  | NaN, _ | _, NaN => NaN
  | Fin a, Fin b => fdiv a b
  | Fin _, _ => Fin 0
  | PInf, Fin b => if Qltb b 0 then NInf else PInf
  | NInf, Fin b => if Qltb b 0 then PInf else NInf
  | _, _ => NaN
  end.

(** [x - 1] *)
Definition esub1 (x : ext Q) : ext Q :=
  match x with Fin q => Fin (q - 1) | o => o end.

(** The larger of two values, as [np.maximum] and the window maximum take it. *)
Definition qmax (a b : Q) : Q := if Qle_bool a b then b else a.

(** [np.maximum.accumulate]: the running maximum, carried along the scan. *)
Fixpoint maximum_accumulate_from (m : Q) (l : list Q) : list Q :=
  match l with
  | [] => []
  | x :: r => qmax m x :: maximum_accumulate_from (qmax m x) r
  end.

Definition maximum_accumulate (l : list Q) : list Q :=
  match l with
  | [] => []
  | x :: r => x :: maximum_accumulate_from x r
  end.

(** The maximum of one window; an empty window has none. *)
Definition window_max (w : list Q) : ext Q :=
  match w with
  | [] => NaN
  | x :: r => Fin (fold_left qmax r x)
  end.

(** [prices.expanding(min_periods=0).max()]: at position [i] the maximum of
    the window made of the first [i + 1] values. *)
Definition expanding_max (l : list Q) : list (ext Q) :=
  map (fun i => window_max (firstn (S i) l)) (seq 0 (List.length l)).

(** The smaller of two values for [Series.min()], which skips NaN. *)
Definition emin2 (x y : ext Q) : ext Q :=
  match x, y with
  | NaN, _ => y
  | _, NaN => x
  | NInf, _ | _, NInf => NInf
  | PInf, _ => y
  | _, PInf => x
  | Fin a, Fin b => if Qle_bool a b then Fin a else Fin b
  end.

(** [Series.min()]: NaN when nothing is left after skipping NaN. *)
Fixpoint emin (l : list (ext Q)) : ext Q :=
  match l with
  | [] => NaN
  | x :: r => emin2 x (emin r)
  end.

(** [.replace([inf, -inf, -0], 0)] *)
Definition replace_inf_zero (x : ext Q) : ext Q :=
  match x with
  | PInf | NInf => Fin 0
  | Fin q => if Qeq_bool q 0 then Fin 0 else Fin q
  | NaN => NaN
  end.

(** Modelled from the spec: [_prepare_prices] of [utils.py], which is not
    among the sources.  For a return series the spec has [to_drawdown_series]
    "build the equity curve", and the equity curve is the "running product of
    (1+r), index-aligned to the input". *)
Definition to_equity_curve (returns : list Q) : list Q :=
  cumprod (add1 returns).

Section WithPreparedPrices.

(** [_utils._prepare_prices], as a parameter of the two functions using it. *)
Variable _prepare_prices : list Q -> list Q.

(** [max_drawdown] *)
Definition max_drawdown (prices : list Q) : ext Q :=
  let prices := _prepare_prices prices in
  esub1 (emin (map2 ediv (map Fin prices) (expanding_max prices))).

(** [to_drawdown_series] *)
Definition to_drawdown_series (returns : list Q) : list (ext Q) :=
  let prices := _prepare_prices returns in
  let dd := map esub1 (map2 fdiv prices (maximum_accumulate prices)) in
  map replace_inf_zero dd.

End WithPreparedPrices.

(** Two results are the same float: equal rationals, or the same special
    value. *)
Definition ext_eq (x y : ext Q) : Prop :=
  match x, y with
  | Fin a, Fin b => a == b
  | PInf, PInf | NInf, NInf | NaN, NaN => True
  | _, _ => False
  end.

(** *** Notions for the properties of the drawdown series *)

(** One value of the drawdown series, from a price and the running maximum
    at its position. *)
Definition dd_point (p m : Q) : ext Q := replace_inf_zero (esub1 (fdiv p m)).

(** A float that is a number. *)
Definition is_fin (x : ext Q) : Prop := exists q, x = Fin q.

End Drawdown.

(** ** Exceptions *)

Inductive exn : Type :=
| IndexError
| ValueError
| Exception (msg : string).

Inductive result (A : Type) : Type :=
| Ok (a : A)
| Raise (e : exn).
Arguments Ok {A} a.
Arguments Raise {A} e.

(** ** Drawdown episodes: [remove_outliers] and [drawdown_details] *)

Module Details.
Import Series Drawdown.
Local Open Scope Q_scope.

(** A timestamp of the index, in nanoseconds as pandas holds it. *)
Definition timestamp : Type := Z.

Definition ns_per_day : Z := 86400000000000.

(** [Timedelta.days]: whole days, rounded down. *)
Definition timedelta_days (delta : Z) : Z := (delta / ns_per_day)%Z.

(** A Series with its index.  The index of a series is increasing and has
    no label twice; the model of label slicing below relies on it. *)
Definition series : Type := list (timestamp * Q).

Definition index (s : series) : list timestamp := map fst s.
Definition values (s : series) : list Q := map snd s.

(** [-s] *)
Definition neg (s : series) : series := map (fun p => (fst p, - snd p)) s.

(** [s[a:b]] with labels: both ends are included. *)
Definition loc_slice (s : series) (a b : timestamp) : series :=
  filter (fun p => (a <=? fst p)%Z && (fst p <=? b)%Z) s.

(** *** Quantiles *)

Fixpoint insert_sorted (x : Q) (l : list Q) : list Q :=
  match l with
  | [] => [x]
  | y :: r => if Qle_bool x y then x :: l else y :: insert_sorted x r
  end.

Definition sort_values (l : list Q) : list Q := fold_right insert_sorted [] l.

(** [Series.quantile(q)] for [0 <= q <= 1], with the default linear
    interpolation: the value at the fractional position [(n - 1) * q] of the
    sorted values.  An empty series has no quantile. *)
Definition quantile (l : list Q) (q : Q) : ext Q :=
  match sort_values l with
  | [] => NaN
  | x0 :: rest =>
      let sorted := x0 :: rest in
      let h := inject_Z (Z.of_nat (List.length l) - 1) * q in
      let lo := Qfloor h in
      let a := nth (Z.to_nat lo) sorted x0 in
      let b := nth (S (Z.to_nat lo)) sorted a in
      Fin (a + (b - a) * (h - inject_Z lo))
  end.

(** [x < y] for a finite [x]; nothing is below NaN. *)
Definition lt_ext (x : Q) (y : ext Q) : bool :=
  match y with
  | Fin b => Qltb x b
  | PInf => true
  | NInf | NaN => false
  end.

(** [remove_outliers]: [returns[returns < returns.quantile(quantile)]] *)
Definition remove_outliers (returns : series) (q : Q) : series :=
  let threshold := quantile (values returns) q in
  filter (fun p => lt_ext (snd p) threshold) returns.

(** *** Minimum and its label *)

(** [Series.min()] *)
Definition smin (s : series) : ext Q := emin (map Fin (values s)).

Fixpoint idxmin_from (bt : timestamp) (bv : Q) (s : series) : timestamp :=
  match s with
  | [] => bt
  | (t, v) :: r =>
      if Qltb v bv then idxmin_from t v r else idxmin_from bt bv r
  end.

(** [Series.idxmin()]: the label of the first minimum; it raises on an empty
    series. *)
Definition idxmin (s : series) : result timestamp :=
  match s with
  | [] => Raise ValueError
  | (t, v) :: r => Ok (idxmin_from t v r)
  end.

(** [x * 100] *)
Definition times100 (x : ext Q) : ext Q :=
  match x with Fin q => Fin (q * 100) | o => o end.

(** *** Boolean masks *)

(** [drawdown == 0] *)
Definition eq_zero (drawdown : series) : list bool :=
  map (fun p => Qeq_bool (snd p) 0) drawdown.

(** [mask.shift(1)]: every flag moves one position down, the first position
    is left missing and the last flag drops out. *)
Definition shift1 (mask : list bool) : list (option bool) :=
  match mask with
  | [] => []
  | _ :: _ => None :: map Some (removelast mask)
  end.

(** [a & b] where [b] went through a shift: a missing flag counts as False. *)
Definition and_na (a : bool) (b : option bool) : bool :=
  match b with
  | Some true => a
  | _ => false
  end.

(** [list(mask[mask].index)]: the labels at which the mask holds. *)
Definition labels_where (s : series) (mask : list bool) : list timestamp :=
  map fst (filter snd (combine (index s) mask)).

(** *** The table of episodes *)

Record episode : Type := mk_episode {
  ep_start : timestamp;
  ep_valley : timestamp;
  ep_end : timestamp;
  ep_days : Z;
  ep_max_drawdown : ext Q;
  ep_max_drawdown_99 : ext Q
}.

(** The entry of the column '99% max drawdown' for one window:
    [clean_dd = -remove_outliers(-dd, .99)] and [clean_dd.min() * 100]. *)
Definition clean_min_100 (dd : series) : ext Q :=
  let clean_dd := neg (remove_outliers (neg dd) (99 # 100)) in
  times100 (smin clean_dd).

(** The trimmed minimum as the spec words it, for comparison with
    [clean_min_100]: on the negated window, drop the values below
    [Q1 - 1.5 * IQR] or above [Q3 + 1.5 * IQR], then take the minimum of what
    is left of the window. *)
Definition iqr_clean_min_100 (dd : series) : ext Q :=
  let negated := neg dd in
  match quantile (values negated) (1 # 4), quantile (values negated) (3 # 4)
  with
  | Fin q1, Fin q3 =>
      let iqr := q3 - q1 in
      let inside p :=
        Qle_bool (q1 - (3 # 2) * iqr) (snd p)
        && Qle_bool (snd p) (q3 + (3 # 2) * iqr) in
      times100 (smin (neg (filter inside negated)))
  | _, _ => NaN
  end.

(** The loop [for i, _ in enumerate(starts)], at index [i] with [rest] the
    starts still to visit. *)
Fixpoint rows_from (drawdown : series) (ends : list timestamp) (i : nat)
         (rest : list timestamp) : result (list episode) :=
  match rest with
  | [] => Ok []
  | s :: rest' =>
      match nth_error ends i with
      | None => Raise IndexError
      | Some e =>
          let dd := loc_slice drawdown s e in
          let clean := clean_min_100 dd in
          match idxmin dd with
          | Raise x => Raise x
          | Ok v =>
              let row := mk_episode s v e (timedelta_days (e - s))
                                    (times100 (smin dd)) clean in
              match rows_from drawdown ends (S i) rest' with
              | Raise x => Raise x
              | Ok rows => Ok (row :: rows)
              end
          end
      end
  end.

(** [starts], before the boundary cases are put in:
    [~no_dd & no_dd.shift(1)] *)
Definition raw_starts (drawdown : series) : list timestamp :=
  let no_dd := eq_zero drawdown in
  labels_where drawdown (map2 and_na (map negb no_dd) (shift1 no_dd)).

(** [ends], before the boundary cases are put in:
    [no_dd & (~no_dd).shift(1)] *)
Definition raw_ends (drawdown : series) : list timestamp :=
  let no_dd := eq_zero drawdown in
  labels_where drawdown (map2 and_na no_dd (shift1 (map negb no_dd))).

Definition is_nil {A : Type} (l : list A) : bool :=
  match l with [] => true | _ => false end.

(** [starts] after "drawdown series begins in a drawdown". *)
Definition fill_starts (drawdown : series) (starts ends : list timestamp)
  : list timestamp :=
  if negb (is_nil ends) && (hd 0%Z ends <? hd 0%Z starts)%Z
  then hd 0%Z (index drawdown) :: starts
  else starts.

(** [ends] after "series ends in a drawdown fill with last date". *)
Definition fill_ends (drawdown : series) (starts ends : list timestamp)
  : list timestamp :=
  if is_nil ends || (last ends 0%Z <? last starts 0%Z)%Z
  then ends ++ [last (index drawdown) 0%Z]
  else ends.

(** [_drawdown_details], the worker of [drawdown_details] on one Series.
    The rendering of the three date columns as text is left out: an episode
    keeps its timestamps. *)
Definition _drawdown_details (drawdown : series) : result (list episode) :=
  let starts := raw_starts drawdown in
  let ends := raw_ends drawdown in
  if is_nil starts then Ok []
  else
    let starts := fill_starts drawdown starts ends in
    let ends := fill_ends drawdown starts ends in
    rows_from drawdown ends 0 starts.

(** [drawdown_details] on a Series. *)
Definition drawdown_details (drawdown : series) : result (list episode) :=
  _drawdown_details drawdown.

(** *** What the 99% trimming keeps *)

(** The values of a window that the 99% trimming keeps: those whose
    negation is strictly below the 0.99 quantile of the negated window. *)
Definition kept_99 (dd : series) : list Q :=
  filter (fun v => lt_ext (- v) (quantile (map Qopp (values dd)) (99 # 100)))
         (values dd).

End Details.

(** ** Episodes as runs: the notions the properties are stated with *)

Module Episodes.
Import Series Drawdown Details.
Local Open Scope Z_scope.

(** The test of the mask [drawdown == 0] on one value. *)
Definition isz (v : Q) : bool := Qeq_bool v 0.

(** The labels at which [f] holds while [g] held one position earlier;
    [prev] is the value of [g] at the previous position, missing at the
    first. *)
Fixpoint transitions (f g : Q -> bool) (prev : option bool) (d : series)
  : list timestamp :=
  match d with
  | [] => []
  | (t, v) :: r =>
      if and_na (f v) prev
      then t :: transitions f g (Some (g v)) r
      else transitions f g (Some (g v)) r
  end.

(** The mask [f(d) & g(d).shift(1)], with [o] in the first position of the
    shifted operand. *)
Definition shifted_mask (f g : Q -> bool) (o : option bool) (d : series)
  : list bool :=
  map2 and_na (map (fun x => f (snd x)) d)
       (o :: map Some (removelast (map (fun x => g (snd x)) d))).

(** The scan is in one of two states: the previous value was at a high
    ([high = true]) or under water. *)
Definition starts_in (high : bool) (d : series) : list timestamp :=
  transitions (fun v => negb (isz v)) isz (Some high) d.

(** The ends found from the same state. *)
Definition ends_in (high : bool) (d : series) : list timestamp :=
  transitions isz (fun v => negb (isz v)) (Some (negb high)) d.

(** The state after the last value. *)
Definition final (high : bool) (d : series) : bool :=
  last (map (fun p => isz (snd p)) d) high.

(** The windows read off in one pass: [open] is the start of the run under
    way, [lastt] the label just passed, which closes a run the series ends
    in. *)
Fixpoint runs (open : option timestamp) (d : series) (lastt : timestamp)
  : list (timestamp * timestamp) :=
  match d with
  | [] => match open with Some s => [(s, lastt)] | None => [] end
  | (t, v) :: r =>
      if isz v
      then match open with
           | Some s => (s, t) :: runs None r t
           | None => runs None r t
           end
      else match open with
           | Some s => runs (Some s) r t
           | None => runs (Some t) r t
           end
  end.

(** The labels increase strictly and lie above [lb]. *)
Fixpoint increasing_from (lb : timestamp) (l : list timestamp) : Prop :=
  match l with
  | [] => True
  | t :: r => lb < t /\ increasing_from t r
  end.

(** The index has strictly increasing labels. *)
Definition increasing (l : list timestamp) : Prop :=
  match l with
  | [] => True
  | t :: r => increasing_from t r
  end.

(** Windows in order: each starts after the bound, ends no earlier than it
    starts, and bounds the next. *)
Fixpoint chain (lb : timestamp) (ws : list (timestamp * timestamp)) : Prop :=
  match ws with
  | [] => True
  | (s, e) :: r => lb < s /\ s <= e /\ chain e r
  end.

(** [t] lies in one of the windows, taken as [start, end). *)
Definition covered (ws : list (timestamp * timestamp)) (t : timestamp)
  : Prop :=
  exists s e, In (s, e) ws /\ s <= t < e.

(** The two ends of the window of an episode. *)
Definition bounds (e : episode) : timestamp * timestamp :=
  (ep_start e, ep_end e).

(** The series begins at a high. *)
Definition begins_at_high (d : series) : Prop :=
  match d with
  | [] => True
  | (_, v) :: _ => (v == 0)%Q
  end.

(** [t] lies in the window of [e], taken as [start, end). *)
Definition in_window (e : episode) (t : timestamp) : Prop :=
  ep_start e <= t < ep_end e.

(** The windows cover exactly the underwater labels of the series. *)
Definition covers_underwater (d : series) (eps : list episode) : Prop :=
  forall t v, In (t, v) d ->
    ((exists e, In e eps /\ in_window e t) <-> ~ (v == 0)%Q).

(** No label lies in the windows of two episodes. *)
Definition non_overlapping (eps : list episode) : Prop :=
  ForallOrdPairs
    (fun a b => forall t, ~ (in_window a t /\ in_window b t)) eps.

(** The episodes are listed by increasing start. *)
Definition ordered_by_start (eps : list episode) : Prop :=
  ForallOrdPairs (fun a b => ep_start a < ep_start b) eps.

End Episodes.

(** ** Trade statistics: win rate, exposure, averages and the ratios on them *)

Module Trades.
Import Series Drawdown Details.
Local Open Scope Q_scope.

(** A quotient of two Python integers: it raises on a zero divisor. *)
Inductive division (A : Type) : Type :=
| Quotient (a : A)
| ZeroDivisionError.
Arguments Quotient {A} a.
Arguments ZeroDivisionError {A}.

(** [len(x)] *)
Definition count (l : list Q) : Z := Z.of_nat (List.length l).

(** [Series.sum()]: 0 for an empty series. *)
Definition qsum (l : list Q) : Q := fold_left Qplus l 0.

(** [Series.mean()]: not a number on an empty series. *)
Definition qmean (l : list Q) : ext Q :=
  match l with
  | [] => NaN
  | _ :: _ => Fin (qsum l / inject_Z (count l))
  end.

(** [abs(x)] *)
Definition eabs (x : ext Q) : ext Q :=
  match x with
  | Fin a => Fin (Qabs.Qabs a)
  | PInf | NInf => PInf
  | NaN => NaN
  end.

(** The sign of a finite factor decides the product with an infinity. *)
Definition by_sign (a : Q) (pos neg : ext Q) : ext Q :=
  if Qltb 0 a then pos else if Qltb a 0 then neg else NaN.

Definition emul (x y : ext Q) : ext Q :=
  match x, y with
  | NaN, _ | _, NaN => NaN
  | Fin a, Fin b => Fin (a * b)
  | Fin a, PInf | PInf, Fin a => by_sign a PInf NInf
  | Fin a, NInf | NInf, Fin a => by_sign a NInf PInf
  | PInf, PInf | NInf, NInf => PInf
  | PInf, NInf | NInf, PInf => NInf
  end.

Definition esub (x y : ext Q) : ext Q :=
  match x, y with
  | NaN, _ | _, NaN => NaN
  | Fin a, Fin b => Fin (a - b)
  | PInf, PInf | NInf, NInf => NaN
  | PInf, _ | _, NInf => PInf
  | NInf, _ | _, PInf => NInf
  end.

(** The three selections [r[r > 0]], [r[r < 0]] and [r[r != 0]]. *)
Definition positive (l : list Q) : list Q := filter (fun r => Qltb 0 r) l.
Definition negative (l : list Q) : list Q := filter (fun r => Qltb r 0) l.
Definition nonzero (l : list Q) : list Q :=
  filter (fun r => negb (Qeq_bool r 0)) l.

(** [r[r >= 0]] *)
Definition nonnegative (l : list Q) : list Q := filter (fun r => Qle_bool 0 r) l.

Section WithUtils.

(** [_utils._prepare_returns(data, rf, nperiods)] and
    [_utils.aggregate_returns(returns, period, compounded)], from [utils.py],
    which is not among the sources. *)
Variable _prepare_returns : list Q -> Q -> option Q -> list Q.
Variable aggregate_returns : list Q -> string -> bool -> list Q.

(** [if prepare_returns: returns = _utils._prepare_returns(returns)] *)
Definition prepare (returns : list Q) (prepare_returns : bool) : list Q :=
  if prepare_returns then _prepare_returns returns 0 None else returns.

(** [if aggregate: returns = _utils.aggregate_returns(...)]: None and the
    empty string count as false. *)
Definition aggregated (returns : list Q) (aggregate : option string)
           (compounded : bool) : list Q :=
  match aggregate with
  | None => returns
  | Some period =>
      if String.eqb period "" then returns
      else aggregate_returns returns period compounded
  end.

(** [_win_rate] inside [win_rate]: any exception, here the division by zero
    of two integers, gives 0. *)
Definition _win_rate (series : list Q) : Q :=
  if (count (nonzero series) =? 0)%Z then 0
  else inject_Z (count (positive series)) / inject_Z (count (nonzero series)).

(** [win_rate] on a Series. *)
Definition win_rate (returns : list Q) (aggregate : option string)
           (compounded prepare_returns : bool) : Q :=
  let returns := prepare returns prepare_returns in
  let returns := aggregated returns aggregate compounded in
  _win_rate returns.

(** [_exposure] inside [exposure]; the values are numbers, so
    [~np.isnan(ret)] holds throughout. *)
Definition _exposure (ret : list Q) : division Q :=
  if (count ret =? 0)%Z then ZeroDivisionError
  else
    let ex := inject_Z (count (nonzero ret)) / inject_Z (count ret) in
    Quotient (inject_Z (Qceiling (ex * 100)) / 100).

(** [exposure] on a Series. *)
Definition exposure (returns : list Q) (prepare_returns : bool)
  : division Q :=
  _exposure (prepare returns prepare_returns).

(** [avg_return] *)
Definition avg_return (returns : list Q) (aggregate : option string)
           (compounded prepare_returns : bool) : ext Q :=
  let returns := prepare returns prepare_returns in
  let returns := aggregated returns aggregate compounded in
  qmean (nonzero returns).

(** [avg_win] *)
Definition avg_win (returns : list Q) (aggregate : option string)
           (compounded prepare_returns : bool) : ext Q :=
  let returns := prepare returns prepare_returns in
  let returns := aggregated returns aggregate compounded in
  qmean (positive returns).

(** [avg_loss] *)
Definition avg_loss (returns : list Q) (aggregate : option string)
           (compounded prepare_returns : bool) : ext Q :=
  let returns := prepare returns prepare_returns in
  let returns := aggregated returns aggregate compounded in
  qmean (negative returns).

(** [payoff_ratio]; the two averages are called with their defaults and
    prepare the returns once more. *)
Definition payoff_ratio (returns : list Q) (prepare_returns : bool) : ext Q :=
  let returns := prepare returns prepare_returns in
  ediv (avg_win returns None true true) (eabs (avg_loss returns None true true)).

(** [win_loss_ratio] *)
Definition win_loss_ratio (returns : list Q) (prepare_returns : bool)
  : ext Q :=
  payoff_ratio returns prepare_returns.

(** [profit_factor] *)
Definition profit_factor (returns : list Q) (prepare_returns : bool)
  : ext Q :=
  let returns := prepare returns prepare_returns in
  eabs (fdiv (qsum (nonnegative returns)) (qsum (negative returns))).

(** [kelly_criterion] *)
Definition kelly_criterion (returns : list Q) (prepare_returns : bool)
  : ext Q :=
  let returns := prepare returns prepare_returns in
  let win_loss_ratio := payoff_ratio returns true in
  let win_prob := win_rate returns None true true in
  let lose_prob := 1 - win_prob in
  ediv (esub (emul win_loss_ratio (Fin win_prob)) (Fin lose_prob))
       win_loss_ratio.

(** [risk_of_ruin] *)
Definition risk_of_ruin (returns : list Q) (prepare_returns : bool) : Q :=
  let returns := prepare returns prepare_returns in
  let wins := win_rate returns None true true in
  ((1 - wins) / (1 + wins)) ^ count returns.

End WithUtils.

(** [outliers]: [returns[returns > returns.quantile(quantile)]]; the values
    are numbers, so [dropna] drops nothing. *)
Definition outliers (returns : series) (q : Q) : series :=
  let threshold := quantile (values returns) q in
  filter (fun p => match threshold with
                   | Fin b => Qltb b (snd p)
                   | NInf => true
                   | PInf | NaN => false
                   end) returns.

(** The result of [get_outliers]. *)
Record outlier_split : Type := mk_split {
  split_values : list Q;
  split_outliers : list Q
}.

(** [get_outliers] inside [distribution]: the values within the fences
    [Q1 - 1.5 * IQR] and [Q3 + 1.5 * IQR], and the others. *)
Definition get_outliers (data : list Q) : outlier_split :=
  match quantile data (1 # 4), quantile data (3 # 4) with
  | Fin q1, Fin q3 =>
      let iqr := q3 - q1 in
      let filtered x :=
        Qle_bool (q1 - (3 # 2) * iqr) x && Qle_bool x (q3 + (3 # 2) * iqr) in
      mk_split (filter filtered data)
               (filter (fun x => negb (filtered x)) data)
  | _, _ => mk_split [] data
  end.

(** [r.ne(0).idxmax()]: the label of the first value that is not zero, the
    first label when every value is zero; it raises on an empty series. *)
Definition ne0_idxmax (s : series) : result timestamp :=
  match s with
  | [] => Raise ValueError
  | (t0, _) :: _ =>
      match find (fun p => negb (Qeq_bool (snd p) 0)) s with
      | Some (t, _) => Ok t
      | None => Ok t0
      end
  end.

(** [s.loc[a:]] on an increasing index: the labels from [a] on. *)
Definition loc_from (s : series) (a : timestamp) : series :=
  filter (fun p => (a <=? fst p)%Z) s.

(** [match_dates]; its second statement reads the returns the first has
    already cut. *)
Definition match_dates (returns benchmark : series)
  : result (series * series) :=
  match ne0_idxmax returns, ne0_idxmax benchmark with
  | Raise e, _ => Raise e
  | _, Raise e => Raise e
  | Ok r0, Ok b0 =>
      let returns := loc_from returns (Z.max r0 b0) in
      match ne0_idxmax returns with
      | Raise e => Raise e
      | Ok r1 =>
          let benchmark := loc_from benchmark (Z.max r1 b0) in
          Ok (returns, benchmark)
      end
  end.

(** [get_trading_periods], for an integer number of periods. *)
Definition get_trading_periods (periods_per_year : Z) : Z * Z :=
  let half_year := Qceiling (inject_Z periods_per_year / 2) in
  (periods_per_year, half_year).

End Trades.

(** * Part II: the ratio kernels over the reals *)

Module Ratio.
Local Open Scope R_scope.

(** ** Float arithmetic with the special values *)

(** An infinity times, or a zero divisor under, a finite [a]: the result
    takes the sign of [a], and is not a number when [a] is zero. *)
Definition by_sign (a : R) (pos neg : ext R) : ext R :=
  if Rlt_dec 0 a then pos else if Rlt_dec a 0 then neg else NaN.

Definition eadd (x y : ext R) : ext R :=
  match x, y with
  | NaN, _ | _, NaN => NaN
  | Fin a, Fin b => Fin (a + b)
  | PInf, NInf | NInf, PInf => NaN
  | PInf, _ | _, PInf => PInf
  | NInf, _ | _, NInf => NInf
  end.

Definition emul (x y : ext R) : ext R :=
  match x, y with
  | NaN, _ | _, NaN => NaN
  | Fin a, Fin b => Fin (a * b)
  | Fin a, PInf | PInf, Fin a => by_sign a PInf NInf
  | Fin a, NInf | NInf, Fin a => by_sign a NInf PInf
  | PInf, PInf | NInf, NInf => PInf
  | PInf, NInf | NInf, PInf => NInf
  end.

Definition ediv (x y : ext R) : ext R :=
  match x, y with
  | NaN, _ | _, NaN => NaN
  | Fin a, Fin b =>
      if Req_dec_T b 0 then by_sign a PInf NInf else Fin (a / b)
  | Fin _, _ => Fin 0
  | PInf, Fin b => if Rlt_dec b 0 then NInf else PInf
  | NInf, Fin b => if Rlt_dec b 0 then PInf else NInf
  | _, _ => NaN
  end.

(** [np.sqrt]: not a number below zero. *)
Definition esqrt (x : ext R) : ext R :=
  match x with
  | Fin a => if Rlt_dec a 0 then NaN else Fin (sqrt a)
  | PInf => PInf
  | NInf | NaN => NaN
  end.

(** [np.abs] *)
Definition eabs (x : ext R) : ext R :=
  match x with
  | Fin a => Fin (Rabs a)
  | PInf | NInf => PInf
  | NaN => NaN
  end.

(** [x ** k] for an integer [k >= 1]. *)
Definition epow (x : ext R) (k : nat) : ext R :=
  match x with
  | Fin a => Fin (a ^ k)
  | PInf => PInf
  | NInf => if Nat.even k then PInf else NInf
  | NaN => NaN
  end.

(** [np.clip(x, -1, 1)] *)
Definition clip1 (x : ext R) : ext R :=
  match x with
  | Fin a => if Rlt_dec a (-1) then Fin (-1)
             else if Rlt_dec 1 a then Fin 1 else Fin a
  | PInf => Fin 1
  | NInf => Fin (-1)
  | NaN => NaN
  end.

(** [np.sum] of a list of floats. *)
Definition esum (l : list (ext R)) : ext R := fold_left eadd l (Fin 0).

(** [x < y] for a finite [x]; nothing is below NaN. *)
Definition lt_ext (x : R) (y : ext R) : bool :=
  match y with
  | Fin b => if Rlt_dec x b then true else false
  | PInf => true
  | NInf | NaN => false
  end.

(** [a != b] *)
Definition Rneqb (a b : R) : bool := if Req_dec_T a b then false else true.

(** ** Sample statistics *)

Definition Rsum (l : list R) : R := fold_left Rplus l 0.

(** [len(x)] as a float. *)
Definition len (l : list R) : R := INR (List.length l).

(** [Series.mean()] and [ndarray.mean()]: not a number on an empty sample. *)
Definition mean (l : list R) : ext R :=
  match l with
  | [] => NaN
  | _ :: _ => Fin (Rsum l / len l)
  end.

(** The sum of the products of the deviations from the two means, over the
    positions the two samples share. *)
Definition sum_dev (x y : list R) : R :=
  let mx := Rsum x / len x in
  let my := Rsum y / len y in
  Rsum (map (fun p => (fst p - mx) * (snd p - my)) (combine x y)).

(** [Series.std(ddof=1)]: not a number under two observations. *)
Definition std (l : list R) : ext R :=
  match l with
  | [] | [_] => NaN
  | _ => Fin (sqrt (sum_dev l l / (len l - 1)))
  end.

(** [np.corrcoef(x, y)[0, 1]] for two samples of one length: the covariance
    with [N - 1] degrees of freedom, divided by the two standard deviations
    in turn, then clipped to [-1, 1]. *)
Definition corrcoef (x y : list R) : ext R :=
  match x with
  | [] | [_] => NaN
  | _ =>
      let fact := len x - 1 in
      let cxy := sum_dev x y / fact in
      let cxx := sum_dev x x / fact in
      let cyy := sum_dev y y / fact in
      clip1 (ediv (ediv (Fin cxy) (esqrt (Fin cxx))) (esqrt (Fin cyy)))
  end.

(** The correlation coefficient of two samples, signed: the sum of the
    products of the deviations over the root of the product of the two sums
    of squared deviations. *)
Definition pearson (x y : list R) : R :=
  sum_dev x y / sqrt (sum_dev x x * sum_dev y y).

(** The lag-1 autocorrelation coefficient: the correlation between the
    series without its last value and the series without its first. *)
Definition lag1_autocorr (returns : list R) : R :=
  pearson (removelast returns) (tl returns).

(** The sum of [f 1], ..., [f k]. *)
Fixpoint sum_to (f : nat -> R) (k : nat) : R :=
  match k with
  | O => 0
  | S j => sum_to f j + f (S j)
  end.

(** The penalty of the spec for a series of length [n] and a coefficient
    [rho]: the root of [1 + 2 * sum for k = 1 .. n - 1 of
    ((n - k) / n) * rho ^ k]. *)
Definition penalty_formula (n : nat) (rho : R) : R :=
  sqrt (1 + 2 * sum_to (fun k => (INR n - INR k) / INR n * rho ^ k) (n - 1)).

Section WithHelpers.

(** [_utils._prepare_returns(data, rf, nperiods)], from [utils.py], which is
    not among the sources. *)
Variable _prepare_returns : list R -> R -> option R -> list R.

(** The quantile function of the standard normal distribution, on the open
    interval from 0 to 1. *)
Variable ndtri : R -> R.

(** [scipy.stats.norm.ppf(q, loc, scale)]: not a number for a level outside
    [0, 1] or a scale that is not positive, an infinity at levels 0 and 1. *)
Definition norm_ppf (q : R) (loc scale : ext R) : ext R :=
  match loc, scale with
  | Fin m, Fin s =>
      if Rle_dec s 0 then NaN
      else if Rlt_dec q 0 then NaN
      else if Rlt_dec 1 q then NaN
      else if Req_dec_T q 0 then NInf
      else if Req_dec_T q 1 then PInf
      else Fin (m + s * ndtri q)
  | _, _ => NaN
  end.

(** [autocorr_penalty] *)
Definition autocorr_penalty (returns : list R) (prepare_returns : bool)
  : ext R :=
  let returns :=
    if prepare_returns then _prepare_returns returns 0 None else returns in
  let num := List.length returns in
  let coef := eabs (corrcoef (removelast returns) (tl returns)) in
  let corr :=
    map (fun x => emul (Fin ((INR num - INR x) / INR num)) (epow coef x))
        (seq 1 (num - 1)) in
  esqrt (eadd (Fin 1) (emul (Fin 2) (esum corr))).

Definition periods_message : string := "Must provide periods if rf != 0".

(** [1 if periods is None else periods] *)
Definition periods_or_one (periods : option R) : R :=
  match periods with None => 1 | Some p => p end.

Definition is_none {A : Type} (o : option A) : bool :=
  match o with None => true | Some _ => false end.

(** [sharpe] *)
Definition sharpe (returns : list R) (rf : R) (periods : option R)
           (annualize smart : bool) : result (ext R) :=
  if Rneqb rf 0 && is_none periods
  then Raise (Exception periods_message)
  else
    let returns := _prepare_returns returns rf periods in
    let divisor := std returns in
    let divisor :=
      if smart then emul divisor (autocorr_penalty returns false)
      else divisor in
    let res := ediv (mean returns) divisor in
    if annualize
    then Ok (emul res (esqrt (Fin (periods_or_one periods))))
    else Ok res.

(** [sortino] *)
Definition sortino (returns : list R) (rf : R) (periods : option R)
           (annualize smart : bool) : result (ext R) :=
  if Rneqb rf 0 && is_none periods
  then Raise (Exception periods_message)
  else
    let returns := _prepare_returns returns rf periods in
    let losses := filter (fun r => lt_ext r (Fin 0)) returns in
    let downside :=
      esqrt (ediv (Fin (Rsum (map (fun r => r ^ 2) losses)))
                  (Fin (len returns))) in
    let downside :=
      if smart then emul downside (autocorr_penalty returns false)
      else downside in
    let res := ediv (mean returns) downside in
    if annualize
    then Ok (emul res (esqrt (Fin (periods_or_one periods))))
    else Ok res.

(** [value_at_risk] *)
Definition value_at_risk (returns : list R) (sigma confidence : R)
           (prepare_returns : bool) : ext R :=
  let returns :=
    if prepare_returns then _prepare_returns returns 0 None else returns in
  let mu := mean returns in
  let sigma := emul (Fin sigma) (std returns) in
  let confidence :=
    if Rlt_dec 1 confidence then confidence / 100 else confidence in
  norm_ppf (1 - confidence) mu sigma.

(** [conditional_value_at_risk]; the inner call of [value_at_risk] leaves
    [prepare_returns] at its default. *)
Definition conditional_value_at_risk (returns : list R) (sigma confidence : R)
           (prepare_returns : bool) : ext R :=
  let returns :=
    if prepare_returns then _prepare_returns returns 0 None else returns in
  let var := value_at_risk returns sigma confidence true in
  let c_var := mean (filter (fun r => lt_ext r var) returns) in
  if negb (isnan c_var) then c_var else var.

End WithHelpers.

(** ** Notions for the properties of the kernels *)

(** [r] lies strictly below the threshold [v]. *)
Definition below (v : ext R) (r : R) : Prop :=
  match v with
  | Fin b => r < b
  | PInf => True
  | NInf | NaN => False
  end.

Definition pair_sum (f : R * R -> R) (ps : list (R * R)) : R :=
  Rsum (map f ps).

(** Returns already prepared: [_prepare_returns] leaves them as they are. *)
Definition prepared (returns : list R) (rf : R) (periods : option R)
  : list R := returns.

End Ratio.

(** ** Further kernels over the reals *)

Module Risk.
Import Details Ratio.
Local Open Scope R_scope.

(** [comp] on floats: [returns.add(1).prod() - 1] *)
Definition comp (returns : list R) : R :=
  fold_left Rmult (map (fun r => r + 1) returns) 1 - 1.

(** [x ** y] for a float [x >= 0]: a zero base gives 0 under a positive
    exponent, an infinity under a negative one, and 1 under a zero one. *)
Definition fpow (x y : R) : ext R :=
  if Rlt_dec 0 x then Fin (Rpower x y)
  else if Rlt_dec 0 y then Fin 0
  else if Rlt_dec y 0 then PInf
  else Fin 1.

Section WithUtils.

(** [_utils._prepare_returns(data, rf, nperiods)], from [utils.py], which is
    not among the sources. *)
Variable _prepare_returns : list R -> R -> option R -> list R.

(** [volatility] *)
Definition volatility (returns : list R) (periods : R)
           (annualize prepare_returns : bool) : ext R :=
  let returns :=
    if prepare_returns then _prepare_returns returns 0 None else returns in
  let std := std returns in
  if annualize then emul std (esqrt (Fin periods)) else std.

(** [risk_return_ratio] *)
Definition risk_return_ratio (returns : list R) (prepare_returns : bool)
  : ext R :=
  let returns :=
    if prepare_returns then _prepare_returns returns 0 None else returns in
  ediv (mean returns) (std returns).

(** [cagr] on a Series with its index.  The years are read off the index of
    the returns as given; an empty index has no last label. *)
Definition cagr (returns : list (timestamp * R)) (rf : R) (compounded : bool)
  : result (ext R) :=
  let total := _prepare_returns (map snd returns) rf None in
  let total := if compounded then comp total else Rsum total in
  match returns with
  | [] => Raise IndexError
  | (t0, _) :: _ =>
      let days := timedelta_days (last (map fst returns) t0 - t0) in
      let years := IZR days / 365 in
      if Req_dec_T years 0 then Ok (Fin 0)
      else Ok (eadd (fpow (Rabs (total + 1)) (1 / years)) (Fin (- 1)))
  end.

End WithUtils.

(** The total return [cagr] annualises. *)
Definition total_return (prep : list R -> R -> option R -> list R)
           (returns : list (timestamp * R)) (rf : R) (compounded : bool) : R :=
  let total := prep (map snd returns) rf None in
  if compounded then comp total else Rsum total.

(** The whole days between the first and the last label. *)
Definition span_days (returns : list (timestamp * R)) : Z :=
  match returns with
  | [] => 0
  | (t0, _) :: _ => timedelta_days (last (map fst returns) t0 - t0)
  end.

End Risk.

(** ** Notions for the further properties *)

Module Notions.
Import Series Drawdown Details.
Local Open Scope Q_scope.

(** The value at the fractional position [h] of a sorted list, as
    [quantile] reads it. *)
Definition at_position (sorted : list Q) (x0 h : Q) : Q :=
  let a := nth (Z.to_nat (Qfloor h)) sorted x0 in
  let b := nth (S (Z.to_nat (Qfloor h))) sorted a in
  a + (b - a) * (h - inject_Z (Qfloor h)).

(** The value of a labelled observation is not zero. *)
Definition is_nonzero (p : timestamp * Q) : bool :=
  negb (Qeq_bool (snd p) 0).

(** A drawdown that is a number above -1 and at most 0. *)
Definition in_range (x : ext Q) : Prop :=
  exists d, x = Fin d /\ - (1) < d /\ d <= 0.

(** The row the loop builds for the window from [s] to [e] with valley [v]. *)
Definition row_of (d : series) (s v e : timestamp) : episode :=
  mk_episode s v e (timedelta_days (e - s)%Z)
             (times100 (smin (loc_slice d s e)))
             (clean_min_100 (loc_slice d s e)).

(** The series is at zero at one position and not at the next. *)
Definition falls (d : series) : Prop :=
  exists i t v t' v',
    nth_error d i = Some (t, v) /\ nth_error d (S i) = Some (t', v')
    /\ v == 0 /\ ~ v' == 0.

End Notions.

(** * Part III: properties *)

Module SeriesFacts.
Import Series.
Local Open Scope Q_scope.

Lemma fold_left_Qmult_compat (l : list Q) (a b : Q) :
  a == b -> fold_left Qmult l a == fold_left Qmult l b.
Proof.
  revert a b; induction l as [|x l IH]; intros a b Hab; simpl.
  - exact Hab.
  - apply IH. now rewrite Hab.
Qed.

Lemma last_cons_default {A : Type} (l : list A) (a d : A) :
  last (a :: l) d = last l a.
Proof.
  revert a d; induction l as [|b l IH]; intros a d.
  - reflexivity.
  - change (last (a :: b :: l) d) with (last (b :: l) d).
    rewrite (IH b d), (IH b a). reflexivity.
Qed.

Lemma last_cumprod_from (l : list Q) (acc : Q) :
  last (cumprod_from acc l) acc == fold_left Qmult l acc.
Proof.
  revert acc; induction l as [|x l IH]; intros acc.
  - reflexivity.
  - simpl cumprod_from. rewrite last_cons_default. simpl fold_left. apply IH.
Qed.

Lemma last_map_sub1 (l : list Q) (d : Q) :
  last (map (fun x => x - 1) l) (d - 1) = last l d - 1.
Proof.
  induction l as [|x l IH]; [reflexivity|].
  destruct l as [|y l']; [reflexivity|].
  exact IH.
Qed.

(** C7. For a non-empty return series, [comp] (the product of [1 + r] minus
    one) is the last value of the equity curve [cumprod (add1 returns)] minus
    one, which is also the last value of [compsum]. *)
Theorem comp_is_last_compsum (returns : list Q) (d : Q) :
  returns <> [] ->
  comp returns == last (cumprod (add1 returns)) d - 1 /\
  comp returns == last (compsum returns) d.
Proof.
  intros Hne. destruct returns as [|r rs]; [congruence|].
  assert (E : comp (r :: rs) == last (cumprod (add1 (r :: rs))) d - 1).
  { unfold comp, prod. simpl add1. simpl cumprod. simpl fold_left.
    rewrite last_cons_default, last_cumprod_from.
    apply Qplus_inj_r. apply fold_left_Qmult_compat. ring. }
  split; [exact E|].
  rewrite E. unfold compsum. simpl add1. simpl cumprod. simpl map.
  rewrite !last_cons_default, last_map_sub1. reflexivity.
Qed.

Lemma comp_is_last_compsum_witness :
  [1 # 100; - (2 # 100)] <> [] /\
  comp [1 # 100; - (2 # 100)] == last (compsum [1 # 100; - (2 # 100)]) 0.
Proof.
  split; [discriminate|].
  apply (comp_is_last_compsum [1 # 100; - (2 # 100)] 0). discriminate.
Defined.

End SeriesFacts.

Module DrawdownFacts.
Import Series Drawdown.
Local Open Scope Q_scope.

(** *** The running maximum *)

Lemma qmax_cases (a b : Q) :
  (a <= b /\ qmax a b = b) \/ (b < a /\ qmax a b = a).
Proof.
  unfold qmax. destruct (Qle_bool a b) eqn:E.
  - left. split; [now apply Qle_bool_iff|reflexivity].
  - right. split; [|reflexivity].
    apply Qnot_le_lt. intros H. apply Qle_bool_iff in H. congruence.
Qed.

Lemma qmax_le_iff (a b e : Q) : qmax a b <= e <-> a <= e /\ b <= e.
Proof.
  destruct (qmax_cases a b) as [[H ->]|[H ->]]; split; intros; try tauto;
    split; try tauto; lra.
Qed.

Lemma qmax_ge_l (a b : Q) : a <= qmax a b.
Proof. destruct (qmax_cases a b) as [[H ->]|[H ->]]; lra. Qed.

Lemma qmax_ge_r (a b : Q) : b <= qmax a b.
Proof. destruct (qmax_cases a b) as [[H ->]|[H ->]]; lra. Qed.

Lemma maximum_accumulate_from_windows (r : list Q) (m : Q) :
  maximum_accumulate_from m r
  = map (fun i => fold_left qmax (firstn (S i) r) m) (seq 0 (List.length r)).
Proof.
  revert m; induction r as [|y r IH]; intros m; [reflexivity|].
  simpl List.length. rewrite <- cons_seq, <- seq_shift, map_cons, map_map.
  simpl maximum_accumulate_from. f_equal. apply IH.
Qed.

(** The expanding-window maximum of pandas and the accumulated maximum of
    numpy are the same series. *)
Lemma expanding_max_accumulate (l : list Q) :
  expanding_max l = map Fin (maximum_accumulate l).
Proof.
  destruct l as [|x r]; [reflexivity|].
  unfold expanding_max. simpl List.length.
  rewrite <- cons_seq, <- seq_shift, map_cons, map_map.
  simpl maximum_accumulate. rewrite map_cons. f_equal.
  rewrite maximum_accumulate_from_windows, map_map. reflexivity.
Qed.

(** *** One point of the drawdown series *)

Lemma Qeq_bool_false (a b : Q) : Qeq_bool a b = false -> ~ a == b.
Proof. intros E H. apply Qeq_bool_iff in H. congruence. Qed.

Lemma fdiv_pos (p m : Q) : 0 < m -> fdiv p m = Fin (p / m).
Proof.
  intros Hm. unfold fdiv. destruct (Qeq_bool m 0) eqn:E; [|reflexivity].
  apply Qeq_bool_iff in E. lra.
Qed.

Lemma div_sub1_le (p m : Q) : 0 < m -> p <= m -> p / m - 1 <= 0.
Proof.
  intros Hm Hp. assert (p / m <= 1); [|lra].
  apply Qle_shift_div_r; [exact Hm|lra].
Qed.

Lemma div_sub1_zero (p m : Q) : 0 < m -> (p / m - 1 == 0 <-> p == m).
Proof.
  intros Hm. split; intros H.
  - assert (E : p == (p / m) * m) by (field; lra).
    rewrite E. assert (E1 : p / m == 1) by lra. rewrite E1. ring.
  - rewrite H. field. lra.
Qed.

Lemma dd_point_spec (p m : Q) :
  0 < m -> p <= m ->
  exists d, dd_point p m = Fin d /\ d <= 0 /\ (d == 0 <-> m <= p).
Proof.
  intros Hm Hp. unfold dd_point. rewrite (fdiv_pos p m Hm). simpl.
  pose proof (div_sub1_le p m Hm Hp) as Hle.
  pose proof (div_sub1_zero p m Hm) as Hz.
  destruct (Qeq_bool (p / m - 1) 0) eqn:E.
  - apply Qeq_bool_iff in E. exists 0. split; [reflexivity|].
    split; [lra|]. split; intros _; [|reflexivity].
    apply Hz in E. lra.
  - apply Qeq_bool_false in E. exists (p / m - 1). split; [reflexivity|].
    split; [exact Hle|]. split; intros H.
    + contradiction.
    + exfalso. apply E, Hz. lra.
Qed.

Lemma dd_series_points (prices maxima : list Q) :
  map replace_inf_zero (map esub1 (map2 fdiv prices maxima))
  = map2 dd_point prices maxima.
Proof.
  revert maxima; induction prices as [|p ps IH]; intros [|m ms];
    try reflexivity.
  simpl. f_equal. apply IH.
Qed.

Lemma dd_from_spec (r : list Q) :
  forall (m : Q) (i : nat) (e : Q),
    0 < m -> nth_error r i = Some e ->
    exists d,
      nth_error (map2 dd_point r (maximum_accumulate_from m r)) i
      = Some (Fin d)
      /\ d <= 0
      /\ (d == 0 <-> m <= e /\ Forall (fun y => y <= e) (firstn (S i) r)).
Proof.
  induction r as [|y r IH]; intros m i e Hm Hi.
  - destruct i; discriminate.
  - assert (Hq : 0 < qmax m y) by (pose proof (qmax_ge_l m y); lra).
    destruct i as [|i].
    + injection Hi as ->. simpl.
      destruct (dd_point_spec e (qmax m e) Hq (qmax_ge_r m e))
        as (d & Hd & Hle & Hz).
      exists d. split; [now rewrite Hd|]. split; [exact Hle|].
      rewrite Hz, qmax_le_iff. split.
      * intros [H1 H2]. split; [exact H1|]. constructor; [lra|constructor].
      * intros [H1 _]. split; [exact H1|lra].
    + simpl in Hi. destruct (IH (qmax m y) i e Hq Hi) as (d & Hd & Hle & Hz).
      exists d. split; [exact Hd|]. split; [exact Hle|].
      rewrite Hz, qmax_le_iff.
      change (firstn (S (S i)) (y :: r)) with (y :: firstn (S i) r).
      split.
      * intros [[H1 H2] H3]. split; [exact H1|]. now constructor.
      * intros [H1 H2]. inversion H2; subst. tauto.
Qed.

(** *** The equity curve of returns above -1 is positive *)

Lemma cumprod_from_pos (l : list Q) (acc : Q) :
  0 < acc -> Forall (fun x => 0 < x) l ->
  Forall (fun x => 0 < x) (cumprod_from acc l).
Proof.
  revert acc; induction l as [|x l IH]; intros acc Ha Hl; [constructor|].
  inversion Hl; subst. simpl.
  assert (0 < acc * x) by (apply Qmult_lt_0_compat; assumption).
  constructor; [assumption|]. now apply IH.
Qed.

Lemma add1_pos (returns : list Q) :
  Forall (fun r => - (1) < r) returns -> Forall (fun x => 0 < x) (add1 returns).
Proof.
  intros H. unfold add1. apply Forall_map.
  eapply Forall_impl; [|exact H]. simpl. intros a Ha. lra.
Qed.

Lemma cumprod_pos (l : list Q) :
  Forall (fun x => 0 < x) l -> Forall (fun x => 0 < x) (cumprod l).
Proof.
  intros H. destruct l as [|x l]; [constructor|].
  inversion H; subst. simpl. constructor; [assumption|].
  now apply cumprod_from_pos.
Qed.

Lemma to_equity_curve_pos (returns : list Q) :
  Forall (fun r => - (1) < r) returns ->
  Forall (fun x => 0 < x) (to_equity_curve returns).
Proof. intros H. apply cumprod_pos, add1_pos, H. Qed.

Lemma dd_series_spec (prices : list Q) (i : nat) (e : Q) :
  Forall (fun x => 0 < x) prices ->
  nth_error prices i = Some e ->
  exists d,
    nth_error (to_drawdown_series (fun x => x) prices) i = Some (Fin d)
    /\ d <= 0
    /\ (d == 0 <-> Forall (fun y => y <= e) (firstn (S i) prices)).
Proof.
  intros Hpos Hi. unfold to_drawdown_series. rewrite dd_series_points.
  destruct prices as [|x r]; [destruct i; discriminate|].
  inversion Hpos as [|? ? Hx Hr]; subst.
  destruct i as [|i].
  - injection Hi as ->. simpl.
    destruct (dd_point_spec e e Hx (Qle_refl e)) as (d & Hd & Hle & Hz).
    exists d. split; [now rewrite Hd|]. split; [exact Hle|].
    rewrite Hz. split; intros _; [|lra]. constructor; [lra|constructor].
  - simpl in Hi. destruct (dd_from_spec r x i e Hx Hi) as (d & Hd & Hle & Hz).
    exists d. split; [exact Hd|]. split; [exact Hle|].
    rewrite Hz. change (firstn (S (S i)) (x :: r)) with (x :: firstn (S i) r).
    split.
    + intros [H1 H2]. now constructor.
    + intros H. inversion H; subst. tauto.
Qed.

(** C6. When every return is above -1, each value of the drawdown series is
    a finite number at most 0, and it is 0 exactly where the equity curve is
    at its running maximum, that is where no equity value up to and
    including that position exceeds the current one. *)
Theorem drawdown_nonpositive_zero_at_highs (returns : list Q) (i : nat) (e : Q) :
  Forall (fun r => - (1) < r) returns ->
  nth_error (to_equity_curve returns) i = Some e ->
  exists d,
    nth_error (to_drawdown_series to_equity_curve returns) i = Some (Fin d)
    /\ d <= 0
    /\ (d == 0 <->
        Forall (fun y => y <= e) (firstn (S i) (to_equity_curve returns))).
Proof.
  intros Hr Hi.
  exact (dd_series_spec (to_equity_curve returns) i e
           (to_equity_curve_pos returns Hr) Hi).
Qed.

Lemma drawdown_nonpositive_zero_at_highs_witness :
  Forall (fun r => - (1) < r) [1 # 100; - (2 # 100); 3 # 100] /\
  exists d,
    nth_error (to_drawdown_series to_equity_curve
                 [1 # 100; - (2 # 100); 3 # 100]) 1%nat = Some (Fin d)
    /\ d <= 0.
Proof.
  destruct (drawdown_nonpositive_zero_at_highs
              [1 # 100; - (2 # 100); 3 # 100] 1%nat
              (9898 # 10000)) as (d & Hd & Hle & _).
  - repeat constructor.
  - reflexivity.
  - split; [repeat constructor|]. exists d. split; assumption.
Defined.

(** *** The scalar maximum drawdown against the series *)

Lemma map2_ediv_fin (ps ms : list Q) :
  map2 ediv (map Fin ps) (map Fin ms) = map2 fdiv ps ms.
Proof.
  revert ms; induction ps as [|p ps IH]; intros [|m ms]; try reflexivity.
  simpl. f_equal. apply IH.
Qed.

Lemma ratios_from_fin (r : list Q) (m : Q) :
  0 < m -> Forall is_fin (map2 fdiv r (maximum_accumulate_from m r)).
Proof.
  revert m; induction r as [|y r IH]; intros m Hm; [constructor|].
  assert (Hq : 0 < qmax m y) by (pose proof (qmax_ge_l m y); lra).
  simpl. constructor; [|now apply IH].
  rewrite (fdiv_pos _ _ Hq). now eexists.
Qed.

Lemma ratios_fin (prices : list Q) :
  Forall (fun x => 0 < x) prices ->
  Forall is_fin (map2 fdiv prices (maximum_accumulate prices)).
Proof.
  intros H. destruct prices as [|x r]; [constructor|].
  inversion H; subst. simpl. constructor; [|now apply ratios_from_fin].
  rewrite fdiv_pos by assumption. now eexists.
Qed.

Lemma map2_length_same {A B C : Type} (f : A -> B -> C) (l : list A)
      (m : list B) :
  List.length l = List.length m -> List.length (map2 f l m) = List.length l.
Proof.
  revert m; induction l as [|a l IH]; intros [|b m] H; try discriminate;
    [reflexivity|].
  simpl. f_equal. apply IH. now injection H.
Qed.

Lemma maximum_accumulate_length (l : list Q) :
  List.length (maximum_accumulate l) = List.length l.
Proof.
  destruct l as [|x r]; [reflexivity|]. simpl. f_equal.
  rewrite maximum_accumulate_from_windows, length_map, length_seq.
  reflexivity.
Qed.

Lemma step_fin (q : Q) :
  exists c, replace_inf_zero (esub1 (Fin q)) = Fin c /\ c == q - 1.
Proof.
  simpl. destruct (Qeq_bool (q - 1) 0) eqn:E.
  - apply Qeq_bool_iff in E. exists 0. split; [reflexivity|lra].
  - exists (q - 1). split; reflexivity.
Qed.

Lemma Qle_bool_compat (a b c d : Q) :
  a == c -> b == d -> Qle_bool a b = Qle_bool c d.
Proof.
  intros H1 H2. destruct (Qle_bool c d) eqn:E.
  - apply Qle_bool_iff. apply Qle_bool_iff in E. lra.
  - destruct (Qle_bool a b) eqn:E'; [|reflexivity].
    apply Qle_bool_iff in E'.
    assert (H : c <= d) by lra. apply Qle_bool_iff in H. congruence.
Qed.

Lemma emin_sub1 (ratios : list (ext Q)) :
  Forall is_fin ratios -> ratios <> [] ->
  exists a b,
    emin ratios = Fin a
    /\ emin (map replace_inf_zero (map esub1 ratios)) = Fin b
    /\ b == a - 1.
Proof.
  induction ratios as [|x rs IH]; intros Hf Hne; [congruence|].
  inversion Hf as [|? ? [q ->] Hrs]; subst.
  destruct (step_fin q) as (c & Hc & Hcq).
  cbn [map]. rewrite Hc. cbn [emin].
  destruct rs as [|y rs'].
  - exists q, c. simpl. auto.
  - destruct (IH Hrs) as (a & b & Ha & Hb & Hab); [discriminate|].
    rewrite Ha, Hb. cbn [emin2].
    rewrite (Qle_bool_compat c b (q - 1) (a - 1) Hcq Hab).
    assert (E : Qle_bool (q - 1) (a - 1) = Qle_bool q a).
    { destruct (Qle_bool q a) eqn:E.
      - apply Qle_bool_iff. apply Qle_bool_iff in E. lra.
      - destruct (Qle_bool (q - 1) (a - 1)) eqn:E'; [|reflexivity].
        apply Qle_bool_iff in E'.
        assert (H : q <= a) by lra. apply Qle_bool_iff in H. congruence. }
    rewrite E. destruct (Qle_bool q a).
    + exists q, c. auto.
    + exists a, b. auto.
Qed.

Lemma max_drawdown_prepared (prep : list Q -> list Q) (prices : list Q) :
  prep prices <> [] -> Forall (fun x => 0 < x) (prep prices) ->
  ext_eq (max_drawdown prep prices) (emin (to_drawdown_series prep prices)).
Proof.
  intros Hne Hpos. unfold max_drawdown, to_drawdown_series.
  rewrite expanding_max_accumulate, map2_ediv_fin.
  destruct (emin_sub1 (map2 fdiv (prep prices)
                         (maximum_accumulate (prep prices))))
    as (a & b & Ha & Hb & Hab).
  - now apply ratios_fin.
  - intros E. apply (f_equal (@List.length _)) in E.
    rewrite map2_length_same in E
      by (now rewrite maximum_accumulate_length).
    destruct (prep prices); [congruence|discriminate].
  - rewrite Ha, Hb. simpl. lra.
Qed.

(** C10. For a non-empty series of strictly positive prices, which
    [_prepare_prices] either keeps as it is or compounds into an equity
    curve, [max_drawdown] is the minimum of [to_drawdown_series]. *)
Theorem max_drawdown_is_series_min (prep : list Q -> list Q)
        (prices : list Q) :
  prices <> [] -> Forall (fun x => 0 < x) prices ->
  prep prices = prices \/ prep prices = to_equity_curve prices ->
  ext_eq (max_drawdown prep prices) (emin (to_drawdown_series prep prices)).
Proof.
  intros Hne Hpos Hprep. apply max_drawdown_prepared.
  - destruct Hprep as [-> | ->]; [exact Hne|].
    destruct prices; [congruence|discriminate].
  - destruct Hprep as [-> | ->]; [exact Hpos|].
    apply to_equity_curve_pos.
    eapply Forall_impl; [|exact Hpos]. simpl. intros a Ha. lra.
Qed.

Lemma max_drawdown_is_series_min_witness :
  [100; 90; 110; 99] <> [] /\ Forall (fun x => 0 < x) [100; 90; 110; 99] /\
  ext_eq (max_drawdown (fun x => x) [100; 90; 110; 99])
         (emin (to_drawdown_series (fun x => x) [100; 90; 110; 99])).
Proof.
  split; [discriminate|]. split; [repeat constructor|].
  apply (max_drawdown_is_series_min (fun x => x) [100; 90; 110; 99]).
  - discriminate.
  - repeat constructor.
  - left. reflexivity.
Defined.

End DrawdownFacts.

Module DetailsFacts.
Import Series Drawdown Details Episodes.
Local Open Scope Z_scope.

(** *** The two masks as one scan of the series *)

Lemma shifted_mask_one (f g : Q -> bool) (o : option bool)
      (p : timestamp * Q) :
  shifted_mask f g o [p] = [and_na (f (snd p)) o].
Proof. reflexivity. Qed.

Lemma shifted_mask_cons (f g : Q -> bool) (o : option bool)
      (p p' : timestamp * Q) (d : series) :
  shifted_mask f g o (p :: p' :: d)
  = and_na (f (snd p)) o :: shifted_mask f g (Some (g (snd p))) (p' :: d).
Proof. reflexivity. Qed.

Lemma labels_where_cons (p : timestamp * Q) (d : series) (b : bool)
      (m : list bool) :
  labels_where (p :: d) (b :: m)
  = if b then fst p :: labels_where d m else labels_where d m.
Proof. unfold labels_where. simpl. destruct b; reflexivity. Qed.

Lemma transitions_cons (f g : Q -> bool) (o : option bool)
      (p : timestamp * Q) (d : series) :
  transitions f g o (p :: d)
  = if and_na (f (snd p)) o
    then fst p :: transitions f g (Some (g (snd p))) d
    else transitions f g (Some (g (snd p))) d.
Proof. destruct p. reflexivity. Qed.

Lemma labels_where_shifted (f g : Q -> bool) (d : series) :
  forall (p : timestamp * Q) (o : option bool),
    labels_where (p :: d) (shifted_mask f g o (p :: d))
    = transitions f g o (p :: d).
Proof.
  induction d as [|p' d IH]; intros p o.
  - rewrite shifted_mask_one, labels_where_cons, transitions_cons.
    reflexivity.
  - rewrite shifted_mask_cons, labels_where_cons, transitions_cons, IH.
    reflexivity.
Qed.

Lemma raw_starts_scan (d : series) :
  raw_starts d = transitions (fun v => negb (isz v)) isz None d.
Proof.
  destruct d as [|p d]; [reflexivity|].
  rewrite <- labels_where_shifted.
  unfold raw_starts, eq_zero, shift1, shifted_mask.
  rewrite map_map. reflexivity.
Qed.

Lemma raw_ends_scan (d : series) :
  raw_ends d = transitions isz (fun v => negb (isz v)) None d.
Proof.
  destruct d as [|p d]; [reflexivity|].
  rewrite <- labels_where_shifted.
  unfold raw_ends, eq_zero, shift1, shifted_mask.
  rewrite map_map. reflexivity.
Qed.

(** *** Episodes as maximal underwater runs *)

Lemma scan_high_high t v r :
  isz v = true ->
  starts_in true ((t, v) :: r) = starts_in true r
  /\ ends_in true ((t, v) :: r) = ends_in true r
  /\ final true ((t, v) :: r) = final true r.
Proof.
  intros E. unfold starts_in, ends_in, final. cbn [map snd].
  rewrite SeriesFacts.last_cons_default. simpl. rewrite E. auto.
Qed.

Lemma scan_high_under t v r :
  isz v = false ->
  starts_in true ((t, v) :: r) = t :: starts_in false r
  /\ ends_in true ((t, v) :: r) = ends_in false r
  /\ final true ((t, v) :: r) = final false r.
Proof.
  intros E. unfold starts_in, ends_in, final. cbn [map snd].
  rewrite SeriesFacts.last_cons_default. simpl. rewrite E. auto.
Qed.

Lemma scan_under_high t v r :
  isz v = true ->
  starts_in false ((t, v) :: r) = starts_in true r
  /\ ends_in false ((t, v) :: r) = t :: ends_in true r
  /\ final false ((t, v) :: r) = final true r.
Proof.
  intros E. unfold starts_in, ends_in, final. cbn [map snd].
  rewrite SeriesFacts.last_cons_default. simpl. rewrite E. auto.
Qed.

Lemma scan_under_under t v r :
  isz v = false ->
  starts_in false ((t, v) :: r) = starts_in false r
  /\ ends_in false ((t, v) :: r) = ends_in false r
  /\ final false ((t, v) :: r) = final false r.
Proof.
  intros E. unfold starts_in, ends_in, final. cbn [map snd].
  rewrite SeriesFacts.last_cons_default. simpl. rewrite E. auto.
Qed.

Lemma runs_as_combine (d : series) :
  forall lastt,
    runs None d lastt
    = combine (starts_in true d) (ends_in true d ++ [last (index d) lastt])
    /\ forall s : timestamp,
      runs (Some s) d lastt
      = combine (s :: starts_in false d)
                (ends_in false d ++ [last (index d) lastt]).
Proof.
  induction d as [|[t v] r IH]; intros lastt.
  - split; reflexivity.
  - destruct (IH t) as [IHh IHu].
    unfold index in *. cbn [map fst].
    rewrite SeriesFacts.last_cons_default.
    destruct (isz v) eqn:E; cbn [runs]; rewrite E.
    + destruct (scan_high_high t v r E) as (-> & -> & _).
      destruct (scan_under_high t v r E) as (-> & -> & _).
      split; [exact IHh|]. intros s. simpl. now rewrite IHh.
    + destruct (scan_high_under t v r E) as (-> & -> & _).
      destruct (scan_under_under t v r E) as (-> & -> & _).
      split; [apply IHu|]. intros s. apply IHu.
Qed.

Lemma scan_lengths (d : series) :
  List.length (starts_in true d)
  = (List.length (ends_in true d) + (if final true d then 0 else 1))%nat
  /\ S (List.length (starts_in false d))
     = (List.length (ends_in false d) + (if final false d then 0 else 1))%nat.
Proof.
  induction d as [|[t v] r [IHh IHu]].
  - split; reflexivity.
  - destruct (isz v) eqn:E.
    + destruct (scan_high_high t v r E) as (-> & -> & ->).
      destruct (scan_under_high t v r E) as (-> & -> & ->).
      split; [exact IHh|]. simpl. lia.
    + destruct (scan_high_under t v r E) as (-> & -> & ->).
      destruct (scan_under_under t v r E) as (-> & -> & ->).
      split; [simpl; lia|exact IHu].
Qed.

Lemma combine_app_extra {A B : Type} (l : list A) (m x : list B) :
  (List.length l <= List.length m)%nat ->
  combine l (m ++ x) = combine l m.
Proof.
  revert m; induction l as [|a l IH]; intros [|b m] H; simpl in *;
    try reflexivity; try lia.
  f_equal. apply IH. lia.
Qed.

(** *** Increasing index *)

Lemma increasing_from_In (l : list timestamp) :
  forall lb t, increasing_from lb l -> In t l -> lb < t.
Proof.
  induction l as [|a l IH]; intros lb t H Hin; [contradiction|].
  destruct H as [H1 H2]. destruct Hin as [-> | Hin]; [exact H1|].
  specialize (IH a t H2 Hin). lia.
Qed.

Lemma increasing_from_weaken (l : list timestamp) (lb lb' : timestamp) :
  lb' <= lb -> increasing_from lb l -> increasing_from lb' l.
Proof. destruct l; simpl; [auto|]. intros H [H1 H2]. split; [lia|exact H2]. Qed.

Lemma transitions_in_index (f g : Q -> bool) (d : series) :
  forall o t, In t (transitions f g o d) -> In t (index d).
Proof.
  induction d as [|[a v] r IH]; intros o t H; [contradiction|].
  simpl in H. destruct (and_na (f v) o).
  - destruct H as [-> | H]; [now left|]. right. eapply IH, H.
  - right. eapply IH, H.
Qed.

Lemma hd_In (l : list timestamp) : l <> [] -> In (hd 0 l) l.
Proof. destruct l; [congruence|]. intros _. now left. Qed.

Lemma last_In (l : list timestamp) : l <> [] -> In (last l 0) l.
Proof.
  induction l as [|a l IH]; [congruence|]. intros _.
  destruct l as [|b l']; [now left|].
  right. apply IH. discriminate.
Qed.

Lemma last_cons_nonempty (a : timestamp) (l : list timestamp) :
  l <> [] -> last (a :: l) 0 = last l 0.
Proof. destruct l; [congruence|]. reflexivity. Qed.

(** Of the transitions found from a given state, the first is a start after
    a high and an end after an underwater value. *)
Lemma scan_heads (d : series) :
  forall lb, increasing_from lb (index d) ->
    (ends_in true d <> [] ->
     starts_in true d <> []
     /\ hd 0 (starts_in true d) < hd 0 (ends_in true d))
    /\ (starts_in false d <> [] ->
        ends_in false d <> []
        /\ hd 0 (ends_in false d) < hd 0 (starts_in false d)).
Proof.
  induction d as [|[t v] r IH]; intros lb Hinc.
  - split; intros H; now elim H.
  - destruct Hinc as [Hlb Hinc]. fold (index r) in Hinc.
    destruct (IH t Hinc) as [IHh IHu].
    destruct (isz v) eqn:E.
    + destruct (scan_high_high t v r E) as (-> & -> & _).
      destruct (scan_under_high t v r E) as (-> & -> & _).
      split; [exact IHh|]. intros Hs. split; [discriminate|].
      simpl. apply (increasing_from_In (index r) t); [exact Hinc|].
      eapply transitions_in_index, hd_In, Hs.
    + destruct (scan_high_under t v r E) as (-> & -> & _).
      destruct (scan_under_under t v r E) as (-> & -> & _).
      split; [|exact IHu]. intros He. split; [discriminate|].
      simpl. apply (increasing_from_In (index r) t); [exact Hinc|].
      eapply transitions_in_index, hd_In, He.
Qed.

(** When the series ends under water, the last transition is a start. *)
Lemma scan_lasts (d : series) :
  forall lb, increasing_from lb (index d) ->
    (final true d = false ->
     starts_in true d <> []
     /\ (ends_in true d = []
         \/ last (ends_in true d) 0 < last (starts_in true d) 0))
    /\ (final false d = false ->
        (ends_in false d = [] /\ starts_in false d = [])
        \/ (starts_in false d <> [] /\ ends_in false d <> []
            /\ last (ends_in false d) 0 < last (starts_in false d) 0)).
Proof.
  induction d as [|[t v] r IH]; intros lb Hinc.
  - split; intros H; [discriminate|]. left. split; reflexivity.
  - destruct Hinc as [Hlb Hinc]. fold (index r) in Hinc.
    destruct (IH t Hinc) as [IHh IHu].
    destruct (isz v) eqn:E.
    + destruct (scan_high_high t v r E) as (-> & -> & ->).
      destruct (scan_under_high t v r E) as (-> & -> & ->).
      split; [exact IHh|]. intros Hf. right.
      destruct (IHh Hf) as [Hs He]. split; [exact Hs|].
      split; [discriminate|].
      destruct He as [-> | He].
      * simpl last at 1.
        apply (increasing_from_In (index r) t); [exact Hinc|].
        eapply transitions_in_index, last_In, Hs.
      * destruct (ends_in true r) eqn:Ee; [simpl in He|].
        -- simpl last at 1.
           apply (increasing_from_In (index r) t); [exact Hinc|].
           eapply transitions_in_index, last_In, Hs.
        -- rewrite last_cons_nonempty by discriminate. exact He.
    + destruct (scan_high_under t v r E) as (-> & -> & ->).
      destruct (scan_under_under t v r E) as (-> & -> & ->).
      split; [|exact IHu]. intros Hf. split; [discriminate|].
      destruct (IHu Hf) as [[He _] | (Hs & He & Hlt)]; [now left|].
      right. rewrite last_cons_nonempty by exact Hs. exact Hlt.
Qed.

(** *** The boundary cases of the code against the runs *)

Lemma raw_scan_first (t0 : timestamp) (v0 : Q) (r : series) :
  raw_starts ((t0, v0) :: r) = starts_in (isz v0) r
  /\ raw_ends ((t0, v0) :: r) = ends_in (isz v0) r.
Proof.
  rewrite raw_starts_scan, raw_ends_scan. unfold starts_in, ends_in.
  split; reflexivity.
Qed.

Lemma fill_ends_cases (d : series) (starts ends : list timestamp) :
  fill_ends d starts ends = ends
  \/ fill_ends d starts ends = ends ++ [last (index d) 0].
Proof. unfold fill_ends. destruct (_ || _); auto. Qed.

Lemma fill_ends_open (d : series) (starts ends : list timestamp) :
  ends = [] \/ last ends 0 < last starts 0 ->
  fill_ends d starts ends = ends ++ [last (index d) 0].
Proof.
  intros H. unfold fill_ends.
  destruct H as [-> | H]; [reflexivity|].
  apply Z.ltb_lt in H. rewrite H, Bool.orb_true_r. reflexivity.
Qed.

Lemma filled_windows (t0 : timestamp) (v0 : Q) (r : series) :
  let d := (t0, v0) :: r in
  let starts := fill_starts d (raw_starts d) (raw_ends d) in
  let ends := fill_ends d starts (raw_ends d) in
  increasing (index d) ->
  raw_starts d <> [] ->
  (List.length starts <= List.length ends)%nat
  /\ combine starts ends = runs None d 0
  /\ Forall (fun s => In s (index d)) starts.
Proof.
  intros d starts ends Hinc Hne.
  destruct (raw_scan_first t0 v0 r) as [ES EE].
  fold d in ES, EE. subst starts ends. rewrite ES, EE in *.
  assert (Hinc' : increasing_from t0 (index r)) by exact Hinc.
  destruct (scan_heads r t0 Hinc') as [Hh Hu].
  destruct (scan_lasts r t0 Hinc') as [Lh Lu].
  destruct (scan_lengths r) as [Nh Nu].
  destruct (runs_as_combine r t0) as [Rh Ru].
  assert (Hlast : last (index d) 0 = last (index r) t0)
    by (unfold d, index; cbn [map fst]; apply SeriesFacts.last_cons_default).
  assert (Hidx : forall high s, In s (starts_in high r) -> In s (index d)).
  { intros high s Hs. right. eapply transitions_in_index, Hs. }
  destruct (isz v0) eqn:E.
  - (* the series begins at a high *)
    assert (Hfs : fill_starts d (starts_in true r) (ends_in true r)
                  = starts_in true r).
    { unfold fill_starts. destruct (ends_in true r) eqn:Ee; [reflexivity|].
      rewrite <- Ee in *.
      destruct Hh as [_ Hlt]; [rewrite Ee; discriminate|].
      apply Z.lt_le_incl, Z.ltb_ge in Hlt. rewrite Hlt.
      rewrite Bool.andb_false_r. reflexivity. }
    rewrite Hfs.
    assert (Hruns : runs None d 0 = runs None r t0)
      by (unfold d; cbn [runs]; fold (isz v0); now rewrite E).
    rewrite Hruns, Rh, <- Hlast.
    split; [|split].
    + destruct (final true r) eqn:F.
      * destruct (fill_ends_cases d (starts_in true r) (ends_in true r))
          as [-> | ->]; [lia|rewrite length_app; simpl; lia].
      * rewrite fill_ends_open by (apply Lh; reflexivity).
        rewrite length_app; simpl; lia.
    + destruct (final true r) eqn:F.
      * destruct (fill_ends_cases d (starts_in true r) (ends_in true r))
          as [-> | ->]; [|reflexivity].
        symmetry. apply combine_app_extra. lia.
      * rewrite fill_ends_open by (apply Lh; reflexivity). reflexivity.
    + apply Forall_forall. intros s Hs. eapply Hidx, Hs.
  - (* the series begins under water *)
    destruct (Hu Hne) as [Hene Hlt].
    assert (Hfs : fill_starts d (starts_in false r) (ends_in false r)
                  = t0 :: starts_in false r).
    { unfold fill_starts. apply Z.ltb_lt in Hlt. rewrite Hlt.
      destruct (ends_in false r); [congruence|]. reflexivity. }
    rewrite Hfs.
    assert (Hruns : runs None d 0 = runs (Some t0) r t0)
      by (unfold d; cbn [runs]; fold (isz v0); now rewrite E).
    rewrite Hruns, Ru, <- Hlast.
    assert (Hopen : final false r = false ->
                    fill_ends d (t0 :: starts_in false r) (ends_in false r)
                    = ends_in false r ++ [last (index d) 0]).
    { intros F. apply fill_ends_open. right.
      rewrite last_cons_nonempty by exact Hne.
      destruct (Lu F) as [[_ Hs] | (_ & _ & H)]; [congruence|exact H]. }
    split; [|split].
    + destruct (final false r) eqn:F.
      * destruct (fill_ends_cases d (t0 :: starts_in false r)
                    (ends_in false r)) as [-> | ->];
          [simpl; lia|rewrite length_app; simpl; lia].
      * rewrite Hopen by reflexivity. rewrite length_app; simpl; lia.
    + destruct (final false r) eqn:F.
      * destruct (fill_ends_cases d (t0 :: starts_in false r)
                    (ends_in false r)) as [-> | ->]; [|reflexivity].
        symmetry. apply combine_app_extra. simpl. lia.
      * rewrite Hopen by reflexivity. reflexivity.
    + constructor; [now left|].
      apply Forall_forall. intros s Hs. eapply Hidx, Hs.
Qed.

(** *** What the runs cover *)

Lemma chain_weaken (ws : list (timestamp * timestamp)) (lb lb' : timestamp) :
  lb' <= lb -> chain lb ws -> chain lb' ws.
Proof.
  destruct ws as [|[s e] r]; [auto|]. simpl. intros H (H1 & H2 & H3).
  repeat split; [lia|exact H2|exact H3].
Qed.

Lemma chain_not_covered (ws : list (timestamp * timestamp)) :
  forall lb t, chain lb ws -> t <= lb -> ~ covered ws t.
Proof.
  induction ws as [|[s e] r IH]; intros lb t Hc Ht (s' & e' & Hin & Hs).
  - contradiction.
  - destruct Hc as (H1 & H2 & H3). destruct Hin as [Heq | Hin].
    + injection Heq as <- <-. lia.
    + apply (IH e t H3); [lia|]. now exists s', e'.
Qed.

Lemma covered_cons (s e : timestamp) (ws : list (timestamp * timestamp))
      (t : timestamp) :
  covered ((s, e) :: ws) t <-> (s <= t < e) \/ covered ws t.
Proof.
  split.
  - intros (s' & e' & [Heq | Hin] & H).
    + injection Heq as <- <-. now left.
    + right. now exists s', e'.
  - intros [H | (s' & e' & Hin & H)].
    + exists s, e. split; [now left|exact H].
    + exists s', e'. split; [now right|exact H].
Qed.

Lemma In_index (d : series) (t : timestamp) (v : Q) :
  In (t, v) d -> In t (index d).
Proof. intros H. apply (in_map fst) in H. exact H. Qed.

Lemma last_index_above (r : series) (t : timestamp) :
  increasing_from t (index r) -> r <> [] -> t < last (index r) t.
Proof.
  intros Hinc Hne. apply (increasing_from_In (index r) t); [exact Hinc|].
  destruct r as [|p r]; [congruence|].
  unfold index. cbn [map]. rewrite SeriesFacts.last_cons_default.
  destruct (map fst r) eqn:E; [now left|].
  rewrite <- E.
  assert (H : forall (l : list timestamp) a, l <> [] -> In (last l a) l).
  { clear. induction l as [|b l IH]; intros a Hl; [congruence|].
    destruct l as [|c l']; [now left|]. right. apply IH. discriminate. }
  right. apply H. rewrite E. discriminate.
Qed.

Lemma cover_under_step (s t : timestamp) (v : Q) (r : series)
      (e1 : timestamp) (rest : list (timestamp * timestamp)) :
  s <= t -> isz v = false -> increasing_from t (index r) ->
  runs (Some s) r t = (s, e1) :: rest ->
  (r <> [] -> t < e1) ->
  (forall t' v', In (t', v') r ->
     (covered (runs (Some s) r t) t'
      <-> isz v' = false /\ t' <> last (index r) t)) ->
  forall t' v', In (t', v') ((t, v) :: r) ->
    (covered (runs (Some s) r t) t'
     <-> isz v' = false /\ t' <> last (index r) t).
Proof.
  intros Hs E Hinc Hr He Hcov t' v' [Heq | Hin]; [|now apply Hcov].
  injection Heq as <- <-. destruct r as [|p r'].
  - simpl in Hr. injection Hr as <- <-. simpl. split.
    + intros (s' & e' & [Heq | []] & H). injection Heq as <- <-. lia.
    + intros [_ H]. congruence.
  - assert (Hlt : t < e1) by (apply He; discriminate).
    pose proof (last_index_above (p :: r') t Hinc) as Hl.
    split.
    + intros _. split; [exact E|].
      assert (t < last (index (p :: r')) t) by (apply Hl; discriminate). lia.
    + intros _. rewrite Hr. exists s, e1. split; [now left|lia].
Qed.

Lemma runs_cover (d : series) :
  forall lastt,
    (forall lb, increasing_from lb (index d) ->
       chain lb (runs None d lastt)
       /\ forall t v, In (t, v) d ->
            (covered (runs None d lastt) t
             <-> isz v = false /\ t <> last (index d) lastt))
    /\ (forall s : timestamp,
          s <= lastt -> increasing_from lastt (index d) ->
          exists (e1 : timestamp) (rest : list (timestamp * timestamp)),
            runs (Some s) d lastt = (s, e1) :: rest
            /\ lastt <= e1
            /\ (d <> [] -> lastt < e1)
            /\ chain e1 rest
            /\ forall t v, In (t, v) d ->
                 (covered (runs (Some s) d lastt) t
                  <-> isz v = false /\ t <> last (index d) lastt)).
Proof.
  induction d as [|[t v] r IH]; intros lastt.
  - split.
    + intros lb _. split; [exact I|]. intros t v [].
    + intros s Hs _. exists lastt, []. simpl.
      repeat split; try lia; try congruence; try contradiction.
  - destruct (IH t) as [IHh IHu].
    assert (Hlast : last (index ((t, v) :: r)) lastt = last (index r) t)
      by (unfold index; cbn [map fst]; apply SeriesFacts.last_cons_default).
    rewrite Hlast. cbn [runs]. fold (isz v).
    destruct (isz v) eqn:E.
    + (* a value at a high *)
      assert (Hhead : forall lb, increasing_from lb (index ((t, v) :: r)) ->
                chain t (runs None r t)
                /\ forall t' v', In (t', v') ((t, v) :: r) ->
                     (covered (runs None r t) t'
                      <-> isz v' = false /\ t' <> last (index r) t)).
      { intros lb [Hlb Hinc]. fold (index r) in Hinc.
        destruct (IHh t Hinc) as [Hc Hcov]. split; [exact Hc|].
        intros t' v' [Heq | Hin]; [|now apply Hcov].
        injection Heq as <- <-. split.
        - intros H. exfalso. apply (chain_not_covered _ t t Hc); [lia|exact H].
        - intros [H _]. congruence. }
      split.
      * intros lb Hinc. destruct (Hhead lb Hinc) as [Hc Hcov].
        split; [|exact Hcov]. destruct Hinc as [Hlb _]. cbn in Hlb.
        apply (chain_weaken _ t lb); [lia|exact Hc].
      * intros s Hs Hinc. destruct (Hhead lastt Hinc) as [Hc Hcov].
        destruct Hinc as [Hlb Hinc]. fold (index r) in Hinc. cbn in Hlb.
        exists t, (runs None r t).
        split; [reflexivity|]. split; [lia|]. split; [intros _; exact Hlb|].
        split; [exact Hc|].
        intros t' v' Hin. rewrite covered_cons, <- (Hcov t' v' Hin).
        split; [|now right]. intros [H | H]; [|exact H].
        exfalso. destruct Hin as [Heq | Hin].
        -- injection Heq as <- <-. lia.
        -- pose proof (increasing_from_In _ t t' Hinc (In_index _ _ _ Hin)).
           lia.
    + (* a value under water *)
      split.
      * intros lb [Hlb Hinc]. fold (index r) in Hinc. cbn in Hlb.
        destruct (IHu t (Z.le_refl t) Hinc)
          as (e1 & rest & Hr & H1 & H2 & H3 & Hcov).
        split.
        -- rewrite Hr. simpl. repeat split; assumption.
        -- apply (cover_under_step t t v r e1 rest); auto with zarith.
      * intros s Hs [Hlb Hinc]. fold (index r) in Hinc. cbn in Hlb.
        assert (Hst : s <= t) by lia.
        destruct (IHu s Hst Hinc) as (e1 & rest & Hr & H1 & H2 & H3 & Hcov).
        exists e1, rest. split; [exact Hr|]. split; [lia|].
        split; [intros _; lia|]. split; [exact H3|].
        apply (cover_under_step s t v r e1 rest); auto.
Qed.

(** *** The table built by the loop *)

Lemma skipn_cons_nth {A : Type} (l : list A) :
  forall i a tl,
    skipn i l = a :: tl -> nth_error l i = Some a /\ skipn (S i) l = tl.
Proof.
  induction l as [|b l IH]; intros i a tl H.
  - destruct i; discriminate.
  - destruct i as [|i].
    + simpl in H. injection H as -> ->. split; reflexivity.
    + apply IH. exact H.
Qed.

Lemma loc_slice_nonempty (d : series) (s e : timestamp) :
  In s (index d) -> s <= e -> loc_slice d s e <> [].
Proof.
  intros Hin Hle. apply in_map_iff in Hin as ([s' v] & Hs & Hin).
  simpl in Hs. subst s'.
  assert (H : In (s, v) (loc_slice d s e)).
  { apply filter_In. split; [exact Hin|]. simpl.
    apply andb_true_intro. split; apply Z.leb_le; lia. }
  intros E. rewrite E in H. contradiction.
Qed.

Lemma rows_from_ok (d : series) (ends : list timestamp)
      (starts : list timestamp) :
  forall i,
    (List.length starts <= List.length (skipn i ends))%nat ->
    (forall s e, In (s, e) (combine starts (skipn i ends)) ->
                 In s (index d) /\ s <= e) ->
    exists eps,
      rows_from d ends i starts = Ok eps
      /\ map bounds eps = combine starts (skipn i ends).
Proof.
  induction starts as [|s rest IH]; intros i Hlen Hok.
  - exists []. split; reflexivity.
  - destruct (skipn i ends) as [|e tl] eqn:Esk; [simpl in Hlen; lia|].
    destruct (skipn_cons_nth ends i e tl Esk) as [Hnth Htl].
    destruct (Hok s e (or_introl eq_refl)) as [Hin Hle].
    destruct (IH (S i)) as (eps & Heps & Hb).
    + rewrite Htl. simpl in Hlen. lia.
    + rewrite Htl. intros s' e' H. apply Hok. now right.
    + cbn [rows_from]. rewrite Hnth.
      pose proof (loc_slice_nonempty d s e Hin Hle) as Hne.
      destruct (loc_slice d s e) as [|[t v] w] eqn:Ew; [congruence|].
      cbn [idxmin]. rewrite Heps. eexists. split; [reflexivity|].
      cbn [map combine]. rewrite Hb, Htl. reflexivity.
Qed.

Lemma chain_pairs (ws : list (timestamp * timestamp)) :
  forall lb, chain lb ws ->
    Forall (fun w => lb < fst w /\ fst w <= snd w) ws
    /\ ForallOrdPairs (fun a b => snd a < fst b) ws.
Proof.
  induction ws as [|[s e] r IH]; intros lb Hc.
  - split; constructor.
  - destruct Hc as (H1 & H2 & H3). destruct (IH e H3) as [Hf Hp].
    split.
    + constructor; [simpl; lia|].
      eapply Forall_impl; [|exact Hf]. simpl. intros w Hw. lia.
    + constructor; [|exact Hp].
      eapply Forall_impl; [|exact Hf]. simpl. intros w Hw. lia.
Qed.

Lemma ForallOrdPairs_map {A B : Type} (f : A -> B) (R : B -> B -> Prop)
      (l : list A) :
  ForallOrdPairs R (map f l) -> ForallOrdPairs (fun a b => R (f a) (f b)) l.
Proof.
  induction l as [|a l IH]; intros H; [constructor|].
  inversion H as [|? ? Hh Ht]; subst. constructor; [|now apply IH].
  rewrite Forall_forall in *. intros b Hb. apply Hh. now apply in_map.
Qed.

Lemma ForallOrdPairs_impl {A : Type} (R R' : A -> A -> Prop) (l : list A) :
  (forall a b, R a b -> R' a b) ->
  ForallOrdPairs R l -> ForallOrdPairs R' l.
Proof.
  intros HR H. induction H as [|a l Hh Ht IH]; constructor; [|exact IH].
  eapply Forall_impl; [|exact Hh]. intros b. apply HR.
Qed.

(** Where the series begins at a high or falls from a high at least once,
    the windows of the table are the maximal underwater runs. *)
Lemma details_are_runs (d : series) :
  increasing (index d) ->
  begins_at_high d \/ raw_starts d <> [] ->
  exists eps,
    drawdown_details d = Ok eps /\ map bounds eps = runs None d 0.
Proof.
  intros Hinc Hcase. unfold drawdown_details, _drawdown_details.
  destruct d as [|[t0 v0] r]; [exists []; split; reflexivity|].
  destruct (raw_starts ((t0, v0) :: r)) as [|s0 ss] eqn:Es.
  - exists []. split; [reflexivity|].
    destruct Hcase as [Hh | Hne]; [|congruence].
    simpl in Hh. apply Qeq_bool_iff in Hh. fold (isz v0) in Hh.
    destruct (raw_scan_first t0 v0 r) as [ES _]. rewrite Es, Hh in ES.
    cbn [runs]. fold (isz v0). rewrite Hh.
    destruct (runs_as_combine r t0) as [-> _]. rewrite <- ES. reflexivity.
  - cbn [is_nil]. rewrite <- Es.
    assert (Hne : raw_starts ((t0, v0) :: r) <> [])
      by (rewrite Es; discriminate).
    destruct (filled_windows t0 v0 r Hinc Hne) as (Hlen & Hcomb & Hidx).
    cbv zeta in Hlen, Hcomb, Hidx.
    destruct (runs_cover ((t0, v0) :: r) 0) as [Hcov _].
    destruct (Hcov (t0 - 1)) as [Hchain _].
    { split; [simpl; lia|exact Hinc]. }
    destruct (chain_pairs _ _ Hchain) as [Hf _].
    set (d := (t0, v0) :: r) in *.
    set (starts := fill_starts d (raw_starts d) (raw_ends d)) in *.
    set (ends := fill_ends d starts (raw_ends d)) in *.
    destruct (rows_from_ok d ends starts 0%nat) as (eps & Heps & Hb).
    + exact Hlen.
    + cbn [skipn]. intros s e Hin. split.
      * apply in_combine_l in Hin.
        rewrite Forall_forall in Hidx. now apply Hidx.
      * rewrite Hcomb in Hin. rewrite Forall_forall in Hf.
        apply (Hf (s, e) Hin).
    + exists eps. split; [exact Heps|]. cbn [skipn] in Hb. now rewrite Hb.
Qed.

(** *** Coverage by the windows of the table *)

Lemma in_window_covered (eps : list episode) (t : timestamp) :
  (exists e, In e eps /\ in_window e t) <-> covered (map bounds eps) t.
Proof.
  split.
  - intros (e & Hin & Hw). exists (ep_start e), (ep_end e).
    split; [|exact Hw]. apply (in_map bounds) in Hin. exact Hin.
  - intros (s & e' & Hin & Hw). apply in_map_iff in Hin as (e & Hb & Hin).
    injection Hb as <- <-. exists e. split; [exact Hin|exact Hw].
Qed.

Lemma isz_false_iff (v : Q) : isz v = false <-> ~ (v == 0)%Q.
Proof.
  unfold isz. split.
  - intros E H. apply Qeq_bool_iff in H. congruence.
  - intros H. destruct (Qeq_bool v 0) eqn:E; [|reflexivity].
    apply Qeq_bool_iff in E. contradiction.
Qed.

(** Every underwater label lies in a run closed at its end. *)
Lemma runs_cover_closed (d : series) :
  forall lastt,
    (forall lb, increasing_from lb (index d) ->
       forall t v, In (t, v) d -> isz v = false ->
         exists s e, In (s, e) (runs None d lastt) /\ s <= t <= e)
    /\ (forall s0 : timestamp,
          s0 <= lastt -> increasing_from lastt (index d) ->
          forall t v, In (t, v) d -> isz v = false ->
            exists s e, In (s, e) (runs (Some s0) d lastt) /\ s <= t <= e).
Proof.
  induction d as [|[t v] r IH]; intros lastt.
  - split; intros; contradiction.
  - destruct (IH t) as [IHh IHu]. cbn [runs]. fold (isz v).
    assert (Hunder : forall s0 : timestamp,
              s0 <= t -> increasing_from t (index r) ->
              forall t' v', In (t', v') ((t, v) :: r) -> isz v' = false ->
                exists s e, In (s, e) (runs (Some s0) r t) /\ s <= t' <= e).
    { intros s0 Hs0 Hinc t' v' [Heq | Hin] Hv; [|now apply (IHu s0 Hs0 Hinc t' v')].
      injection Heq as <- <-.
      destruct (runs_cover r t) as [_ Hu].
      destruct (Hu s0 Hs0 Hinc) as (e1 & rest & Hr & H1 & _).
      exists s0, e1. rewrite Hr. split; [now left|lia]. }
    destruct (isz v) eqn:E.
    + split.
      * intros lb [Hlb Hinc] t' v' [Heq | Hin] Hv.
        -- injection Heq as <- <-. congruence.
        -- now apply (IHh t Hinc t' v').
      * intros s0 Hs0 [Hlb Hinc] t' v' [Heq | Hin] Hv.
        -- injection Heq as <- <-. congruence.
        -- destruct (IHh t Hinc t' v' Hin Hv) as (s & e & Hin' & H).
           exists s, e. split; [now right|exact H].
    + split.
      * intros lb [Hlb Hinc]. apply Hunder; [lia|exact Hinc].
      * intros s0 Hs0 [Hlb Hinc]. cbn in Hlb.
        apply Hunder; [lia|exact Hinc].
Qed.

(** C2, amended.  Take a drawdown series with an increasing index that
    begins at a high or falls from a high at least once.  The windows of
    [drawdown_details], taken as [start, end), cover exactly the underwater
    labels other than the last label of the series; closed at their end they
    cover every underwater label; no label lies in two windows; and the
    episodes are listed by increasing start. *)
Theorem episodes_cover_underwater (d : series) :
  increasing (index d) ->
  begins_at_high d \/ raw_starts d <> [] ->
  exists eps,
    drawdown_details d = Ok eps
    /\ (forall t v, In (t, v) d ->
          ((exists e, In e eps /\ in_window e t)
           <-> ~ (v == 0)%Q /\ t <> last (index d) 0))
    /\ (forall t v, In (t, v) d -> ~ (v == 0)%Q ->
          exists e, In e eps /\ ep_start e <= t <= ep_end e)
    /\ non_overlapping eps
    /\ ordered_by_start eps.
Proof.
  intros Hinc Hcase.
  destruct (details_are_runs d Hinc Hcase) as (eps & Heps & Hb).
  exists eps. split; [exact Heps|].
  assert (Hfrom : exists lb, increasing_from lb (index d)).
  { destruct d as [|[t0 v0] r]; [exists 0; exact I|].
    exists (t0 - 1). split; [simpl; lia|exact Hinc]. }
  destruct Hfrom as [lb Hfrom].
  destruct (runs_cover d 0) as [Hcov _].
  destruct (Hcov lb Hfrom) as [Hchain Hc].
  destruct (runs_cover_closed d 0) as [Hclosed _].
  destruct (chain_pairs _ _ Hchain) as [Hf Hp].
  rewrite <- Hb in Hc, Hf, Hp.
  split; [|split; [|split]].
  - intros t v Hin. rewrite in_window_covered, <- isz_false_iff.
    now apply Hc.
  - intros t v Hin Hv. apply isz_false_iff in Hv.
    destruct (Hclosed lb Hfrom t v Hin Hv) as (s & e' & Hin' & H).
    rewrite <- Hb in Hin'. apply in_map_iff in Hin' as (e & Hbe & Hine).
    injection Hbe as <- <-. now exists e.
  - apply ForallOrdPairs_map in Hp.
    eapply ForallOrdPairs_impl; [|exact Hp]. simpl.
    intros a b Hab t [[_ Ha] [Hb' _]].
    apply Forall_map in Hf. rewrite Forall_forall in Hf.
    lia.
  - apply ForallOrdPairs_map in Hp. apply Forall_map in Hf.
    assert (Hf' : Forall (fun e => ep_start e <= ep_end e) eps).
    { eapply Forall_impl; [|exact Hf]. simpl. intros a Ha. lia. }
    clear - Hp Hf'. induction Hp as [|a l Hh Ht IH]; [constructor|].
    inversion Hf' as [|? ? Ha Hl]; subst.
    constructor; [|now apply IH].
    eapply Forall_impl; [|exact Hh]. simpl. intros b Hab. lia.
Qed.

Lemma episodes_cover_underwater_witness :
  let d : series :=
    [(0, 0%Q); (86400000000000, (- (1 # 10))%Q); (172800000000000, 0%Q);
     (259200000000000, (- (2 # 10))%Q)] in
  increasing (index d)
  /\ (begins_at_high d \/ raw_starts d <> [])
  /\ exists eps,
      drawdown_details d = Ok eps
      /\ (forall t v, In (t, v) d ->
            ((exists e, In e eps /\ in_window e t)
             <-> ~ (v == 0)%Q /\ t <> last (index d) 0))
      /\ (forall t v, In (t, v) d -> ~ (v == 0)%Q ->
            exists e, In e eps /\ ep_start e <= t <= ep_end e)
      /\ non_overlapping eps
      /\ ordered_by_start eps.
Proof.
  intros d.
  assert (Hinc : increasing (index d)) by (simpl; lia).
  assert (Hcase : begins_at_high d \/ raw_starts d <> [])
    by (left; reflexivity).
  split; [exact Hinc|]. split; [exact Hcase|].
  exact (episodes_cover_underwater d Hinc Hcase).
Defined.

(** C2 as stated fails: a series that ends under water has its last label
    under water and outside every window [start, end), since the end of the
    last episode is that label itself. *)
Lemma episodes_miss_last_label :
  let d : series :=
    [(0, 0%Q); (86400000000000, (- (1 # 10))%Q);
     (172800000000000, (- (2 # 10))%Q)] in
  increasing (index d)
  /\ exists eps, drawdown_details d = Ok eps /\ ~ covers_underwater d eps.
Proof.
  intros d. split; [simpl; lia|].
  eexists. split; [vm_compute; reflexivity|].
  intros H.
  destruct (H 172800000000000 (- (2 # 10))%Q) as [_ Hc].
  { right. right. left. reflexivity. }
  destruct Hc as (e & [<- | []] & Hw); [discriminate|].
  unfold in_window in Hw. simpl in Hw. lia.
Qed.

(** *** A series under water throughout *)

Lemma starts_in_under (d : series) :
  Forall (fun p => ~ (snd p == 0)%Q) d -> starts_in false d = [].
Proof.
  induction 1 as [|[t v] r Hv _ IH]; [reflexivity|].
  simpl in Hv. apply isz_false_iff in Hv.
  destruct (scan_under_under t v r Hv) as (-> & _). exact IH.
Qed.

(** No episode is reported for a series with no value at zero: the code
    finds no fall from a high and returns before the boundary cases. *)
Lemma underwater_throughout_no_episode (d : series) :
  Forall (fun p => ~ (snd p == 0)%Q) d -> drawdown_details d = Ok [].
Proof.
  intros H. unfold drawdown_details, _drawdown_details.
  destruct d as [|[t0 v0] r]; [reflexivity|].
  inversion H as [|? ? Hv Hr]; subst. simpl in Hv.
  apply isz_false_iff in Hv.
  destruct (raw_scan_first t0 v0 r) as [-> _].
  rewrite Hv, (starts_in_under r Hr). reflexivity.
Qed.

(** C1, at a series under water at both of its labels: the table is empty,
    where the claim has one episode from the first label to the last, the
    one underwater run of the series. *)
Theorem underwater_series_reports_nothing :
  let d : series :=
    [(0, (- (1 # 10))%Q); (86400000000000, (- (2 # 10))%Q)] in
  drawdown_details d = Ok []
  /\ runs None d 0 = [(0, 86400000000000)].
Proof. split; reflexivity. Qed.

(** The same for a series that begins under water and recovers for good:
    the first run is lost. *)
Example initial_run_lost :
  let d : series :=
    [(0, (- (1 # 10))%Q); (86400000000000, 0%Q); (172800000000000, 0%Q)] in
  drawdown_details d = Ok []
  /\ runs None d 0 = [(0, 86400000000000)].
Proof. split; reflexivity. Qed.

(** *** The trimmed minimum of a window *)

Local Open Scope Q_scope.

Lemma Qopp_opp_eq (v : Q) : - - v = v.
Proof. destruct v as [n d]. unfold Qopp. simpl. now rewrite Z.opp_involutive. Qed.

Lemma values_neg (s : series) : values (neg s) = map Qopp (values s).
Proof. unfold values, neg. rewrite !map_map. reflexivity. Qed.

Lemma values_filter (P : Q -> bool) (s : series) :
  values (filter (fun p => P (snd p)) s) = filter P (values s).
Proof.
  induction s as [|[t v] r IH]; [reflexivity|].
  simpl. destruct (P v); simpl; now rewrite IH.
Qed.

Lemma filter_map_opp (P : Q -> bool) (l : list Q) :
  filter P (map Qopp l) = map Qopp (filter (fun v => P (- v)) l).
Proof.
  induction l as [|v l IH]; [reflexivity|].
  simpl. destruct (P (- v)); simpl; now rewrite IH.
Qed.

Lemma map_opp_opp (l : list Q) : map Qopp (map Qopp l) = l.
Proof.
  rewrite map_map. rewrite <- (map_id l) at 2.
  apply map_ext. exact Qopp_opp_eq.
Qed.

(** The two negations of the code cancel: what is left of the window is
    [kept_99]. *)
Lemma clean_min_100_kept (dd : series) :
  clean_min_100 dd = times100 (emin (map Fin (kept_99 dd))).
Proof.
  unfold clean_min_100, smin, remove_outliers, kept_99.
  rewrite values_neg.
  rewrite (values_filter
             (fun x => lt_ext x (quantile (values (neg dd)) (99 # 100)))).
  rewrite values_neg, filter_map_opp, map_opp_opp. reflexivity.
Qed.

Lemma emin_fin_spec (l : list Q) :
  l <> [] ->
  exists m, emin (map Fin l) = Fin m /\ In m l /\ forall x, In x l -> m <= x.
Proof.
  induction l as [|a l IH]; intros Hne; [congruence|].
  destruct l as [|b l'].
  - exists a. simpl. split; [reflexivity|]. split; [now left|].
    intros x [<- | []]. apply Qle_refl.
  - destruct IH as (m & Hm & Hin & Hle); [discriminate|].
    cbn [map emin] in *. rewrite Hm. cbn [emin2].
    destruct (Qle_bool a m) eqn:E.
    + apply Qle_bool_iff in E. exists a. split; [reflexivity|].
      split; [now left|]. intros x [<- | Hx]; [apply Qle_refl|].
      specialize (Hle x Hx). lra.
    + exists m. split; [reflexivity|]. split; [now right|].
      intros x [<- | Hx]; [|now apply Hle].
      destruct (Qlt_le_dec m a) as [H | H]; [lra|].
      apply Qle_bool_iff in H. congruence.
Qed.

(** C3, amended.  The entry '99% max drawdown' of a window is 100 times the
    minimum of the values of the window whose negation is strictly below the
    0.99 quantile, by linear interpolation, of the negated window; it is not
    a number when no value is kept. *)
Theorem clean_min_100_keeps_below_quantile (dd : series) :
  clean_min_100 dd = times100 (emin (map Fin (kept_99 dd)))
  /\ (clean_min_100 dd = NaN <-> kept_99 dd = []).
Proof.
  split; [apply clean_min_100_kept|].
  rewrite clean_min_100_kept. destruct (kept_99 dd) as [|a l] eqn:E.
  - split; reflexivity.
  - destruct (emin_fin_spec (a :: l)) as (m & -> & _); [discriminate|].
    split; discriminate.
Qed.

(** **** The deepest value never survives the trimming *)

Lemma emin_nil_or_fin (l : list Q) (m : Q) :
  emin (map Fin l) = Fin m -> In m l /\ forall x, In x l -> m <= x.
Proof.
  intros H. destruct l as [|a l]; [discriminate|].
  destruct (emin_fin_spec (a :: l)) as (m' & Hm & Hin & Hle); [discriminate|].
  rewrite Hm in H. injection H as <-. split; assumption.
Qed.

Lemma insert_sorted_In (x y : Q) (l : list Q) :
  In y (insert_sorted x l) -> y = x \/ In y l.
Proof.
  induction l as [|a l IH]; simpl.
  - intros [<- | []]. now left.
  - destruct (Qle_bool x a); simpl.
    + intros [<- | H]; [now left|now right].
    + intros [<- | H]; [right; now left|].
      destruct (IH H) as [-> | H']; [now left|right; now right].
Qed.

Lemma sort_values_In (y : Q) (l : list Q) : In y (sort_values l) -> In y l.
Proof.
  induction l as [|a l IH]; simpl; [auto|].
  intros H. apply insert_sorted_In in H as [-> | H]; [now left|].
  right. now apply IH.
Qed.

(** A quantile lies at or below some value of the series. *)
Lemma quantile_below_some (l : list Q) (q x : Q) :
  quantile l q = Fin x -> exists u, In u l /\ x <= u.
Proof.
  unfold quantile. destruct (sort_values l) as [|x0 tl] eqn:Es; [discriminate|].
  cbv beta iota zeta.
  set (sorted := x0 :: tl).
  set (h := inject_Z (Z.of_nat (List.length l) - 1) * q).
  set (a := nth (Z.to_nat (Qfloor h)) sorted x0).
  set (b := nth (S (Z.to_nat (Qfloor h))) sorted a).
  intros H.
  assert (Hx : x = a + (b - a) * (h - inject_Z (Qfloor h)))
    by (injection H as <-; reflexivity).
  clear H. rewrite Hx. clear Hx.
  assert (Hin : forall y, In y sorted -> In y l).
  { intros y Hy. apply sort_values_In. rewrite Es. exact Hy. }
  assert (Ha : In a l).
  { apply Hin. unfold a.
    destruct (nth_in_or_default (Z.to_nat (Qfloor h)) sorted x0) as [H | ->];
      [exact H|now left]. }
  assert (Hb : In b l).
  { unfold b.
    destruct (nth_in_or_default (S (Z.to_nat (Qfloor h))) sorted a)
      as [H | ->]; [now apply Hin|exact Ha]. }
  pose proof (Qfloor_le h) as F1.
  pose proof (Qlt_floor h) as F2.
  rewrite inject_Z_plus in F2.
  set (f := h - inject_Z (Qfloor h)) in *.
  assert (Hf0 : 0 <= f) by (unfold f; lra).
  assert (Hf1 : f <= 1) by (unfold f; change (inject_Z 1) with 1 in F2; lra).
  destruct (Qlt_le_dec a b) as [Hab | Hab].
  - exists b. split; [exact Hb|].
    assert (E : b - (a + (b - a) * f) == (b - a) * (1 - f)) by ring.
    assert (H : 0 <= (b - a) * (1 - f)) by (apply Qmult_le_0_compat; lra).
    rewrite <- E in H. apply Qle_minus_iff. exact H.
  - exists a. split; [exact Ha|].
    assert (E : a - (a + (b - a) * f) == (a - b) * f) by ring.
    assert (H : 0 <= (a - b) * f) by (apply Qmult_le_0_compat; lra).
    rewrite <- E in H. apply Qle_minus_iff. exact H.
Qed.

(** Whenever the trimmed entry is a number, it is strictly above the entry
    'max drawdown' of the same window. *)
Lemma clean_min_above_max_drawdown (dd : series) (m : Q) :
  clean_min_100 dd = Fin m ->
  exists M, times100 (smin dd) = Fin M /\ M < m.
Proof.
  rewrite clean_min_100_kept.
  destruct (emin (map Fin (kept_99 dd))) as [m'| | |] eqn:Em; try discriminate.
  intros H. injection H as <-.
  destruct (emin_nil_or_fin _ _ Em) as [Hin _].
  unfold kept_99 in Hin. apply filter_In in Hin as [Hin Hlt].
  destruct (quantile (map Qopp (values dd)) (99 # 100)) as [x| | |] eqn:Eq;
    try discriminate.
  - destruct (quantile_below_some _ _ _ Eq) as (u & Hu & Hxu).
    apply in_map_iff in Hu as (w & <- & Hw).
    unfold lt_ext, Qltb in Hlt. apply Bool.negb_true_iff in Hlt.
    assert (Hm : - m' < x).
    { destruct (Qlt_le_dec (- m') x) as [H | H]; [exact H|].
      apply Qle_bool_iff in H. congruence. }
    destruct (emin_fin_spec (values dd)) as (M & HM & _ & Hle).
    { intros E. rewrite E in Hw. contradiction. }
    exists (M * 100). unfold smin. rewrite HM. split; [reflexivity|].
    specialize (Hle w Hw). lra.
  - unfold quantile in Eq.
    destruct (sort_values (map Qopp (values dd))); discriminate.
Qed.

(** C3 as stated fails: in the window of the one episode of this series no
    value lies outside the fences, so the fenced minimum is the maximum
    drawdown, -30; the code drops the deepest value and reports -20. *)
Lemma trimmed_is_not_fenced :
  let d : series :=
    [(0%Z, 0); (86400000000000%Z, - (1 # 10)); (172800000000000%Z, - (2 # 10));
     (259200000000000%Z, - (3 # 10)); (345600000000000%Z, 0)] in
  exists e,
    drawdown_details d = Ok [e]
    /\ ext_eq (ep_max_drawdown_99 e) (Fin (- (20)))
    /\ ext_eq (iqr_clean_min_100 (loc_slice d (ep_start e) (ep_end e)))
              (Fin (- (30)))
    /\ ~ ext_eq (ep_max_drawdown_99 e)
         (iqr_clean_min_100 (loc_slice d (ep_start e) (ep_end e))).
Proof.
  intros d. eexists. split; [vm_compute; reflexivity|].
  split; [vm_compute; reflexivity|]. split; [vm_compute; reflexivity|].
  intros H. vm_compute in H. discriminate.
Qed.

End DetailsFacts.

Module RatioFacts.
Import Ratio.
Local Open Scope R_scope.

Section Kernels.

Variable prep : list R -> R -> option R -> list R.
Variable ndtri : R -> R.

(** *** The guard of [sharpe] and [sortino] *)

Lemma guard_true_iff (rf : R) (periods : option R) :
  Rneqb rf 0 && is_none periods = true <-> rf <> 0 /\ periods = None.
Proof.
  unfold Rneqb. destruct (Req_dec_T rf 0) as [E | E], periods as [p|];
    simpl; split; try discriminate; try tauto;
    intros [H1 H2]; try discriminate; contradiction.
Qed.

(** C8. [sharpe] and [sortino] raise the exception about the missing
    periods exactly when the risk-free rate is not zero and [periods] is
    None; otherwise they return a value. *)
Theorem sharpe_sortino_raise_iff (returns : list R) (rf : R)
        (periods : option R) (annualize smart : bool) :
  (sharpe prep returns rf periods annualize smart
   = Raise (Exception periods_message)
   <-> rf <> 0 /\ periods = None)
  /\ (sortino prep returns rf periods annualize smart
      = Raise (Exception periods_message)
      <-> rf <> 0 /\ periods = None)
  /\ ((rf <> 0 /\ periods = None)
      \/ ((exists x, sharpe prep returns rf periods annualize smart = Ok x)
          /\ (exists x,
                sortino prep returns rf periods annualize smart = Ok x))).
Proof.
  pose proof (guard_true_iff rf periods) as G.
  unfold sharpe, sortino.
  destruct (Rneqb rf 0 && is_none periods) eqn:E.
  - assert (H : rf <> 0 /\ periods = None) by (now apply G).
    split; [tauto|]. split; [tauto|]. now left.
  - assert (H : ~ (rf <> 0 /\ periods = None)).
    { intros H. apply G in H. discriminate. }
    split; [|split].
    + destruct annualize; split; try discriminate; tauto.
    + destruct annualize; split; try discriminate; tauto.
    + right. destruct annualize; split; eexists; reflexivity.
Qed.

(** *** Value at risk *)

Ltac decide_R :=
  repeat match goal with
         | |- context [Rlt_dec ?a ?b] => destruct (Rlt_dec a b); try lra
         | |- context [Rle_dec ?a ?b] => destruct (Rle_dec a b); try lra
         | |- context [Req_dec_T ?a ?b] => destruct (Req_dec_T a b); try lra
         end.

Lemma norm_ppf_below_zero (q : R) (loc scale : ext R) :
  q < 0 -> norm_ppf ndtri q loc scale = NaN.
Proof.
  intros Hq. unfold norm_ppf. destruct loc, scale; try reflexivity.
  decide_R; reflexivity.
Qed.

Lemma norm_ppf_inside (q m s : R) :
  0 < s -> 0 < q < 1 ->
  norm_ppf ndtri q (Fin m) (Fin s) = Fin (m + s * ndtri q).
Proof. intros Hs Hq. unfold norm_ppf. decide_R; reflexivity. Qed.

(** C9, amended.  A confidence level above 1 and at most 100 gives the value
    at risk of the level divided by 100. *)
Theorem value_at_risk_percent (returns : list R) (sigma c : R) (p : bool) :
  1 < c <= 100 ->
  value_at_risk prep ndtri returns sigma c p
  = value_at_risk prep ndtri returns sigma (c / 100) p.
Proof.
  intros Hc. unfold value_at_risk.
  destruct (Rlt_dec 1 c) as [_ | H]; [|lra].
  destruct (Rlt_dec 1 (c / 100)) as [H | _]; [lra|]. reflexivity.
Qed.

(** Above 100 the level is divided once and stays above 1: the quantile is
    asked at a negative level and the value at risk is not a number. *)
Lemma value_at_risk_above_100 (returns : list R) (sigma c : R) (p : bool) :
  100 < c -> value_at_risk prep ndtri returns sigma c p = NaN.
Proof.
  intros Hc. unfold value_at_risk.
  destruct (Rlt_dec 1 c) as [_ | H]; [|lra].
  apply norm_ppf_below_zero. lra.
Qed.

Lemma std_two (a b : R) : a <> b -> exists s, std [a; b] = Fin s /\ 0 < s.
Proof.
  intros Hab. eexists. split; [reflexivity|].
  apply sqrt_lt_R0. unfold sum_dev, Rsum, len. simpl.
  assert (E : (0 + (a - (0 + a + b) / (1 + 1)) * (a - (0 + a + b) / (1 + 1))
               + (b - (0 + a + b) / (1 + 1)) * (b - (0 + a + b) / (1 + 1)))
              / (1 + 1 - 1) = (a - b) * (a - b) / 2) by field.
  rewrite E. assert (0 < (a - b) * (a - b)); [|lra].
  destruct (Rtotal_order a b) as [H | [H | H]]; [|contradiction|]; nra.
Qed.

(** *** Conditional value at risk *)

Lemma lt_ext_iff (r : R) (v : ext R) : lt_ext r v = true <-> below v r.
Proof.
  destruct v as [b| | |]; simpl; try tauto; try (split; [discriminate|tauto]).
  destruct (Rlt_dec r b); split; auto; discriminate.
Qed.

Lemma filter_nil_iff {A : Type} (f : A -> bool) (l : list A) :
  filter f l = [] <-> forall x, In x l -> f x = false.
Proof.
  induction l as [|a l IH]; simpl.
  - split; [intros _ x []|reflexivity].
  - destruct (f a) eqn:E; split.
    + discriminate.
    + intros H. specialize (H a (or_introl eq_refl)). congruence.
    + intros H x [<- | Hx]; [exact E|]. now apply IH.
    + intros H. apply IH. intros x Hx. apply H. now right.
Qed.

(** C4. With [rs] the returns as prepared and [v] their value at risk, the
    conditional value at risk is the mean of the returns strictly below [v]
    when there is one, and [v] itself when there is none. *)
Theorem cvar_mean_below_or_var (returns : list R) (sigma confidence : R)
        (p : bool) :
  let rs := if p then prep returns 0 None else returns in
  let v := value_at_risk prep ndtri rs sigma confidence true in
  let tail := filter (fun r => lt_ext r v) rs in
  ((exists r, In r rs /\ below v r) ->
   conditional_value_at_risk prep ndtri returns sigma confidence p
   = Fin (Rsum tail / len tail))
  /\ ((forall r, In r rs -> ~ below v r) ->
      conditional_value_at_risk prep ndtri returns sigma confidence p = v).
Proof.
  intros rs v tail. unfold conditional_value_at_risk.
  fold rs. fold v. fold tail. split.
  - intros (r & Hin & Hr).
    assert (Ht : In r tail).
    { apply filter_In. split; [exact Hin|]. now apply lt_ext_iff. }
    destruct tail as [|a t]; [contradiction|]. reflexivity.
  - intros Hnone.
    assert (Ht : tail = []).
    { apply filter_nil_iff. intros r Hr.
      destruct (lt_ext r v) eqn:E; [|reflexivity].
      apply lt_ext_iff in E. exfalso. exact (Hnone r Hr E). }
    rewrite Ht. reflexivity.
Qed.

End Kernels.

(** *** Sums *)

Lemma fold_left_Rplus_acc (l : list R) (a : R) :
  fold_left Rplus l a = a + fold_left Rplus l 0.
Proof.
  revert a; induction l as [|x l IH]; intros a; simpl.
  - lra.
  - rewrite (IH (a + x)), (IH (0 + x)). lra.
Qed.

Lemma Rsum_cons (x : R) (l : list R) : Rsum (x :: l) = x + Rsum l.
Proof. unfold Rsum. simpl. rewrite fold_left_Rplus_acc. lra. Qed.

Lemma esum_fin (g : nat -> R) (l : list nat) (a : R) :
  fold_left eadd (map (fun k => Fin (g k)) l) (Fin a)
  = Fin (fold_left Rplus (map g l) a).
Proof.
  revert a; induction l as [|k l IH]; intros a; [reflexivity|].
  simpl. apply IH.
Qed.

Lemma fold_seq_sum_to (g : nat -> R) (m : nat) :
  fold_left Rplus (map g (seq 1 m)) 0 = sum_to g m.
Proof.
  induction m as [|m IH]; [reflexivity|].
  rewrite seq_S, map_app, fold_left_app, IH. reflexivity.
Qed.

Lemma sum_to_nonneg (g : nat -> R) (m : nat) :
  (forall k, (1 <= k <= m)%nat -> 0 <= g k) -> 0 <= sum_to g m.
Proof.
  induction m as [|m IH]; intros H; simpl; [lra|].
  assert (0 <= sum_to g m) by (apply IH; intros k Hk; apply H; lia).
  assert (0 <= g (S m)) by (apply H; lia). lra.
Qed.

(** *** The correlation coefficient *)

Lemma cauchy_schwarz_step (a b A B S : R) :
  0 <= A -> 0 <= B -> S * S <= A * B ->
  (a * b + S) * (a * b + S) <= (a * a + A) * (b * b + B).
Proof.
  intros HA HB HS.
  assert (Hmix : 2 * (a * b * S) <= a * a * B + b * b * A).
  { destruct (Req_dec_T A 0) as [E | E].
    - subst A. assert (E0 : S = 0) by nra. subst S. nra.
    - assert (HApos : 0 < A) by lra.
      pose proof (Rle_0_sqr (A * b - S * a)) as H1. unfold Rsqr in H1.
      apply (Rmult_le_reg_l A); [exact HApos|]. nra. }
  nra.
Qed.

Lemma cauchy_schwarz (ps : list (R * R)) :
  0 <= pair_sum (fun p => fst p * fst p) ps
  /\ 0 <= pair_sum (fun p => snd p * snd p) ps
  /\ pair_sum (fun p => fst p * snd p) ps
     * pair_sum (fun p => fst p * snd p) ps
     <= pair_sum (fun p => fst p * fst p) ps
        * pair_sum (fun p => snd p * snd p) ps.
Proof.
  unfold pair_sum. induction ps as [|[a b] ps (HA & HB & HS)].
  - unfold Rsum. simpl. lra.
  - cbn [map fst snd]. rewrite !Rsum_cons.
    split; [pose proof (Rle_0_sqr a) as H; unfold Rsqr in H; lra|].
    split; [pose proof (Rle_0_sqr b) as H; unfold Rsqr in H; lra|].
    now apply cauchy_schwarz_step.
Qed.

Lemma map_fst_combine (g : R -> R) (x y : list R) :
  List.length x = List.length y ->
  map (fun p => g (fst p)) (combine x y) = map g x.
Proof.
  revert y; induction x as [|a x IH]; intros [|b y] H; try discriminate;
    [reflexivity|].
  simpl. f_equal. apply IH. now injection H.
Qed.

Lemma map_snd_combine (g : R -> R) (x y : list R) :
  List.length x = List.length y ->
  map (fun p => g (snd p)) (combine x y) = map g y.
Proof.
  revert y; induction x as [|a x IH]; intros [|b y] H; try discriminate;
    [reflexivity|].
  simpl. f_equal. apply IH. now injection H.
Qed.

Lemma map_dev_self (c : R) (x : list R) :
  map (fun p => (fst p - c) * (fst p - c)) (combine x x)
  = map (fun p => (fst p - c) * (snd p - c)) (combine x x).
Proof. induction x as [|a x IH]; [reflexivity|]. simpl. now rewrite IH. Qed.

Lemma sum_dev_bound (x y : list R) :
  List.length x = List.length y ->
  0 <= sum_dev x x /\ 0 <= sum_dev y y
  /\ sum_dev x y * sum_dev x y <= sum_dev x x * sum_dev y y.
Proof.
  intros Hlen. unfold sum_dev.
  set (mx := Rsum x / len x). set (my := Rsum y / len y).
  pose proof (cauchy_schwarz
                (map (fun p => (fst p - mx, snd p - my)) (combine x y)))
    as (HA & HB & HS).
  unfold pair_sum in HA, HB, HS.
  repeat rewrite map_map in HA. repeat rewrite map_map in HB.
  repeat rewrite map_map in HS. cbn [fst snd] in HA, HB, HS.
  rewrite (map_fst_combine (fun a => (a - mx) * (a - mx)) x y Hlen)
    in HA, HS.
  rewrite (map_snd_combine (fun b => (b - my) * (b - my)) x y Hlen)
    in HB, HS.
  rewrite <- (map_fst_combine (fun a => (a - mx) * (a - mx)) x x eq_refl)
    in HA, HS.
  rewrite <- (map_fst_combine (fun b => (b - my) * (b - my)) y y eq_refl)
    in HB, HS.
  rewrite (map_dev_self mx x) in HA, HS.
  rewrite (map_dev_self my y) in HB, HS.
  repeat split; assumption.
Qed.

Lemma len_two_more (a b : R) (x : list R) : 1 < len (a :: b :: x).
Proof.
  unfold len. change (List.length (a :: b :: x)) with (S (S (List.length x))).
  rewrite !S_INR. pose proof (pos_INR (List.length x)). lra.
Qed.

(** For two samples of one length, at least two values each and neither
    constant, [corrcoef] is the signed coefficient: the degrees of freedom
    cancel and the clipping changes nothing. *)
Lemma corrcoef_pearson (x y : list R) :
  (2 <= List.length x)%nat -> List.length x = List.length y ->
  sum_dev x x <> 0 -> sum_dev y y <> 0 ->
  corrcoef x y = Fin (pearson x y) /\ -1 <= pearson x y <= 1.
Proof.
  intros Hn Hlen HAne HBne.
  destruct (sum_dev_bound x y Hlen) as (HA & HB & HS).
  destruct x as [|a [|b x']]; try (simpl in Hn; lia).
  pose proof (len_two_more a b x') as Hf.
  unfold corrcoef, pearson.
  set (x := a :: b :: x') in *.
  set (A := sum_dev x x) in *. set (B := sum_dev y y) in *.
  set (S := sum_dev x y) in *. set (f := len x - 1).
  assert (Hfpos : 0 < f) by (unfold f; lra).
  assert (HApos : 0 < A / f) by (apply Rdiv_lt_0_compat; lra).
  assert (HBpos : 0 < B / f) by (apply Rdiv_lt_0_compat; lra).
  assert (HABpos : 0 < A * B) by (apply Rmult_lt_0_compat; lra).
  pose proof (sqrt_lt_R0 _ HApos) as Hsa.
  pose proof (sqrt_lt_R0 _ HBpos) as Hsb.
  pose proof (sqrt_lt_R0 _ HABpos) as Hsab.
  pose proof (sqrt_sqrt (A / f) (Rlt_le _ _ HApos)) as Esa.
  pose proof (sqrt_sqrt (B / f) (Rlt_le _ _ HBpos)) as Esb.
  pose proof (sqrt_sqrt (A * B) (Rlt_le _ _ HABpos)) as Esab.
  set (sa := sqrt (A / f)) in *. set (sb := sqrt (B / f)) in *.
  set (sab := sqrt (A * B)) in *.
  assert (Eprod : sa * sb * f = sab).
  { apply Rsqr_inj;
      [apply Rmult_le_pos; [apply Rmult_le_pos|]; lra|lra|]. unfold Rsqr.
    replace (sa * sb * f * (sa * sb * f))
      with ((sa * sa) * (sb * sb) * (f * f)) by ring.
    rewrite Esa, Esb, Esab. field. lra. }
  assert (Eval : S / f / sa / sb = S / sab).
  { rewrite <- Eprod. field. repeat split; lra. }
  assert (Hbound : -1 <= S / sab <= 1).
  { assert (H1 : - sab <= S <= sab) by nra.
    split.
    - apply (Rmult_le_reg_r sab); [exact Hsab|].
      replace (S / sab * sab) with S by (field; lra). lra.
    - apply (Rmult_le_reg_r sab); [exact Hsab|].
      replace (S / sab * sab) with S by (field; lra). lra. }
  split; [|exact Hbound].
  cbn [esqrt].
  destruct (Rlt_dec (A / f) 0) as [H | _]; [lra|].
  destruct (Rlt_dec (B / f) 0) as [H | _]; [lra|].
  fold sa sb. cbn [ediv].
  destruct (Req_dec_T sa 0) as [H | _]; [lra|]. cbn [ediv].
  destruct (Req_dec_T sb 0) as [H | _]; [lra|].
  rewrite Eval. unfold clip1.
  destruct (Rlt_dec (S / sab) (-1)) as [H | _]; [lra|].
  destruct (Rlt_dec 1 (S / sab)) as [H | _]; [lra|]. reflexivity.
Qed.

(** *** The autocorrelation penalty *)

Lemma removelast_length {A : Type} (l : list A) :
  List.length (removelast l) = (List.length l - 1)%nat.
Proof.
  induction l as [|a l IH]; [reflexivity|].
  destruct l as [|b l']; [reflexivity|].
  change (removelast (a :: b :: l')) with (a :: removelast (b :: l')).
  cbn [List.length] in *. lia.
Qed.

Lemma penalty_weight_nonneg (n k : nat) (r : R) :
  (1 <= k <= n - 1)%nat -> 0 <= (INR n - INR k) / INR n * Rabs r ^ k.
Proof.
  intros Hk. apply Rmult_le_pos.
  - assert (Hkn : INR k <= INR n) by (apply le_INR; lia).
    assert (Hn : 0 < INR n) by (apply lt_0_INR; lia).
    apply Rmult_le_pos; [lra|]. left. now apply Rinv_0_lt_compat.
  - apply pow_le, Rabs_pos.
Qed.

(** Where the coefficient is defined, the penalty is the formula of the
    spec at the absolute value of the lag-1 autocorrelation coefficient. *)
Lemma autocorr_penalty_formula (prep : list R -> R -> option R -> list R)
      (returns : list R) (p : bool) :
  let rs := if p then prep returns 0 None else returns in
  (3 <= List.length rs)%nat ->
  sum_dev (removelast rs) (removelast rs) <> 0 ->
  sum_dev (tl rs) (tl rs) <> 0 ->
  autocorr_penalty prep returns p
  = Fin (penalty_formula (List.length rs) (Rabs (lag1_autocorr rs))).
Proof.
  intros rs Hn Hx Hy. unfold autocorr_penalty. fold rs.
  destruct (corrcoef_pearson (removelast rs) (tl rs)) as [-> _];
    [rewrite removelast_length; lia
    |now rewrite removelast_length, length_tl|exact Hx|exact Hy|].
  fold (lag1_autocorr rs). cbn [eabs].
  set (n := List.length rs) in *. set (rho := Rabs (lag1_autocorr rs)).
  change (map (fun x => emul (Fin ((INR n - INR x) / INR n))
                             (epow (Fin rho) x)) (seq 1 (n - 1)))
    with (map (fun k => Fin ((INR n - INR k) / INR n * rho ^ k))
              (seq 1 (n - 1))).
  unfold esum. rewrite esum_fin, fold_seq_sum_to. cbn [emul eadd esqrt].
  assert (Hsum : 0 <= sum_to (fun k => (INR n - INR k) / INR n * rho ^ k)
                             (n - 1)).
  { apply sum_to_nonneg. intros k Hk. now apply penalty_weight_nonneg. }
  destruct (Rlt_dec _ 0) as [H | _]; [lra|]. reflexivity.
Qed.

(** C5, amended.  For a return series of at least three values, whose
    values without the last and without the first are each not constant,
    [autocorr_penalty] is [sqrt (1 + 2 * sum for k = 1 .. n - 1 of
    ((n - k) / n) * |rho| ^ k)], with [rho] the lag-1 autocorrelation
    coefficient that [corrcoef] computes: the coefficient enters by its
    absolute value. *)
Theorem autocorr_penalty_of_abs_coefficient
        (prep : list R -> R -> option R -> list R) (returns : list R)
        (p : bool) :
  let rs := if p then prep returns 0 None else returns in
  let rho := lag1_autocorr rs in
  (3 <= List.length rs)%nat ->
  sum_dev (removelast rs) (removelast rs) <> 0 ->
  sum_dev (tl rs) (tl rs) <> 0 ->
  corrcoef (removelast rs) (tl rs) = Fin rho
  /\ -1 <= rho <= 1
  /\ autocorr_penalty prep returns p
     = Fin (penalty_formula (List.length rs) (Rabs rho)).
Proof.
  intros rs rho Hn Hx Hy.
  destruct (corrcoef_pearson (removelast rs) (tl rs)) as [Hc Hb];
    [rewrite removelast_length; lia
    |now rewrite removelast_length, length_tl|exact Hx|exact Hy|].
  split; [exact Hc|]. split; [exact Hb|].
  exact (autocorr_penalty_formula prep returns p Hn Hx Hy).
Qed.

(** *** Instances *)

Lemma value_at_risk_percent_witness :
  1 < 95 <= 100
  /\ value_at_risk prepared (fun _ => 0) [0; 2] 1 95 true
     = value_at_risk prepared (fun _ => 0) [0; 2] 1 (95 / 100) true.
Proof.
  split; [lra|].
  apply (value_at_risk_percent prepared (fun _ => 0) [0; 2] 1 95 true). lra.
Defined.

(** C9 as stated fails at the level 200: it is divided once, to 2, and the
    value at risk is not a number, while the level 200 / 100 = 2 is divided
    to 0.02 and has a value at risk, whatever the normal quantile is. *)
Lemma value_at_risk_level_200 :
  ~ exists ndtri,
      value_at_risk prepared ndtri [0; 2] 1 200 false
      = value_at_risk prepared ndtri [0; 2] 1 (200 / 100) false.
Proof.
  intros [ndtri H].
  rewrite value_at_risk_above_100 in H by lra.
  unfold value_at_risk in H.
  destruct (std_two 0 2) as (s & Hs & Hpos); [lra|].
  rewrite Hs in H. cbn [emul mean] in H.
  destruct (Rlt_dec 1 (200 / 100)) as [_ | Hn]; [|lra].
  rewrite norm_ppf_inside in H by lra. discriminate.
Qed.

Lemma cvar_mean_below_or_var_witness :
  let rs := [-1; 1] in
  let v := value_at_risk prepared (fun _ => 0) rs 1 (95 / 100) true in
  (exists r, In r rs /\ below v r)
  /\ conditional_value_at_risk prepared (fun _ => 0) [-1; 1] 1 (95 / 100) true
     = Fin (Rsum (filter (fun r => lt_ext r v) rs)
            / len (filter (fun r => lt_ext r v) rs)).
Proof.
  intros rs v.
  assert (Hv : exists r, In r rs /\ below v r).
  { exists (-1). split; [now left|].
    unfold v, value_at_risk, prepared, rs.
    destruct (std_two (-1) 1) as (s & Hs & Hpos); [lra|].
    rewrite Hs. cbn [emul mean].
    destruct (Rlt_dec 1 (95 / 100)) as [Hn | _]; [lra|].
    rewrite norm_ppf_inside by lra.
    unfold below, Rsum, len. simpl. lra. }
  split; [exact Hv|].
  exact (proj1 (cvar_mean_below_or_var prepared (fun _ => 0)
                  [-1; 1] 1 (95 / 100) true) Hv).
Defined.

Lemma alternating_deviations :
  sum_dev [1; -1] [1; -1] = 2 /\ sum_dev [-1; 1] [-1; 1] = 2
  /\ sum_dev [1; -1] [-1; 1] = -2.
Proof. unfold sum_dev, Rsum, len. simpl. repeat split; field. Qed.

Lemma alternating_lag1 : lag1_autocorr [1; -1; 1] = -1.
Proof.
  unfold lag1_autocorr, pearson. cbn [removelast tl].
  destruct alternating_deviations as (-> & -> & ->).
  rewrite sqrt_square by lra. field.
Qed.

Lemma autocorr_penalty_of_abs_coefficient_witness :
  let rs := [1; -1; 1] in
  (3 <= List.length rs)%nat
  /\ sum_dev (removelast rs) (removelast rs) <> 0
  /\ sum_dev (tl rs) (tl rs) <> 0
  /\ autocorr_penalty prepared rs false
     = Fin (penalty_formula 3 (Rabs (lag1_autocorr rs))).
Proof.
  intros rs.
  assert (Hn : (3 <= List.length rs)%nat) by (simpl; lia).
  assert (Hx : sum_dev (removelast rs) (removelast rs) <> 0).
  { cbn [rs removelast]. destruct alternating_deviations as (-> & _). lra. }
  assert (Hy : sum_dev (tl rs) (tl rs) <> 0).
  { cbn [rs tl]. destruct alternating_deviations as (_ & -> & _). lra. }
  split; [exact Hn|]. split; [exact Hx|]. split; [exact Hy|].
  exact (proj2 (proj2 (autocorr_penalty_of_abs_coefficient
                         prepared rs false Hn Hx Hy))).
Defined.

(** C5 as stated fails on the series 1, -1, 1: its lag-1 coefficient is -1,
    the formula at -1 gives the root of 1/3, and the code, which takes the
    absolute value, returns the root of 3. *)
Lemma autocorr_penalty_signed_differs :
  lag1_autocorr [1; -1; 1] = -1
  /\ autocorr_penalty prepared [1; -1; 1] false = Fin (sqrt 3)
  /\ penalty_formula 3 (lag1_autocorr [1; -1; 1]) = sqrt (1 / 3)
  /\ autocorr_penalty prepared [1; -1; 1] false
     <> Fin (penalty_formula 3 (lag1_autocorr [1; -1; 1])).
Proof.
  assert (Hcode : autocorr_penalty prepared [1; -1; 1] false = Fin (sqrt 3)).
  { rewrite (autocorr_penalty_formula prepared [1; -1; 1] false).
    - rewrite alternating_lag1. unfold penalty_formula.
      rewrite Rabs_left by lra. f_equal. f_equal. simpl. field.
    - simpl. lia.
    - cbn [removelast]. destruct alternating_deviations as (-> & _). lra.
    - cbn [tl]. destruct alternating_deviations as (_ & -> & _). lra. }
  assert (Hclaim : penalty_formula 3 (lag1_autocorr [1; -1; 1])
                   = sqrt (1 / 3)).
  { rewrite alternating_lag1. unfold penalty_formula.
    f_equal. simpl. field. }
  split; [exact alternating_lag1|]. split; [exact Hcode|].
  split; [exact Hclaim|].
  rewrite Hcode, Hclaim. intros H. injection H as H.
  apply sqrt_inj in H; lra.
Qed.

End RatioFacts.

(** * Part IV: further properties of the code *)

Module TradesFacts.
Import Series Drawdown Details Trades Notions.
Local Open Scope Q_scope.

(** *** Counting *)

Lemma filter_length_mono {A : Type} (f g : A -> bool) (l : list A) :
  (forall x, f x = true -> g x = true) ->
  (List.length (filter f l) <= List.length (filter g l))%nat.
Proof.
  intros H. induction l as [|a l IH]; [apply le_n|].
  simpl. destruct (f a) eqn:Ef.
  - rewrite (H a Ef). simpl. lia.
  - destruct (g a); simpl; lia.
Qed.

Lemma Qltb_true_iff (a b : Q) : Qltb a b = true <-> a < b.
Proof.
  unfold Qltb. rewrite Bool.negb_true_iff. split.
  - intros E. apply Qnot_le_lt. intros H. apply Qle_bool_iff in H. congruence.
  - intros H. destruct (Qle_bool b a) eqn:E; [|reflexivity].
    apply Qle_bool_iff in E. lra.
Qed.

Lemma Qeq_bool_false_iff (a b : Q) : Qeq_bool a b = false <-> ~ a == b.
Proof.
  split.
  - intros E H. apply Qeq_bool_iff in H. congruence.
  - intros H. destruct (Qeq_bool a b) eqn:E; [|reflexivity].
    apply Qeq_bool_iff in E. contradiction.
Qed.

Lemma positive_nonzero_count (l : list Q) :
  (count (positive l) <= count (nonzero l))%Z.
Proof.
  unfold count. apply inj_le. apply filter_length_mono.
  intros x Hx. apply Qltb_true_iff in Hx.
  apply Bool.negb_true_iff, Qeq_bool_false_iff. lra.
Qed.

Lemma count_nonneg (l : list Q) : (0 <= count l)%Z.
Proof. unfold count. lia. Qed.

Lemma count_zero_iff (l : list Q) : count l = 0%Z <-> l = [].
Proof.
  unfold count. destruct l; simpl; split; intros H; try reflexivity;
    try discriminate; lia.
Qed.

Lemma inject_Z_pos (z : Z) : (0 < z)%Z -> 0 < inject_Z z.
Proof. intros H. unfold Qlt, inject_Z. simpl. lia. Qed.

Lemma inject_Z_le (a b : Z) : (a <= b)%Z -> inject_Z a <= inject_Z b.
Proof. intros H. unfold Qle, inject_Z. simpl. lia. Qed.

Lemma ratio_bounds (a b : Z) :
  (0 <= a <= b)%Z -> (0 < b)%Z ->
  0 <= inject_Z a / inject_Z b <= 1.
Proof.
  intros Ha Hb. pose proof (inject_Z_pos b Hb) as Hb'.
  pose proof (inject_Z_le 0 a (proj1 Ha)) as H0.
  pose proof (inject_Z_le a b (proj2 Ha)) as H1.
  change (inject_Z 0) with 0 in H0. split.
  - apply Qle_shift_div_l; [exact Hb'|]. lra.
  - apply Qle_shift_div_r; [exact Hb'|]. lra.
Qed.

(** *** The win rate *)

Lemma _win_rate_bounds (series : list Q) : 0 <= _win_rate series <= 1.
Proof.
  unfold _win_rate. destruct (count (nonzero series) =? 0)%Z eqn:E.
  - lra.
  - apply Z.eqb_neq in E.
    pose proof (count_nonneg (nonzero series)).
    apply ratio_bounds; [|lia].
    split; [apply count_nonneg|apply positive_nonzero_count].
Qed.

Lemma _win_rate_zero_iff (series : list Q) :
  _win_rate series == 0 <-> positive series = [].
Proof.
  unfold _win_rate.
  pose proof (positive_nonzero_count series) as Hle.
  pose proof (count_nonneg (positive series)) as Hp.
  destruct (count (nonzero series) =? 0)%Z eqn:E.
  - apply Z.eqb_eq in E. split; [|reflexivity].
    intros _. apply count_zero_iff. lia.
  - apply Z.eqb_neq in E.
    assert (Hn : 0 < inject_Z (count (nonzero series)))
      by (apply inject_Z_pos; lia).
    rewrite <- count_zero_iff. split.
    + intros H.
      assert (H0 : inject_Z (count (positive series)) == 0).
      { setoid_replace (inject_Z (count (positive series)))
          with (inject_Z (count (positive series))
                / inject_Z (count (nonzero series))
                * inject_Z (count (nonzero series))) by (field; lra).
        rewrite H. ring. }
      unfold Qeq, inject_Z in H0. simpl in H0. lia.
    + intros ->. unfold Qdiv. change (inject_Z 0) with 0. ring.
Qed.

(** X1. Whatever the series, [win_rate] lies between 0 and 1, and it is 0
    exactly when no value of the prepared and aggregated series is
    positive; that includes the series without a non-zero value, where the
    division fails and the [except] branch answers 0. *)
Theorem win_rate_range (prep : list Q -> Q -> option Q -> list Q)
        (agg : list Q -> string -> bool -> list Q) (returns : list Q)
        (aggregate : option string) (compounded prepare_returns : bool) :
  let series :=
    aggregated agg (prepare prep returns prepare_returns)
               aggregate compounded in
  0 <= win_rate prep agg returns aggregate compounded prepare_returns <= 1
  /\ (win_rate prep agg returns aggregate compounded prepare_returns == 0
      <-> positive series = []).
Proof.
  intros series. unfold win_rate. fold series.
  split; [apply _win_rate_bounds|apply _win_rate_zero_iff].
Qed.

(** *** Exposure *)

Lemma nonzero_count_le (l : list Q) : (count (nonzero l) <= count l)%Z.
Proof. unfold count, nonzero. apply inj_le, List.filter_length_le. Qed.

(** X2. [exposure] raises the division by zero on an empty series.  On any
    other it returns a number between the share of non-zero values and 1,
    which is 0 exactly when every value is zero. *)
Theorem exposure_range (prep : list Q -> Q -> option Q -> list Q)
        (returns : list Q) (prepare_returns : bool) :
  let ret := prepare prep returns prepare_returns in
  (ret = [] /\ exposure prep returns prepare_returns = ZeroDivisionError)
  \/ (ret <> []
      /\ exists e,
          exposure prep returns prepare_returns = Quotient e
          /\ inject_Z (count (nonzero ret)) / inject_Z (count ret) <= e
          /\ e <= 1
          /\ (e == 0 <-> nonzero ret = [])).
Proof.
  intros ret. unfold exposure, _exposure. fold ret.
  destruct (count ret =? 0)%Z eqn:E.
  - left. apply Z.eqb_eq, count_zero_iff in E. now split.
  - right. apply Z.eqb_neq in E.
    assert (Hne : ret <> []) by (intros H; apply E, count_zero_iff, H).
    split; [exact Hne|].
    pose proof (count_nonneg ret) as Hc.
    pose proof (count_nonneg (nonzero ret)) as Hz.
    pose proof (nonzero_count_le ret) as Hle.
    set (ex := inject_Z (count (nonzero ret)) / inject_Z (count ret)).
    assert (Hex : 0 <= ex <= 1) by (apply ratio_bounds; lia).
    pose proof (Qle_ceiling (ex * 100)) as Hup.
    pose proof (Qceiling_lt (ex * 100)) as Hlo.
    assert (Hc100 : (Qceiling (ex * 100) <= 100)%Z).
    { apply (Z.le_trans _ (Qceiling (inject_Z 100)));
        [|rewrite Qceiling_Z; lia].
      apply Qceiling_resp_le. change (inject_Z 100) with 100. lra. }
    assert (Hc0 : (0 <= Qceiling (ex * 100))%Z).
    { apply (Z.le_trans _ (Qceiling (inject_Z 0)));
        [rewrite Qceiling_Z; lia|].
      apply Qceiling_resp_le. change (inject_Z 0) with 0. lra. }
    eexists. split; [reflexivity|].
    pose proof (inject_Z_le _ _ Hc100) as H100.
    pose proof (inject_Z_le _ _ Hc0) as H0.
    change (inject_Z 100) with 100 in H100.
    change (inject_Z 0) with 0 in H0.
    set (c := inject_Z (Qceiling (ex * 100))) in *.
    split; [|split].
    + apply Qle_shift_div_l; [reflexivity|exact Hup].
    + apply Qle_shift_div_r; [reflexivity|]. lra.
    + rewrite <- count_zero_iff. split.
      * intros H.
        assert (Hcz : c == 0).
        { setoid_replace c with (c / 100 * 100) by field. rewrite H. ring. }
        assert (Hexz : ex == 0) by lra.
        assert (Hnum : inject_Z (count (nonzero ret)) == 0).
        { assert (Hpos : 0 < inject_Z (count ret))
            by (apply inject_Z_pos; lia).
          setoid_replace (inject_Z (count (nonzero ret)))
            with (ex * inject_Z (count ret)) by (unfold ex; field; lra).
          rewrite Hexz. ring. }
        unfold Qeq, inject_Z in Hnum. simpl in Hnum. lia.
      * intros H0z.
        assert (Hexz : ex == 0).
        { unfold ex. rewrite H0z. unfold Qdiv. change (inject_Z 0) with 0.
          ring. }
        assert (Hcz : (Qceiling (ex * 100) = 0)%Z).
        { assert (Hz0 : (Qceiling (ex * 100) <= 0)%Z).
          { apply (Z.le_trans _ (Qceiling (inject_Z 0)));
              [|rewrite Qceiling_Z; lia].
            apply Qceiling_resp_le. change (inject_Z 0) with 0. lra. }
          lia. }
        unfold c. rewrite Hcz. reflexivity.
Qed.

(** *** Averages *)

Lemma fold_left_Qplus_acc (l : list Q) (a : Q) :
  fold_left Qplus l a == a + fold_left Qplus l 0.
Proof.
  revert a; induction l as [|x l IH]; intros a; simpl.
  - ring.
  - rewrite (IH (a + x)), (IH (0 + x)). ring.
Qed.

Lemma qsum_cons (x : Q) (l : list Q) : qsum (x :: l) == x + qsum l.
Proof. unfold qsum. simpl. rewrite fold_left_Qplus_acc. ring. Qed.

Lemma qsum_pos (l : list Q) :
  l <> [] -> Forall (fun x => 0 < x) l -> 0 < qsum l.
Proof.
  induction l as [|x l IH]; intros Hne Hall; [congruence|].
  inversion Hall as [|? ? Hx Hl]; subst. rewrite qsum_cons.
  destruct l as [|y l']; [unfold qsum; simpl; lra|].
  assert (0 < qsum (y :: l')) by (apply IH; [discriminate|exact Hl]). lra.
Qed.

Lemma qsum_neg (l : list Q) :
  l <> [] -> Forall (fun x => x < 0) l -> qsum l < 0.
Proof.
  induction l as [|x l IH]; intros Hne Hall; [congruence|].
  inversion Hall as [|? ? Hx Hl]; subst. rewrite qsum_cons.
  destruct l as [|y l']; [unfold qsum; simpl; lra|].
  assert (qsum (y :: l') < 0) by (apply IH; [discriminate|exact Hl]). lra.
Qed.

Lemma qsum_nonneg (l : list Q) : Forall (fun x => 0 <= x) l -> 0 <= qsum l.
Proof.
  induction 1 as [|x l Hx _ IH]; [unfold qsum; simpl; lra|].
  rewrite qsum_cons. lra.
Qed.

Lemma positive_all (l : list Q) : Forall (fun x => 0 < x) (positive l).
Proof.
  apply Forall_forall. intros x Hx. apply filter_In in Hx as [_ Hx].
  now apply Qltb_true_iff.
Qed.

Lemma negative_all (l : list Q) : Forall (fun x => x < 0) (negative l).
Proof.
  apply Forall_forall. intros x Hx. apply filter_In in Hx as [_ Hx].
  now apply Qltb_true_iff.
Qed.

Lemma nonnegative_all (l : list Q) : Forall (fun x => 0 <= x) (nonnegative l).
Proof.
  apply Forall_forall. intros x Hx. apply filter_In in Hx as [_ Hx].
  now apply Qle_bool_iff.
Qed.

Lemma count_pos (l : list Q) : l <> [] -> 0 < inject_Z (count l).
Proof.
  intros H. apply inject_Z_pos. pose proof (count_nonneg l).
  assert (count l <> 0%Z) by (intros E; apply H, count_zero_iff, E). lia.
Qed.

Lemma qmean_positive (l : list Q) :
  (positive l = [] /\ qmean (positive l) = NaN)
  \/ (positive l <> [] /\ exists a, qmean (positive l) = Fin a /\ 0 < a).
Proof.
  destruct (positive l) as [|x w] eqn:E; [left; now split|].
  right. split; [discriminate|]. eexists. split; [reflexivity|].
  rewrite <- E.
  assert (Hne : positive l <> []) by (rewrite E; discriminate).
  apply Qlt_shift_div_l; [now apply count_pos|].
  pose proof (qsum_pos _ Hne (positive_all l)). lra.
Qed.

Lemma qmean_negative (l : list Q) :
  (negative l = [] /\ qmean (negative l) = NaN)
  \/ (negative l <> [] /\ exists a, qmean (negative l) = Fin a /\ a < 0).
Proof.
  destruct (negative l) as [|x w] eqn:E; [left; now split|].
  right. split; [discriminate|]. eexists. split; [reflexivity|].
  rewrite <- E.
  assert (Hne : negative l <> []) by (rewrite E; discriminate).
  apply Qlt_shift_div_r; [now apply count_pos|].
  pose proof (qsum_neg _ Hne (negative_all l)). lra.
Qed.

(** X3. [avg_win] is not a number when the series has no positive value
    and a positive number otherwise; [avg_loss] is not a number when the
    series has no negative value and a negative number otherwise. *)
Theorem avg_win_loss_sign (prep : list Q -> Q -> option Q -> list Q)
        (agg : list Q -> string -> bool -> list Q) (returns : list Q)
        (aggregate : option string) (compounded prepare_returns : bool) :
  let series :=
    aggregated agg (prepare prep returns prepare_returns)
               aggregate compounded in
  ((positive series = []
    /\ avg_win prep agg returns aggregate compounded prepare_returns = NaN)
   \/ (positive series <> []
       /\ exists a,
           avg_win prep agg returns aggregate compounded prepare_returns
           = Fin a /\ 0 < a))
  /\ ((negative series = []
       /\ avg_loss prep agg returns aggregate compounded prepare_returns
          = NaN)
      \/ (negative series <> []
          /\ exists a,
              avg_loss prep agg returns aggregate compounded prepare_returns
              = Fin a /\ a < 0)).
Proof.
  intros series. unfold avg_win, avg_loss. fold series.
  split; [apply qmean_positive|apply qmean_negative].
Qed.

(** *** Payoff ratio, profit factor, Kelly criterion, risk of ruin *)

Lemma fdiv_nonzero (a b : Q) : ~ b == 0 -> fdiv a b = Fin (a / b).
Proof.
  intros Hb. unfold fdiv. destruct (Qeq_bool b 0) eqn:E; [|reflexivity].
  apply Qeq_bool_iff in E. contradiction.
Qed.

(** The payoff ratio by the signs the returns have, once the two averages
    have prepared them. *)
Lemma payoff_ratio_by_signs (prep : list Q -> Q -> option Q -> list Q)
      (agg : list Q -> string -> bool -> list Q) (returns : list Q)
      (prepare_returns : bool) :
  let series := prep (prepare prep returns prepare_returns) 0 None in
  ((positive series = [] \/ negative series = [])
   /\ payoff_ratio prep agg returns prepare_returns = NaN)
  \/ (positive series <> [] /\ negative series <> []
      /\ exists b,
          payoff_ratio prep agg returns prepare_returns = Fin b /\ 0 < b).
Proof.
  intros series. unfold payoff_ratio, avg_win, avg_loss.
  cbn [prepare aggregated]. fold series.
  destruct (qmean_positive series) as [[Hw ->] | (Hw & a & -> & Ha)].
  - left. split; [now left|]. reflexivity.
  - destruct (qmean_negative series) as [[Hl ->] | (Hl & l & -> & Hlneg)].
    + left. split; [now right|]. reflexivity.
    + right. split; [exact Hw|]. split; [exact Hl|].
      cbn [eabs ediv].
      assert (Habs : Qabs.Qabs l == - l) by (apply Qabs.Qabs_neg; lra).
      rewrite fdiv_nonzero by lra.
      eexists. split; [reflexivity|].
      apply Qlt_shift_div_l; lra.
Qed.

(** X4. [payoff_ratio] is never an infinity and never zero or negative: it
    is a positive number when the returns, as the two averages prepare them
    once more, have a positive and a negative value, and not a number
    otherwise. *)
Theorem payoff_ratio_positive (prep : list Q -> Q -> option Q -> list Q)
        (agg : list Q -> string -> bool -> list Q) (returns : list Q)
        (prepare_returns : bool) :
  let series := prep (prepare prep returns prepare_returns) 0 None in
  ((positive series = [] \/ negative series = [])
   /\ payoff_ratio prep agg returns prepare_returns = NaN)
  \/ (positive series <> [] /\ negative series <> []
      /\ exists b,
          payoff_ratio prep agg returns prepare_returns = Fin b /\ 0 < b).
Proof. exact (payoff_ratio_by_signs prep agg returns prepare_returns). Qed.

Lemma qsum_nonnegative_pos (l : list Q) :
  0 < qsum (nonnegative l) <-> positive l <> [].
Proof.
  induction l as [|x l IH].
  - simpl. unfold qsum. simpl. split; [lra|congruence].
  - unfold nonnegative, positive in *. cbn [filter].
    pose proof (qsum_nonneg _ (nonnegative_all l)) as Hl.
    unfold nonnegative in Hl.
    destruct (Qle_bool 0 x) eqn:E0.
    + apply Qle_bool_iff in E0. rewrite qsum_cons.
      destruct (Qltb 0 x) eqn:E1.
      * apply Qltb_true_iff in E1. split; [discriminate|]. intros _. lra.
      * assert (Hx : x == 0).
        { destruct (Qlt_le_dec 0 x) as [H | H]; [|lra].
          apply Qltb_true_iff in H. congruence. }
        rewrite <- IH. split; intros H; lra.
    + assert (E1 : Qltb 0 x = false).
      { destruct (Qltb 0 x) eqn:E1; [|reflexivity].
        apply Qltb_true_iff in E1.
        assert (H : 0 <= x) by lra. apply Qle_bool_iff in H. congruence. }
      rewrite E1. exact IH.
Qed.

(** X5. [profit_factor] is a number at least 0 when the prepared returns
    have a negative value; without one it is plus infinity when they have a
    positive value and not a number when they have none. *)
Theorem profit_factor_cases (prep : list Q -> Q -> option Q -> list Q)
        (returns : list Q) (prepare_returns : bool) :
  let series := prepare prep returns prepare_returns in
  (negative series <> []
   /\ exists f, profit_factor prep returns prepare_returns = Fin f /\ 0 <= f)
  \/ (negative series = [] /\ positive series <> []
      /\ profit_factor prep returns prepare_returns = PInf)
  \/ (negative series = [] /\ positive series = []
      /\ profit_factor prep returns prepare_returns = NaN).
Proof.
  intros series. unfold profit_factor. fold series.
  destruct (negative series) as [|x l] eqn:El.
  - right. change (qsum []) with 0. unfold fdiv. cbn [Qeq_bool].
    change (Qeq_bool 0 0) with true. cbn iota.
    pose proof (qsum_nonnegative_pos series) as Hpos.
    destruct (Qltb 0 (qsum (nonnegative series))) eqn:E.
    + left. apply Qltb_true_iff in E. split; [reflexivity|].
      split; [now apply Hpos|reflexivity].
    + right. split; [reflexivity|].
      assert (Hw : positive series = []).
      { destruct (positive series) eqn:Ep; [reflexivity|].
        assert (H : 0 < qsum (nonnegative series))
          by (apply Hpos; discriminate).
        apply Qltb_true_iff in H. congruence. }
      split; [exact Hw|].
      assert (E' : Qltb (qsum (nonnegative series)) 0 = false).
      { destruct (Qltb (qsum (nonnegative series)) 0) eqn:E'; [|reflexivity].
        apply Qltb_true_iff in E'.
        pose proof (qsum_nonneg _ (nonnegative_all series)). lra. }
      rewrite E'. reflexivity.
  - left. split; [discriminate|]. rewrite <- El.
    assert (Hneg : qsum (negative series) < 0).
    { apply qsum_neg; [rewrite El; discriminate|apply negative_all]. }
    rewrite fdiv_nonzero by lra. cbn [eabs].
    eexists. split; [reflexivity|apply Qabs.Qabs_nonneg].
Qed.

(** X6. [kelly_criterion] is not a number when the payoff ratio is not;
    otherwise, with [b] the payoff ratio and [p] the win rate the code
    computes, it is the number [p - (1 - p) / b], which is at most [p]. *)
Theorem kelly_at_most_win_rate (prep : list Q -> Q -> option Q -> list Q)
        (agg : list Q -> string -> bool -> list Q) (returns : list Q)
        (prepare_returns : bool) :
  let series := prepare prep returns prepare_returns in
  let p := win_rate prep agg series None true true in
  (payoff_ratio prep agg series true = NaN
   /\ kelly_criterion prep agg returns prepare_returns = NaN)
  \/ (exists b k,
         payoff_ratio prep agg series true = Fin b /\ 0 < b
         /\ kelly_criterion prep agg returns prepare_returns = Fin k
         /\ k == p - (1 - p) / b
         /\ k <= p).
Proof.
  intros series p. unfold kelly_criterion. fold series. fold p.
  destruct (payoff_ratio_by_signs prep agg series true)
    as [[_ ->] | (_ & _ & b & -> & Hb)].
  - left. split; reflexivity.
  - right. exists b. cbn [emul esub ediv].
    rewrite fdiv_nonzero by lra.
    eexists. split; [reflexivity|]. split; [exact Hb|].
    split; [reflexivity|].
    assert (Hp : 0 <= p <= 1).
    { unfold p, win_rate. apply _win_rate_bounds. }
    assert (Hq : 0 <= (1 - p) / b)
      by (apply Qle_shift_div_l; [exact Hb|lra]).
    assert (E : (b * p - (1 - p)) / b == p - (1 - p) / b) by (field; lra).
    split; [exact E|]. rewrite E. lra.
Qed.

Lemma Qpower_nat_succ (q : Q) (n : nat) :
  q ^ Z.of_nat (S n) == q * q ^ Z.of_nat n.
Proof.
  rewrite Nat2Z.inj_succ, <- Z.add_1_l.
  rewrite Qpower_plus' by lia. rewrite Qpower_1_r. reflexivity.
Qed.

Lemma Qpower_unit_interval (q : Q) (n : nat) :
  0 <= q <= 1 -> 0 <= q ^ Z.of_nat n <= 1.
Proof.
  intros Hq. induction n as [|n IH].
  - simpl. lra.
  - rewrite Qpower_nat_succ. split.
    + apply Qmult_le_0_compat; lra.
    + assert (H : q * q ^ Z.of_nat n <= 1 * 1).
      { apply Qmult_le_compat_nonneg; split; lra. }
      lra.
Qed.

(** X7. [risk_of_ruin] lies between 0 and 1. *)
Theorem risk_of_ruin_range (prep : list Q -> Q -> option Q -> list Q)
        (agg : list Q -> string -> bool -> list Q) (returns : list Q)
        (prepare_returns : bool) :
  0 <= risk_of_ruin prep agg returns prepare_returns <= 1.
Proof.
  unfold risk_of_ruin, count.
  set (series := prepare prep returns prepare_returns).
  set (wins := win_rate prep agg series None true true).
  assert (Hw : 0 <= wins <= 1) by (unfold wins, win_rate; apply _win_rate_bounds).
  apply Qpower_unit_interval. split.
  - apply Qle_shift_div_l; lra.
  - apply Qle_shift_div_r; lra.
Qed.

(** *** Outliers by a quantile *)

(** A quantile lies at or above some value of the series. *)
Lemma quantile_above_some (l : list Q) (q x : Q) :
  quantile l q = Fin x -> exists u, In u l /\ u <= x.
Proof.
  unfold quantile. destruct (sort_values l) as [|x0 tl] eqn:Es; [discriminate|].
  cbv beta iota zeta.
  set (sorted := x0 :: tl).
  set (h := inject_Z (Z.of_nat (List.length l) - 1) * q).
  set (a := nth (Z.to_nat (Qfloor h)) sorted x0).
  set (b := nth (S (Z.to_nat (Qfloor h))) sorted a).
  intros H.
  assert (Hx : x = a + (b - a) * (h - inject_Z (Qfloor h)))
    by (injection H as <-; reflexivity).
  clear H. rewrite Hx. clear Hx.
  assert (Hin : forall y, In y sorted -> In y l).
  { intros y Hy. apply DetailsFacts.sort_values_In. rewrite Es. exact Hy. }
  assert (Ha : In a l).
  { apply Hin. unfold a.
    destruct (nth_in_or_default (Z.to_nat (Qfloor h)) sorted x0) as [H | ->];
      [exact H|now left]. }
  assert (Hb : In b l).
  { unfold b.
    destruct (nth_in_or_default (S (Z.to_nat (Qfloor h))) sorted a)
      as [H | ->]; [now apply Hin|exact Ha]. }
  pose proof (Qfloor_le h) as F1.
  pose proof (Qlt_floor h) as F2.
  rewrite inject_Z_plus in F2.
  set (f := h - inject_Z (Qfloor h)) in *.
  assert (Hf0 : 0 <= f) by (unfold f; lra).
  assert (Hf1 : f <= 1) by (unfold f; change (inject_Z 1) with 1 in F2; lra).
  destruct (Qlt_le_dec a b) as [Hab | Hab].
  - exists a. split; [exact Ha|].
    assert (H : 0 <= (b - a) * f) by (apply Qmult_le_0_compat; lra). lra.
  - exists b. split; [exact Hb|].
    assert (E : a + (b - a) * f - b == (a - b) * (1 - f)) by ring.
    assert (H : 0 <= (a - b) * (1 - f)) by (apply Qmult_le_0_compat; lra).
    rewrite <- E in H. apply Qle_minus_iff. exact H.
Qed.

Lemma quantile_nonempty (l : list Q) (q : Q) :
  l <> [] -> exists x, quantile l q = Fin x.
Proof.
  intros Hne. unfold quantile.
  destruct (sort_values l) as [|x0 tl] eqn:Es; [|eexists; reflexivity].
  exfalso. destruct l as [|a l]; [congruence|]. simpl in Es.
  destruct (sort_values l) as [|y r]; simpl in Es; [discriminate|].
  destruct (Qle_bool a y); discriminate.
Qed.

Lemma filter_length_lt {A : Type} (f : A -> bool) (l : list A) (x : A) :
  In x l -> f x = false ->
  (List.length (filter f l) < List.length l)%nat.
Proof.
  induction l as [|a l IH]; intros Hin Hx; [contradiction|].
  pose proof (List.filter_length_le f l) as Hle.
  simpl. destruct Hin as [-> | Hin].
  - rewrite Hx. lia.
  - specialize (IH Hin Hx). destruct (f a); simpl; lia.
Qed.

(** X8. Take a non-empty series and a level between 0 and 1.  A value
    [remove_outliers] keeps is strictly below some value of the series, and
    a value [outliers] returns is strictly above one: the largest value
    never survives the one, the smallest never enters the other, and
    neither returns the whole series. *)
Theorem outliers_never_whole (returns : series) (q : Q) :
  returns <> [] -> 0 <= q <= 1 ->
  (forall t v, In (t, v) (remove_outliers returns q) ->
     exists u, In u (values returns) /\ v < u)
  /\ (forall t v, In (t, v) (outliers returns q) ->
        exists u, In u (values returns) /\ u < v)
  /\ (List.length (remove_outliers returns q) < List.length returns)%nat
  /\ (List.length (outliers returns q) < List.length returns)%nat.
Proof.
  intros Hne _.
  assert (Hv : values returns <> []).
  { destruct returns; [congruence|discriminate]. }
  destruct (quantile_nonempty (values returns) q Hv) as [x Hx].
  destruct (DetailsFacts.quantile_below_some _ _ _ Hx) as (hi & Hhi & Hxhi).
  destruct (quantile_above_some _ _ _ Hx) as (lo & Hlo & Hlox).
  unfold remove_outliers, outliers. rewrite Hx. cbn [lt_ext].
  split; [|split; [|split]].
  - intros t v Hin. apply filter_In in Hin as [_ Hlt]. cbn [snd] in Hlt.
    apply Qltb_true_iff in Hlt. exists hi. split; [exact Hhi|lra].
  - intros t v Hin. apply filter_In in Hin as [_ Hlt]. cbn [snd] in Hlt.
    apply Qltb_true_iff in Hlt. exists lo. split; [exact Hlo|lra].
  - apply in_map_iff in Hhi as ([t v] & Hsnd & Hin). simpl in Hsnd. subst v.
    apply (filter_length_lt _ _ (t, hi) Hin). cbn [snd].
    destruct (Qltb hi x) eqn:E; [|reflexivity].
    apply Qltb_true_iff in E. lra.
  - apply in_map_iff in Hlo as ([t v] & Hsnd & Hin). simpl in Hsnd. subst v.
    apply (filter_length_lt _ _ (t, lo) Hin). cbn [snd].
    destruct (Qltb x lo) eqn:E; [|reflexivity].
    apply Qltb_true_iff in E. lra.
Qed.

Lemma outliers_never_whole_witness :
  let returns : series := [(0%Z, 1); (1%Z, 5); (2%Z, 3)] in
  returns <> [] /\ 0 <= (95 # 100) <= 1
  /\ (List.length (remove_outliers returns (95 # 100))
      < List.length returns)%nat.
Proof.
  intros returns.
  assert (Hne : returns <> []) by discriminate.
  assert (Hq : 0 <= (95 # 100) <= 1) by (split; discriminate).
  split; [exact Hne|]. split; [exact Hq|].
  exact (proj1 (proj2 (proj2
           (outliers_never_whole returns (95 # 100) Hne Hq)))).
Defined.



(** *** Quantiles grow with the level *)

Lemma insert_sorted_sorted (x : Q) (l : list Q) :
  StronglySorted Qle l -> StronglySorted Qle (insert_sorted x l).
Proof.
  induction 1 as [|a l Hs IH Ha]; simpl.
  - constructor; constructor.
  - destruct (Qle_bool x a) eqn:E.
    + apply Qle_bool_iff in E. constructor; [now constructor|].
      constructor; [exact E|].
      eapply Forall_impl; [|exact Ha]. simpl. intros y Hy. lra.
    + assert (Hax : a <= x).
      { destruct (Qlt_le_dec a x) as [H | H]; [lra|].
        apply Qle_bool_iff in H. congruence. }
      constructor; [exact IH|].
      apply Forall_forall. intros y Hy.
      apply DetailsFacts.insert_sorted_In in Hy as [-> | Hy]; [exact Hax|].
      rewrite Forall_forall in Ha. now apply Ha.
Qed.

Lemma sort_values_sorted (l : list Q) : StronglySorted Qle (sort_values l).
Proof.
  induction l as [|a l IH]; [constructor|].
  simpl. now apply insert_sorted_sorted.
Qed.

Lemma insert_sorted_length (x : Q) (l : list Q) :
  List.length (insert_sorted x l) = S (List.length l).
Proof.
  induction l as [|a l IH]; [reflexivity|].
  simpl. destruct (Qle_bool x a); simpl; [reflexivity|now rewrite IH].
Qed.

Lemma sort_values_length (l : list Q) :
  List.length (sort_values l) = List.length l.
Proof.
  induction l as [|a l IH]; [reflexivity|].
  simpl. now rewrite insert_sorted_length, IH.
Qed.

Lemma sorted_nth (l : list Q) :
  StronglySorted Qle l ->
  forall i j d, (i <= j < List.length l)%nat -> nth i l d <= nth j l d.
Proof.
  induction 1 as [|a l Hs IH Ha]; intros i j d Hij; [simpl in Hij; lia|].
  destruct i as [|i], j as [|j]; simpl in *; try lia.
  - apply Qle_refl.
  - rewrite Forall_forall in Ha. apply Ha. apply nth_In. lia.
  - apply IH. lia.
Qed.

Lemma at_position_between (sorted : list Q) (x0 h : Q) :
  StronglySorted Qle sorted ->
  (Z.to_nat (Qfloor h) < List.length sorted)%nat ->
  let a := nth (Z.to_nat (Qfloor h)) sorted x0 in
  let b := nth (S (Z.to_nat (Qfloor h))) sorted a in
  a <= b /\ a <= at_position sorted x0 h <= b.
Proof.
  intros Hs Hk a b.
  assert (Hab : a <= b).
  { unfold b. destruct (Nat.lt_ge_cases (S (Z.to_nat (Qfloor h)))
                          (List.length sorted)) as [H | H].
    - rewrite (nth_indep sorted a x0 H). unfold a.
      apply sorted_nth; [exact Hs|lia].
    - rewrite nth_overflow by exact H. apply Qle_refl. }
  split; [exact Hab|].
  pose proof (Qfloor_le h) as F1.
  pose proof (Qlt_floor h) as F2.
  rewrite inject_Z_plus in F2. change (inject_Z 1) with 1 in F2.
  unfold at_position. fold a. fold b.
  set (f := h - inject_Z (Qfloor h)) in *.
  assert (Hf : 0 <= f <= 1) by (unfold f; lra).
  split.
  - assert (H : 0 <= (b - a) * f) by (apply Qmult_le_0_compat; lra). lra.
  - assert (E : b - (a + (b - a) * f) == (b - a) * (1 - f)) by ring.
    assert (H : 0 <= (b - a) * (1 - f)) by (apply Qmult_le_0_compat; lra).
    rewrite <- E in H. apply Qle_minus_iff. exact H.
Qed.

Lemma at_position_mono (sorted : list Q) (x0 h1 h2 : Q) :
  StronglySorted Qle sorted ->
  0 <= h1 -> h1 <= h2 ->
  (Z.to_nat (Qfloor h2) < List.length sorted)%nat ->
  at_position sorted x0 h1 <= at_position sorted x0 h2.
Proof.
  intros Hs H0 H12 Hk2.
  assert (Hf1 : (0 <= Qfloor h1)%Z).
  { apply (Z.le_trans _ (Qfloor (inject_Z 0))); [rewrite Qfloor_Z; lia|].
    apply Qfloor_resp_le. change (inject_Z 0) with 0. exact H0. }
  pose proof (Qfloor_resp_le _ _ H12) as Hfl.
  assert (Hk1 : (Z.to_nat (Qfloor h1) < List.length sorted)%nat) by lia.
  destruct (at_position_between sorted x0 h1 Hs Hk1) as (Hab1 & Hlo1 & Hhi1).
  destruct (at_position_between sorted x0 h2 Hs Hk2) as (Hab2 & Hlo2 & Hhi2).
  cbv zeta in *.
  destruct (Z.eq_dec (Qfloor h1) (Qfloor h2)) as [E | E].
  - unfold at_position in *. rewrite E in *.
    set (a := nth (Z.to_nat (Qfloor h2)) sorted x0) in *.
    set (b := nth (S (Z.to_nat (Qfloor h2))) sorted a) in *.
    assert (Ed : a + (b - a) * (h2 - inject_Z (Qfloor h2))
                 - (a + (b - a) * (h1 - inject_Z (Qfloor h2)))
                 == (b - a) * (h2 - h1)) by ring.
    assert (H : 0 <= (b - a) * (h2 - h1))
      by (apply Qmult_le_0_compat; lra).
    rewrite <- Ed in H. apply Qle_minus_iff. exact H.
  - assert (Hlt : (S (Z.to_nat (Qfloor h1)) <= Z.to_nat (Qfloor h2))%nat)
      by lia.
    assert (Hmid : nth (S (Z.to_nat (Qfloor h1))) sorted
                       (nth (Z.to_nat (Qfloor h1)) sorted x0)
                   <= nth (Z.to_nat (Qfloor h2)) sorted x0).
    { rewrite (nth_indep sorted _ x0) by lia.
      apply sorted_nth; [exact Hs|lia]. }
    lra.
Qed.

Lemma quantile_at_position (l : list Q) (q x : Q) :
  quantile l q = Fin x ->
  exists x0 tl,
    sort_values l = x0 :: tl
    /\ x = at_position (x0 :: tl) x0
             (inject_Z (Z.of_nat (List.length l) - 1) * q).
Proof.
  unfold quantile. destruct (sort_values l) as [|x0 tl]; [discriminate|].
  intros H. injection H as <-. exists x0, tl. split; reflexivity.
Qed.

Lemma Qmult_le_nonneg_l (n a b : Q) : 0 <= n -> a <= b -> n * a <= n * b.
Proof.
  intros Hn Hab.
  assert (H : 0 <= n * (b - a)) by (apply Qmult_le_0_compat; lra).
  assert (E : n * b - n * a == n * (b - a)) by ring.
  rewrite <- E in H. apply Qle_minus_iff. exact H.
Qed.

(** For levels between 0 and 1 the quantile does not decrease with the
    level. *)
Lemma quantile_mono (l : list Q) (q1 q2 x1 x2 : Q) :
  0 <= q1 -> q1 <= q2 -> q2 <= 1 ->
  quantile l q1 = Fin x1 -> quantile l q2 = Fin x2 -> x1 <= x2.
Proof.
  intros H0 H12 H1 Hq1 Hq2.
  destruct (quantile_at_position l q1 x1 Hq1) as (x0 & tl & Es & ->).
  destruct (quantile_at_position l q2 x2 Hq2) as (x0' & tl' & Es' & ->).
  rewrite Es in Es'. injection Es' as <- <-.
  pose proof (sort_values_sorted l) as Hs. rewrite Es in Hs.
  pose proof (sort_values_length l) as Hlen. rewrite Es in Hlen.
  set (n := inject_Z (Z.of_nat (List.length l) - 1)).
  assert (Hn : 0 <= n).
  { unfold n. rewrite <- Hlen. cbn [List.length].
    change 0 with (inject_Z 0). apply inject_Z_le. lia. }
  apply at_position_mono; [exact Hs| | |].
  - apply Qmult_le_0_compat; assumption.
  - apply Qmult_le_nonneg_l; assumption.
  - assert (Hh : n * q2 <= n).
    { assert (H : n * q2 <= n * 1) by (apply Qmult_le_nonneg_l; assumption).
      lra. }
    pose proof (Qfloor_resp_le _ _ Hh) as Hfl.
    assert (En : Qfloor n = (Z.of_nat (List.length l) - 1)%Z)
      by (unfold n; apply Qfloor_Z).
    rewrite En in Hfl. rewrite Hlen.
    assert (Hl : (1 <= List.length l)%nat) by (rewrite <- Hlen; simpl; lia).
    lia.
Qed.

(** *** Outliers by the quartile fences *)

Lemma filter_negb_length {A : Type} (f : A -> bool) (l : list A) :
  (List.length (filter f l) + List.length (filter (fun x => negb (f x)) l)
   = List.length l)%nat.
Proof.
  induction l as [|a l IH]; [reflexivity|].
  simpl. destruct (f a); simpl; lia.
Qed.

(** X10. On non-empty data [get_outliers] loses nothing: every datum is
    among the values or among the outliers and never both.  The first
    quartile is at most the third, so the fences enclose both, and a datum
    between the quartiles is always kept as a value. *)
Theorem get_outliers_keeps_middle (data : list Q) :
  data <> [] ->
  exists q1 q3,
    quantile data (1 # 4) = Fin q1 /\ quantile data (3 # 4) = Fin q3
    /\ q1 <= q3
    /\ (forall x, In x data -> q1 <= x <= q3 ->
          In x (split_values (get_outliers data)))
    /\ (forall x, In x data ->
          (In x (split_values (get_outliers data))
           <-> ~ In x (split_outliers (get_outliers data))))
    /\ (List.length (split_values (get_outliers data))
        + List.length (split_outliers (get_outliers data))
        = List.length data)%nat.
Proof.
  intros Hne.
  destruct (quantile_nonempty data (1 # 4) Hne) as [q1 H1].
  destruct (quantile_nonempty data (3 # 4) Hne) as [q3 H3].
  assert (Hq : q1 <= q3).
  { apply (quantile_mono data (1 # 4) (3 # 4)); try assumption; discriminate. }
  exists q1, q3. split; [exact H1|]. split; [exact H3|]. split; [exact Hq|].
  unfold get_outliers. rewrite H1, H3. cbn [split_values split_outliers].
  split; [|split].
  - intros x Hx Hb. apply filter_In. split; [exact Hx|].
    apply andb_true_intro. split; apply Qle_bool_iff; lra.
  - intros x Hx. rewrite !filter_In.
    destruct (Qle_bool (q1 - (3 # 2) * (q3 - q1)) x
              && Qle_bool x (q3 + (3 # 2) * (q3 - q1))) eqn:E.
    + split; [|tauto]. intros _ [_ Hout]. discriminate.
    + split; [intros [_ H]; discriminate|].
      intros Hn. exfalso. apply Hn. split; [exact Hx|reflexivity].
  - apply (filter_negb_length
             (fun x => Qle_bool (q1 - (3 # 2) * (q3 - q1)) x
                       && Qle_bool x (q3 + (3 # 2) * (q3 - q1)))).
Qed.

Lemma get_outliers_keeps_middle_witness :
  [1; 2; 3; 4; 100] <> []
  /\ exists q1 q3,
      quantile [1; 2; 3; 4; 100] (1 # 4) = Fin q1
      /\ quantile [1; 2; 3; 4; 100] (3 # 4) = Fin q3 /\ q1 <= q3.
Proof.
  assert (Hne : [1; 2; 3; 4; 100] <> []) by discriminate.
  split; [exact Hne|].
  destruct (get_outliers_keeps_middle [1; 2; 3; 4; 100] Hne)
    as (q1 & q3 & H1 & H3 & Hq & _).
  exists q1, q3. repeat split; assumption.
Defined.

(** *** Matching the dates of returns and benchmark *)

Lemma ne0_idxmax_unfold (t0 : timestamp) (v0 : Q) (r : series) :
  ne0_idxmax ((t0, v0) :: r)
  = match find is_nonzero ((t0, v0) :: r) with
    | Some (t, _) => Ok t
    | None => Ok t0
    end.
Proof. reflexivity. Qed.

Lemma ne0_idxmax_in (s : series) (a : timestamp) :
  ne0_idxmax s = Ok a -> In a (index s).
Proof.
  destruct s as [|[t0 v0] r]; [discriminate|].
  rewrite ne0_idxmax_unfold.
  destruct (find is_nonzero ((t0, v0) :: r)) as [[t v]|] eqn:E.
  - intros H. injection H as <-. apply find_some in E as [Hin _].
    apply (in_map fst) in Hin. exact Hin.
  - intros H. injection H as <-. now left.
Qed.

Lemma loc_from_above (s : series) (a : timestamp) :
  forall p, In p (loc_from s a) -> (a <= fst p)%Z.
Proof.
  intros p Hp. apply filter_In in Hp as [_ Hp]. now apply Z.leb_le.
Qed.

Lemma loc_from_all (s : series) (a : timestamp) :
  (forall p, In p s -> (a <= fst p)%Z) -> loc_from s a = s.
Proof.
  intros H. induction s as [|[t v] s IH]; [reflexivity|].
  assert (Hp : (a <=? t)%Z = true)
    by (apply Z.leb_le, (H (t, v)); now left).
  unfold loc_from in *. simpl. rewrite Hp.
  rewrite IH; [reflexivity|]. intros p' Hp'. apply H. now right.
Qed.

Lemma find_filter_none {A : Type} (f g : A -> bool) (l : list A) :
  find f l = None -> find f (filter g l) = None.
Proof.
  induction l as [|a l IH]; [reflexivity|].
  simpl. destruct (f a) eqn:Ef; [discriminate|].
  intros H. destruct (g a); simpl; [rewrite Ef|]; now apply IH.
Qed.

Lemma loc_from_first_nonzero (s : series) :
  forall lb t v,
    Episodes.increasing_from lb (index s) ->
    find is_nonzero s = Some (t, v) ->
    exists rest, loc_from s t = (t, v) :: rest.
Proof.
  induction s as [|[t0 v0] r IH]; intros lb t v Hinc Hf; [discriminate|].
  destruct Hinc as [Hlb Hinc]. fold (index r) in Hinc. cbn in Hlb.
  cbn [find] in Hf. destruct (is_nonzero (t0, v0)) eqn:E.
  - injection Hf as <- <-. unfold loc_from. cbn [filter fst].
    rewrite Z.leb_refl. eexists. reflexivity.
  - assert (Hin : In t (index r)).
    { apply find_some in Hf as [Hin _]. apply (in_map fst) in Hin.
      exact Hin. }
    pose proof (DetailsFacts.increasing_from_In _ _ _ Hinc Hin) as Hlt.
    unfold loc_from. cbn [filter fst].
    assert (Hd : (t <=? t0)%Z = false) by (apply Z.leb_gt; exact Hlt).
    rewrite Hd. exact (IH t0 t v Hinc Hf).
Qed.

(** Cutting a series at the label [idxmax] found does not move that label. *)
Lemma ne0_idxmax_loc_from (s : series) (a : timestamp) :
  Episodes.increasing (index s) ->
  ne0_idxmax s = Ok a -> ne0_idxmax (loc_from s a) = Ok a.
Proof.
  intros Hinc H. destruct s as [|[t0 v0] r]; [discriminate|].
  rewrite ne0_idxmax_unfold in H.
  assert (Hfrom : Episodes.increasing_from (t0 - 1)%Z
                    (index ((t0, v0) :: r))).
  { split; [simpl; lia|exact Hinc]. }
  destruct (find is_nonzero ((t0, v0) :: r)) as [[t v]|] eqn:E.
  - injection H as <-.
    destruct (loc_from_first_nonzero _ _ _ _ Hfrom E) as [rest ->].
    rewrite ne0_idxmax_unfold. cbn [find].
    apply find_some in E as [_ E]. rewrite E. reflexivity.
  - injection H as <-.
    rewrite loc_from_all.
    + rewrite ne0_idxmax_unfold, E. reflexivity.
    + intros p [<- | Hp]; [simpl; lia|].
      apply (in_map fst) in Hp.
      pose proof (DetailsFacts.increasing_from_In (index r) t0 (fst p)
                    Hinc Hp) as Hlt.
      apply Z.lt_le_incl. exact Hlt.
Qed.

(** X11. [match_dates] raises exactly when one of the series is empty or
    the returns have no label from the later of the two first non-zero
    labels on.  Otherwise the returns are cut at that label and the
    benchmark at the first non-zero label of the returns so cut, which is
    never earlier. *)
Theorem match_dates_cuts (returns benchmark : series) :
  (exists e, match_dates returns benchmark = Raise e)
  /\ (returns = [] \/ benchmark = []
      \/ exists r0 b0,
           ne0_idxmax returns = Ok r0 /\ ne0_idxmax benchmark = Ok b0
           /\ loc_from returns (Z.max r0 b0) = [])
  \/ exists r0 b0 r1,
       ne0_idxmax returns = Ok r0 /\ ne0_idxmax benchmark = Ok b0
       /\ ne0_idxmax (loc_from returns (Z.max r0 b0)) = Ok r1
       /\ (Z.max r0 b0 <= r1)%Z
       /\ match_dates returns benchmark
          = Ok (loc_from returns (Z.max r0 b0), loc_from benchmark r1).
Proof.
  unfold match_dates.
  destruct returns as [|[t0 v0] r] eqn:Er.
  { left. split; [now exists ValueError|now left]. }
  rewrite <- Er.
  destruct (ne0_idxmax returns) as [r0|e] eqn:E0;
    [|rewrite Er, ne0_idxmax_unfold in E0;
      destruct (find is_nonzero ((t0, v0) :: r)) as [[? ?]|]; discriminate].
  destruct benchmark as [|[u0 w0] b] eqn:Eb.
  { left. split; [now exists ValueError|right; now left]. }
  rewrite <- Eb.
  destruct (ne0_idxmax benchmark) as [b0|e] eqn:E1;
    [|rewrite Eb, ne0_idxmax_unfold in E1;
      destruct (find is_nonzero ((u0, w0) :: b)) as [[? ?]|]; discriminate].
  cbv zeta.
  destruct (ne0_idxmax (loc_from returns (Z.max r0 b0))) as [r1|e] eqn:E2.
  - right. exists r0, b0, r1.
    assert (Hr1 : (Z.max r0 b0 <= r1)%Z).
    { apply ne0_idxmax_in in E2. apply in_map_iff in E2 as (p & <- & Hp).
      now apply (loc_from_above returns). }
    repeat split; try reflexivity; try assumption.
    replace (Z.max r1 b0) with r1 by lia. reflexivity.
  - left. split; [now exists e|]. right. right. exists r0, b0.
    repeat split.
    destruct (loc_from returns (Z.max r0 b0)) as [|[t v] l]; [reflexivity|].
    rewrite ne0_idxmax_unfold in E2.
    destruct (find is_nonzero ((t, v) :: l)) as [[? ?]|]; discriminate.
Qed.

(** X12. When the index of the returns increases and their first non-zero
    label [r0] is not before that of the benchmark, [match_dates] cuts both
    series at [r0]. *)
Theorem match_dates_aligned (returns benchmark : series) (r0 b0 : timestamp) :
  Episodes.increasing (index returns) ->
  ne0_idxmax returns = Ok r0 -> ne0_idxmax benchmark = Ok b0 ->
  (b0 <= r0)%Z ->
  match_dates returns benchmark
  = Ok (loc_from returns r0, loc_from benchmark r0).
Proof.
  intros Hinc Hr Hb Hle. unfold match_dates. rewrite Hr, Hb. cbv zeta.
  replace (Z.max r0 b0) with r0 by lia.
  rewrite (ne0_idxmax_loc_from returns r0 Hinc Hr).
  replace (Z.max r0 b0) with r0 by lia. reflexivity.
Qed.

Lemma match_dates_aligned_witness :
  let returns : series := [(0%Z, 0); (1%Z, 1 # 10); (2%Z, 2 # 10)] in
  let benchmark : series := [(0%Z, 1 # 10); (1%Z, 0); (2%Z, 1 # 10)] in
  Episodes.increasing (index returns)
  /\ ne0_idxmax returns = Ok 1%Z /\ ne0_idxmax benchmark = Ok 0%Z
  /\ (0 <= 1)%Z
  /\ match_dates returns benchmark
     = Ok (loc_from returns 1%Z, loc_from benchmark 1%Z).
Proof.
  intros returns benchmark.
  assert (Hinc : Episodes.increasing (index returns)) by (simpl; lia).
  assert (Hr : ne0_idxmax returns = Ok 1%Z) by reflexivity.
  assert (Hb : ne0_idxmax benchmark = Ok 0%Z) by reflexivity.
  assert (Hle : (0 <= 1)%Z) by lia.
  split; [exact Hinc|]. split; [exact Hr|]. split; [exact Hb|].
  split; [exact Hle|].
  exact (match_dates_aligned returns benchmark 1%Z 0%Z Hinc Hr Hb Hle).
Defined.

End TradesFacts.

Module CompoundingFacts.
Import Series Drawdown.
Local Open Scope Q_scope.

(** *** Compounding over consecutive periods *)

Lemma fold_left_Qmult_acc (l : list Q) (a : Q) :
  fold_left Qmult l a == a * fold_left Qmult l 1.
Proof.
  revert a; induction l as [|x l IH]; intros a; simpl.
  - ring.
  - rewrite (IH (a * x)), (IH (1 * x)). ring.
Qed.

Lemma prod_app (a b : list Q) : prod (a ++ b) == prod a * prod b.
Proof.
  unfold prod. rewrite fold_left_app, fold_left_Qmult_acc. reflexivity.
Qed.

(** X13. Compounding composes: the total compounded return of two
    consecutive stretches of returns is what compounding the two totals
    gives, [(1 + comp a) * (1 + comp b) - 1]. *)
Theorem comp_app (a b : list Q) :
  comp (a ++ b) == (1 + comp a) * (1 + comp b) - 1.
Proof.
  unfold comp, add1. rewrite map_app, prod_app. ring.
Qed.

Lemma cumprod_from_nth (l : list Q) :
  forall acc i v,
    nth_error (cumprod_from acc l) i = Some v ->
    v == fold_left Qmult (firstn (S i) l) acc.
Proof.
  induction l as [|x l IH]; intros acc i v H.
  - destruct i; discriminate.
  - destruct i as [|i].
    + simpl in H. injection H as <-. simpl. reflexivity.
    + simpl in H. apply IH in H. exact H.
Qed.

Lemma cumprod_length (l : list Q) : List.length (cumprod l) = List.length l.
Proof.
  destruct l as [|x l]; [reflexivity|]. simpl. f_equal.
  generalize x. induction l as [|y l IH]; intros acc; [reflexivity|].
  simpl. f_equal. apply IH.
Qed.

(** X14. [compsum] has one value per return, and its value at a position is
    the total compounded return, [comp], of the returns up to and including
    that position. *)
Theorem compsum_is_running_comp (returns : list Q) :
  List.length (compsum returns) = List.length returns
  /\ forall i v,
       nth_error (compsum returns) i = Some v ->
       v == comp (firstn (S i) returns).
Proof.
  split.
  - unfold compsum, add1. now rewrite length_map, cumprod_length, length_map.
  - intros i v H. unfold compsum in H.
    rewrite nth_error_map in H.
    destruct (nth_error (cumprod (add1 returns)) i) as [w|] eqn:Hw;
      [|discriminate].
    injection H as <-.
    unfold comp, prod, add1 in *. rewrite <- firstn_map.
    destruct (map (fun r => r + 1) returns) as [|x l]; [destruct i; discriminate|].
    apply Qplus_inj_r.
    destruct i as [|i].
    + simpl in Hw. injection Hw as <-. simpl. ring.
    + simpl in Hw. apply cumprod_from_nth in Hw. rewrite Hw.
      change (firstn (S (S i)) (x :: l)) with (x :: firstn (S i) l).
      simpl. apply SeriesFacts.fold_left_Qmult_compat. ring.
Qed.

End CompoundingFacts.

Module DrawdownRangeFacts.
Import Series Drawdown Notions DrawdownFacts.
Local Open Scope Q_scope.

(** *** The range of the drawdown of positive prices *)

Lemma dd_point_range (p m : Q) : 0 < p -> p <= m -> in_range (dd_point p m).
Proof.
  intros Hp Hpm. assert (Hm : 0 < m) by lra.
  unfold dd_point. rewrite (fdiv_pos p m Hm). simpl.
  pose proof (div_sub1_le p m Hm Hpm) as Hle.
  assert (Hlo : - (1) < p / m - 1).
  { assert (0 < p / m) by (apply Qlt_shift_div_l; lra). lra. }
  destruct (Qeq_bool (p / m - 1) 0).
  - exists 0. split; [reflexivity|]. split; [reflexivity|apply Qle_refl].
  - exists (p / m - 1). split; [reflexivity|]. split; assumption.
Qed.

Lemma dd_from_range (r : list Q) :
  forall m, 0 < m -> Forall (fun x => 0 < x) r ->
    Forall in_range (map2 dd_point r (maximum_accumulate_from m r)).
Proof.
  induction r as [|y r IH]; intros m Hm Hr; [constructor|].
  inversion Hr as [|? ? Hy Hr']; subst.
  assert (Hq : 0 < qmax m y) by (pose proof (qmax_ge_l m y); lra).
  simpl. constructor; [|now apply IH].
  apply dd_point_range; [exact Hy|apply qmax_ge_r].
Qed.

Lemma dd_series_range (prices : list Q) :
  Forall (fun x => 0 < x) prices ->
  Forall in_range (to_drawdown_series (fun x => x) prices).
Proof.
  intros H. unfold to_drawdown_series. rewrite dd_series_points.
  destruct prices as [|x r]; [constructor|].
  inversion H as [|? ? Hx Hr]; subst. simpl.
  constructor; [apply dd_point_range; [exact Hx|apply Qle_refl]|].
  now apply dd_from_range.
Qed.

Lemma all_fin_map (l : list (ext Q)) :
  Forall in_range l ->
  exists l', l = map Fin l' /\ Forall (fun d => - (1) < d /\ d <= 0) l'.
Proof.
  induction 1 as [|x l (d & -> & Hd) _ (l' & -> & Hl')].
  - exists []. split; [reflexivity|constructor].
  - exists (d :: l'). split; [reflexivity|]. now constructor.
Qed.

Lemma dd_series_length (prep : list Q -> list Q) (prices : list Q) :
  List.length (to_drawdown_series prep prices) = List.length (prep prices).
Proof.
  unfold to_drawdown_series. rewrite !length_map.
  apply map2_length_same. now rewrite maximum_accumulate_length.
Qed.

(** X15. When the prepared prices are positive and there is at least one,
    [max_drawdown] is a number above -1 and at most 0, and it is 0 exactly
    when the prices never fall below an earlier price. *)
Theorem max_drawdown_range (prep : list Q -> list Q) (prices : list Q) :
  prep prices <> [] -> Forall (fun x => 0 < x) (prep prices) ->
  exists d,
    max_drawdown prep prices = Fin d
    /\ - (1) < d /\ d <= 0
    /\ (d == 0 <->
        forall i e, nth_error (prep prices) i = Some e ->
                    Forall (fun y => y <= e) (firstn (S i) (prep prices))).
Proof.
  intros Hne Hpos.
  pose proof (max_drawdown_prepared prep prices Hne Hpos) as Heq.
  set (P := prep prices) in *.
  change (to_drawdown_series prep prices)
    with (to_drawdown_series (fun x => x) P) in Heq.
  destruct (all_fin_map _ (dd_series_range P Hpos)) as (L & HL & Hrange).
  assert (HLne : L <> []).
  { intros E. rewrite E in HL. apply (f_equal (@List.length _)) in HL.
    rewrite dd_series_length in HL. destruct P; [congruence|discriminate]. }
  destruct (DetailsFacts.emin_fin_spec L HLne) as (m & Hm & Hin & Hmin).
  rewrite HL, Hm in Heq.
  destruct (max_drawdown prep prices) as [d| | |]; try contradiction.
  simpl in Heq. exists d. split; [reflexivity|].
  rewrite Forall_forall in Hrange. destruct (Hrange m Hin) as [Hlo Hhi].
  split; [lra|]. split; [lra|].
  rewrite Heq. split.
  - intros Hz i e Hi.
    destruct (dd_series_spec P i e Hpos Hi) as (di & Hdi & _ & Hiff).
    apply Hiff.
    assert (Hdin : In di L).
    { apply nth_error_In in Hdi. rewrite HL in Hdi.
      apply in_map_iff in Hdi as (x & Hx & Hxin). now injection Hx as <-. }
    specialize (Hmin di Hdin). destruct (Hrange di Hdin). lra.
  - intros Hmono.
    apply (in_map Fin) in Hin. rewrite <- HL in Hin.
    apply In_nth_error in Hin as [i Hi].
    assert (Hlt : (i < List.length P)%nat).
    { rewrite <- (dd_series_length (fun x => x) P).
      apply nth_error_Some. rewrite Hi. discriminate. }
    destruct (nth_error P i) as [e|] eqn:He;
      [|apply nth_error_None in He; lia].
    destruct (dd_series_spec P i e Hpos He) as (di & Hdi & _ & Hiff).
    rewrite Hi in Hdi. injection Hdi as <-.
    apply Hiff. now apply Hmono.
Qed.

Lemma max_drawdown_range_witness :
  [100; 90; 110; 99] <> [] /\ Forall (fun x => 0 < x) [100; 90; 110; 99]
  /\ exists d,
      max_drawdown (fun x => x) [100; 90; 110; 99] = Fin d
      /\ - (1) < d /\ d <= 0.
Proof.
  assert (Hne : [100; 90; 110; 99] <> []) by discriminate.
  assert (Hpos : Forall (fun x => 0 < x) [100; 90; 110; 99])
    by (repeat constructor).
  split; [exact Hne|]. split; [exact Hpos|].
  destruct (max_drawdown_range (fun x => x) [100; 90; 110; 99] Hne Hpos)
    as (d & Hd & Hlo & Hhi & _).
  exists d. split; [exact Hd|]. split; assumption.
Defined.

(** X16. The drawdown series has one value per prepared price, and it
    begins with exactly 0 whenever the first prepared price is not zero: a
    drawdown series that [to_drawdown_series] computed begins at a high. *)
Theorem drawdown_series_begins_at_zero (prep : list Q -> list Q)
        (returns : list Q) :
  List.length (to_drawdown_series prep returns) = List.length (prep returns)
  /\ forall p0 rest,
       prep returns = p0 :: rest -> ~ p0 == 0 ->
       hd_error (to_drawdown_series prep returns) = Some (Fin 0).
Proof.
  split; [apply dd_series_length|].
  intros p0 rest E Hp0. unfold to_drawdown_series. rewrite E. simpl.
  unfold fdiv. destruct (Qeq_bool p0 0) eqn:E0.
  - apply Qeq_bool_iff in E0. contradiction.
  - simpl. assert (Hz : p0 / p0 - 1 == 0) by (field; exact Hp0).
    apply Qeq_bool_iff in Hz. rewrite Hz. reflexivity.
Qed.

Lemma drawdown_series_begins_at_zero_witness :
  to_equity_curve [1 # 100; - (2 # 100)] = [101 # 100; 9898 # 10000]
  /\ ~ (101 # 100) == 0
  /\ hd_error (to_drawdown_series to_equity_curve [1 # 100; - (2 # 100)])
     = Some (Fin 0).
Proof.
  assert (E : to_equity_curve [1 # 100; - (2 # 100)]
              = [101 # 100; 9898 # 10000]) by reflexivity.
  assert (H : ~ (101 # 100) == 0) by discriminate.
  split; [exact E|]. split; [exact H|].
  exact (proj2 (drawdown_series_begins_at_zero to_equity_curve
                  [1 # 100; - (2 # 100)]) _ _ E H).
Defined.

End DrawdownRangeFacts.

Module TableFacts.
Import Series Drawdown Details Episodes Notions DetailsFacts.
Local Open Scope Z_scope.

(** *** The rows of the table *)

Lemma rows_from_rows (d : series) (ends : list timestamp)
      (starts : list timestamp) :
  forall i eps,
    rows_from d ends i starts = Ok eps ->
    Forall (fun e => exists s v en,
                e = row_of d s v en
                /\ idxmin (loc_slice d s en) = Ok v) eps.
Proof.
  induction starts as [|s rest IH]; intros i eps H.
  - simpl in H. injection H as <-. constructor.
  - cbn [rows_from] in H.
    destruct (nth_error ends i) as [en|]; [|discriminate].
    destruct (idxmin (loc_slice d s en)) as [v|] eqn:Ev; [|discriminate].
    destruct (rows_from d ends (S i) rest) as [rows|] eqn:Er; [|discriminate].
    injection H as <-. constructor; [|now apply (IH (S i))].
    exists s, v, en. split; [reflexivity|exact Ev].
Qed.

Lemma loc_slice_In (d : series) (s e : timestamp) (p : timestamp * Q) :
  In p (loc_slice d s e) <-> In p d /\ s <= fst p <= e.
Proof.
  unfold loc_slice. rewrite filter_In, Bool.andb_true_iff, !Z.leb_le.
  tauto.
Qed.

Lemma Qltb_false_le (a b : Q) : Qltb a b = false -> (b <= a)%Q.
Proof.
  unfold Qltb. intros H. apply Bool.negb_false_iff in H.
  now apply Qle_bool_iff.
Qed.

Lemma Qltb_true_lt (a b : Q) : Qltb a b = true -> (a < b)%Q.
Proof.
  unfold Qltb. intros H. apply Bool.negb_true_iff in H.
  apply Qnot_le_lt. intros Hle. apply Qle_bool_iff in Hle. congruence.
Qed.

Lemma idxmin_from_spec (s : series) :
  forall bt bv,
    exists v,
      ((idxmin_from bt bv s = bt /\ v = bv)
       \/ In (idxmin_from bt bv s, v) s)
      /\ (v <= bv)%Q
      /\ forall t u, In (t, u) s -> (v <= u)%Q.
Proof.
  induction s as [|[t u] r IH]; intros bt bv.
  - exists bv. split; [now left|]. split; [apply Qle_refl|]. intros ? ? [].
  - cbn [idxmin_from]. destruct (Qltb u bv) eqn:E.
    + apply Qltb_true_lt in E.
      destruct (IH t u) as (v & Hv & Hle & Hmin). exists v. split.
      * right. destruct Hv as [[-> ->] | Hv]; [now left|now right].
      * split; [lra|]. intros t' u' [Heq | Hin].
        -- injection Heq as <- <-. exact Hle.
        -- now apply (Hmin t').
    + apply Qltb_false_le in E.
      destruct (IH bt bv) as (v & Hv & Hle & Hmin). exists v. split.
      * destruct Hv as [Hv | Hv]; [now left|right; now right].
      * split; [exact Hle|]. intros t' u' [Heq | Hin].
        -- injection Heq as <- <-. lra.
        -- now apply (Hmin t').
Qed.

(** The label [idxmin] returns carries a least value of the series. *)
Lemma idxmin_spec (s : series) (t : timestamp) :
  idxmin s = Ok t ->
  exists v, In (t, v) s /\ forall t' u, In (t', u) s -> (v <= u)%Q.
Proof.
  destruct s as [|[t0 v0] r]; [discriminate|].
  cbn [idxmin]. intros H. injection H as <-.
  destruct (idxmin_from_spec r t0 v0) as (v & Hv & Hle & Hmin).
  exists v. split.
  - destruct Hv as [[-> ->] | Hv]; [now left|now right].
  - intros t' u [Heq | Hin]; [injection Heq as <- <-; exact Hle|].
    now apply (Hmin t').
Qed.

Lemma smin_least (s : series) (v : Q) :
  (exists t, In (t, v) s) ->
  (forall t' u, In (t', u) s -> (v <= u)%Q) ->
  exists m, smin s = Fin m /\ (m == v)%Q.
Proof.
  intros [t Hin] Hmin. unfold smin.
  assert (Hne : values s <> []).
  { destruct s; [contradiction|discriminate]. }
  destruct (emin_fin_spec (values s) Hne) as (m & Hm & Hmin' & Hle).
  exists m. split; [exact Hm|].
  apply in_map_iff in Hmin' as ([t' m'] & Hsnd & Hin'). simpl in Hsnd.
  subst m'. specialize (Hmin t' m Hin').
  assert (Hv : In v (values s)) by (apply (in_map snd) in Hin; exact Hin).
  specialize (Hle v Hv). lra.
Qed.

Lemma timedelta_days_nonneg (delta : Z) : 0 <= delta -> 0 <= timedelta_days delta.
Proof.
  intros H. unfold timedelta_days, ns_per_day. apply Z.div_pos; lia.
Qed.

(** *** Falls from a high *)

Lemma isz_true_iff (v : Q) : isz v = true <-> (v == 0)%Q.
Proof. unfold isz. apply Qeq_bool_iff. Qed.

Lemma falls_cons (t : timestamp) (v : Q) (r : series) :
  falls ((t, v) :: r)
  <-> (isz v = true /\ exists t' v' rest, r = (t', v') :: rest
                                          /\ isz v' = false)
      \/ falls r.
Proof.
  split.
  - intros (i & a & x & a' & x' & H0 & H1 & Hx & Hx').
    destruct i as [|i].
    + left. simpl in H0, H1. injection H0 as <- <-.
      split; [now apply isz_true_iff|].
      destruct r as [|[t1 v1] rest]; [discriminate|].
      simpl in H1. injection H1 as <- <-.
      exists t1, v1, rest. split; [reflexivity|now apply isz_false_iff].
    + right. exists i, a, x, a', x'. repeat split; assumption.
  - intros [[Hv (t' & v' & rest & -> & Hv')] | (i & a & x & a' & x' & H)].
    + exists 0%nat, t, v, t', v'. simpl.
      repeat split; [now apply isz_true_iff|now apply isz_false_iff].
    + exists (S i), a, x, a', x'. exact H.
Qed.

Lemma starts_in_nonempty_iff (r : series) :
  forall high,
    starts_in high r <> []
    <-> (high = true /\ exists t v rest, r = (t, v) :: rest
                                         /\ isz v = false)
        \/ falls r.
Proof.
  induction r as [|[t v] r IH]; intros high.
  - split; [intros H; now elim H|].
    intros [(_ & ? & ? & ? & H & _) | (i & ? & ? & ? & ? & H & _)];
      [discriminate|destruct i; discriminate].
  - rewrite falls_cons. destruct (isz v) eqn:E.
    + assert (Es : starts_in high ((t, v) :: r) = starts_in true r).
      { destruct high; [apply (scan_high_high t v r E)
                       |apply (scan_under_high t v r E)]. }
      rewrite Es, IH. split.
      * intros [(_ & H) | H]; right; [left|right]; tauto.
      * intros [(_ & ? & ? & ? & H & H') | [(_ & H) | H]].
        -- injection H as <- <- <-. congruence.
        -- left. tauto.
        -- now right.
    + destruct high.
      * destruct (scan_high_under t v r E) as (-> & _). split.
        -- intros _. left. split; [reflexivity|]. now exists t, v, r.
        -- intros _. discriminate.
      * destruct (scan_under_under t v r E) as (-> & _). rewrite IH. split.
        -- intros [(H & _) | H]; [discriminate|]. right. now right.
        -- intros [(H & _) | [(H & _) | H]]; try discriminate. now right.
Qed.

Lemma raw_starts_nonempty_iff (d : series) : raw_starts d <> [] <-> falls d.
Proof.
  destruct d as [|[t0 v0] r].
  - split; [intros H; now elim H|].
    intros (i & ? & ? & ? & ? & H & _). destruct i; discriminate.
  - destruct (raw_scan_first t0 v0 r) as [-> _].
    rewrite starts_in_nonempty_iff, falls_cons. split.
    + intros [(H & H') | H]; [left|right]; tauto.
    + intros [(H & H') | H]; [left|right]; tauto.
Qed.

(** X17. On an increasing index [drawdown_details] never raises, and its
    table is empty exactly when the series never falls from zero to a
    non-zero value. *)
Theorem drawdown_details_total (d : series) :
  increasing (index d) ->
  exists eps,
    drawdown_details d = Ok eps /\ (eps = [] <-> ~ falls d).
Proof.
  intros Hinc. pose proof (raw_starts_nonempty_iff d) as Hfalls.
  destruct (raw_starts d) as [|s0 ss] eqn:Es.
  - exists []. split.
    + unfold drawdown_details, _drawdown_details. now rewrite Es.
    + split; [|reflexivity]. intros _ H. apply Hfalls in H. now apply H.
  - assert (Hne : raw_starts d <> []) by (rewrite Es; discriminate).
    destruct (details_are_runs d Hinc (or_intror Hne)) as (eps & Heps & Hb).
    exists eps. split; [exact Heps|].
    split; [|intros H; elim H; apply Hfalls; discriminate].
    intros ->. exfalso.
    destruct d as [|[t0 v0] r]; [discriminate|].
    destruct (filled_windows t0 v0 r Hinc Hne) as (Hlen & Hcomb & _).
    cbv zeta in Hlen, Hcomb. rewrite <- Hb in Hcomb. cbn [map] in Hcomb.
    set (d := (t0, v0) :: r) in *.
    assert (Hs : fill_starts d (raw_starts d) (raw_ends d) <> []).
    { unfold fill_starts. destruct (_ && _); [discriminate|exact Hne]. }
    destruct (fill_starts d (raw_starts d) (raw_ends d)) as [|a l];
      [congruence|].
    destruct (fill_ends d (a :: l) (raw_ends d)); simpl in *;
      [lia|discriminate].
Qed.

Lemma drawdown_details_total_witness :
  let d : series :=
    [(0, 0%Q); (86400000000000, (- (1 # 10))%Q); (172800000000000, 0%Q)] in
  increasing (index d) /\ exists eps, drawdown_details d = Ok eps.
Proof.
  intros d. assert (Hinc : increasing (index d)) by (simpl; lia).
  split; [exact Hinc|].
  destruct (drawdown_details_total d Hinc) as (eps & Heps & _).
  now exists eps.
Defined.

Lemma details_rows (d : series) (eps : list episode) :
  drawdown_details d = Ok eps ->
  Forall (fun e => exists s v en,
              e = row_of d s v en
              /\ idxmin (loc_slice d s en) = Ok v) eps.
Proof.
  unfold drawdown_details, _drawdown_details. cbv zeta.
  destruct (is_nil (raw_starts d)).
  - intros H. injection H as <-. constructor.
  - apply rows_from_rows.
Qed.

(** X18. Every row of the table is consistent with its window: the valley
    lies between start and end and is a label of the series, 'max drawdown'
    is 100 times the value at the valley, no value of the window is below
    it, and 'days' is the whole number of days from start to end. *)
Theorem table_rows_consistent (d : series) (eps : list episode) :
  increasing (index d) ->
  drawdown_details d = Ok eps ->
  Forall (fun e =>
            ep_start e <= ep_valley e <= ep_end e
            /\ ep_days e = timedelta_days (ep_end e - ep_start e)
            /\ 0 <= ep_days e
            /\ exists v,
                In (ep_valley e, v) d
                /\ ext_eq (ep_max_drawdown e) (Fin (v * 100)%Q)
                /\ forall t u, In (t, u) d ->
                               ep_start e <= t <= ep_end e -> (v <= u)%Q)
         eps.
Proof.
  intros _ H. apply details_rows in H.
  eapply Forall_impl; [|exact H]. clear H.
  intros e (s & t & en & -> & Hidx). unfold row_of. cbn.
  destruct (idxmin_spec _ _ Hidx) as (v & Hin & Hmin).
  pose proof Hin as Hin'. apply loc_slice_In in Hin' as [Hd Hbounds].
  cbn in Hbounds.
  split; [exact Hbounds|]. split; [reflexivity|].
  split; [apply timedelta_days_nonneg; lia|].
  exists v. split; [exact Hd|]. split.
  - destruct (smin_least (loc_slice d s en) v) as (m & -> & Hm);
      [now exists t|exact Hmin|].
    cbn. now rewrite Hm.
  - intros t' u Hu Ht'. apply (Hmin t'). apply loc_slice_In.
    split; [exact Hu|exact Ht'].
Qed.

Lemma table_rows_consistent_witness :
  let d : series :=
    [(0, 0%Q); (86400000000000, (- (1 # 10))%Q);
     (172800000000000, (- (3 # 10))%Q); (259200000000000, 0%Q)] in
  increasing (index d)
  /\ drawdown_details d
     = Ok [mk_episode 86400000000000 172800000000000 259200000000000 2
                      (Fin (- (3 # 10) * 100)%Q) (Fin (- (1 # 10) * 100)%Q)]
  /\ Forall (fun e => ep_start e <= ep_valley e <= ep_end e
                      /\ 0 <= ep_days e)
            [mk_episode 86400000000000 172800000000000 259200000000000 2
                        (Fin (- (3 # 10) * 100)%Q) (Fin (- (1 # 10) * 100)%Q)].
Proof.
  intros d. assert (Hinc : increasing (index d)) by (simpl; lia).
  assert (Hd : drawdown_details d
               = Ok [mk_episode 86400000000000 172800000000000
                                259200000000000 2
                                (Fin (- (3 # 10) * 100)%Q)
                                (Fin (- (1 # 10) * 100)%Q)])
    by reflexivity.
  split; [exact Hinc|]. split; [exact Hd|].
  eapply Forall_impl; [|exact (table_rows_consistent d _ Hinc Hd)].
  intros e (H1 & _ & H2 & _). split; assumption.
Defined.

Lemma clean_min_100_fin_or_nan (dd : series) :
  clean_min_100 dd = NaN \/ exists m, clean_min_100 dd = Fin m.
Proof.
  rewrite clean_min_100_kept. destruct (kept_99 dd) as [|a l].
  - now left.
  - right. destruct (emin_fin_spec (a :: l)) as (m & -> & _); [discriminate|].
    now exists (m * 100)%Q.
Qed.

(** X19. In every row of the table the entry '99% max drawdown' is either
    NaN or a number strictly above the entry 'max drawdown': the deepest
    value of a window is always trimmed away. *)
Theorem table_99_above_max_drawdown (d : series) (eps : list episode) :
  increasing (index d) ->
  drawdown_details d = Ok eps ->
  Forall (fun e =>
            ep_max_drawdown_99 e = NaN
            \/ exists M m,
                ep_max_drawdown e = Fin M
                /\ ep_max_drawdown_99 e = Fin m /\ (M < m)%Q)
         eps.
Proof.
  intros _ H. apply details_rows in H.
  eapply Forall_impl; [|exact H]. clear H.
  intros e (s & t & en & -> & _). unfold row_of. cbn.
  destruct (clean_min_100_fin_or_nan (loc_slice d s en)) as [E | [m E]];
    [now left|right].
  destruct (clean_min_above_max_drawdown _ _ E) as (M & HM & Hlt).
  exists M, m. repeat split; assumption.
Qed.

Lemma table_99_above_max_drawdown_witness :
  let d : series :=
    [(0, 0%Q); (86400000000000, (- (1 # 10))%Q);
     (172800000000000, (- (3 # 10))%Q); (259200000000000, 0%Q)] in
  increasing (index d)
  /\ exists eps,
      drawdown_details d = Ok eps
      /\ Forall (fun e => ep_max_drawdown_99 e = NaN
                          \/ exists M m,
                              ep_max_drawdown e = Fin M
                              /\ ep_max_drawdown_99 e = Fin m /\ (M < m)%Q)
                eps.
Proof.
  intros d. assert (Hinc : increasing (index d)) by (simpl; lia).
  split; [exact Hinc|].
  eexists. split; [reflexivity|].
  exact (table_99_above_max_drawdown d _ Hinc eq_refl).
Defined.

Lemma Qltb_irrefl_eq (a b : Q) : (a == b)%Q -> Qltb a b = false.
Proof.
  intros H. unfold Qltb. apply Bool.negb_false_iff, Qle_bool_iff.
  rewrite H. apply Qle_refl.
Qed.

Lemma filter_none {A : Type} (f : A -> bool) (l : list A) :
  (forall x, In x l -> f x = false) -> filter f l = [].
Proof.
  induction l as [|a l IH]; intros H; [reflexivity|].
  simpl. rewrite (H a (or_introl eq_refl)). apply IH.
  intros x Hx. apply H. now right.
Qed.

(** X20. A window whose values are all equal (in particular a window of a
    single label) has no '99% max drawdown': the trimming removes every
    value and the entry is NaN. *)
Theorem clean_min_100_constant_window (dd : series) (c : Q) :
  (forall v, In v (values dd) -> (v == c)%Q) ->
  clean_min_100 dd = NaN.
Proof.
  intros Hc. rewrite clean_min_100_kept.
  assert (Hk : kept_99 dd = []).
  { unfold kept_99. apply filter_none. intros v Hv.
    destruct (quantile (map Qopp (values dd)) (99 # 100)) as [x| | |] eqn:Eq;
      try reflexivity.
    - cbn. apply Qltb_irrefl_eq.
      destruct (quantile_below_some _ _ _ Eq) as (u & Hu & Hxu).
      destruct (TradesFacts.quantile_above_some _ _ _ Eq) as (w & Hw & Hwx).
      apply in_map_iff in Hu as (u' & <- & Hu').
      apply in_map_iff in Hw as (w' & <- & Hw').
      apply Hc in Hu', Hw'. apply Hc in Hv. lra.
    - unfold quantile in Eq. destruct (sort_values _); discriminate. }
  rewrite Hk. reflexivity.
Qed.

Lemma clean_min_100_constant_window_witness :
  (forall v, In v (values [(0, (- (1 # 10))%Q)]) -> (v == - (1 # 10))%Q)
  /\ clean_min_100 [(0, (- (1 # 10))%Q)] = NaN.
Proof.
  assert (H : forall v, In v (values [(0, (- (1 # 10))%Q)])
                        -> (v == - (1 # 10))%Q).
  { intros v [<- | []]. reflexivity. }
  split; [exact H|].
  exact (clean_min_100_constant_window [(0, (- (1 # 10))%Q)] _ H).
Defined.

End TableFacts.

Module RiskFacts.
Import Details Ratio Risk RatioFacts.
Local Open Scope R_scope.

(** *** Arithmetic with the special values *)

Lemma emul_one_r (x : ext R) : emul x (Fin 1) = x.
Proof.
  destruct x as [a| | |]; cbn; try reflexivity.
  - now rewrite Rmult_1_r.
  - unfold by_sign. destruct (Rlt_dec 0 1); [reflexivity|lra].
  - unfold by_sign. destruct (Rlt_dec 0 1); [reflexivity|lra].
Qed.

Lemma emul_nan_l (x : ext R) : emul NaN x = NaN.
Proof. reflexivity. Qed.

Lemma ediv_nan_r (x : ext R) : ediv x NaN = NaN.
Proof. destruct x; reflexivity. Qed.

Lemma esqrt_one : esqrt (Fin 1) = Fin 1.
Proof.
  unfold esqrt. destruct (Rlt_dec 1 0); [lra|]. now rewrite sqrt_1.
Qed.

Lemma std_under_two (l : list R) : (List.length l < 2)%nat -> std l = NaN.
Proof.
  destruct l as [|a [|b l]]; simpl; intros H; [reflexivity|reflexivity|lia].
Qed.

Lemma std_fin (l : list R) :
  (2 <= List.length l)%nat -> exists s, std l = Fin s /\ 0 <= s.
Proof.
  destruct l as [|a [|b l]]; simpl; intros H; [lia|lia|].
  eexists. split; [reflexivity|apply sqrt_pos].
Qed.

(** *** Sums of returns *)

Lemma Rsum_nil : Rsum [] = 0.
Proof. reflexivity. Qed.

Lemma Rsum_bound (b : R) (l : list R) :
  (forall x, In x l -> x < b) ->
  Rsum l <= b * len l /\ (l <> [] -> Rsum l < b * len l).
Proof.
  induction l as [|a l IH]; intros H.
  - split; [unfold len; simpl; rewrite Rsum_nil; lra|congruence].
  - destruct IH as [IH _]; [intros x Hx; apply H; now right|].
    assert (Ha : a < b) by (apply H; now left).
    assert (E : len (a :: l) = 1 + len l).
    { unfold len. cbn [List.length]. rewrite S_INR. lra. }
    rewrite Rsum_cons, E. split; [|intros _]; lra.
Qed.

Lemma Rsum_nonneg (l : list R) :
  (forall x, In x l -> 0 <= x) -> 0 <= Rsum l.
Proof.
  induction l as [|a l IH]; intros H; [rewrite Rsum_nil; lra|].
  rewrite Rsum_cons.
  assert (0 <= a) by (apply H; now left).
  assert (0 <= Rsum l) by (apply IH; intros x Hx; apply H; now right). lra.
Qed.

Lemma Rsum_pos_iff (l : list R) :
  (forall x, In x l -> 0 <= x) ->
  (0 < Rsum l <-> exists x, In x l /\ 0 < x).
Proof.
  induction l as [|a l IH]; intros H.
  - rewrite Rsum_nil. split; [lra|intros (x & [] & _)].
  - rewrite Rsum_cons.
    assert (Ha : 0 <= a) by (apply H; now left).
    assert (Hl : forall x, In x l -> 0 <= x) by (intros x Hx; apply H; now right).
    pose proof (Rsum_nonneg l Hl) as Hs. specialize (IH Hl). split.
    + intros Hpos. destruct (Rlt_dec 0 a) as [Hlt | Hnlt].
      * exists a. split; [now left|exact Hlt].
      * assert (Hp : 0 < Rsum l) by lra.
        apply IH in Hp as (x & Hx & Hx0). exists x. split; [now right|exact Hx0].
    + intros (x & [<- | Hx] & Hx0); [lra|].
      assert (0 < Rsum l) by (apply IH; now exists x). lra.
Qed.

Lemma len_pos (l : list R) : l <> [] -> 0 < len l.
Proof.
  destruct l as [|a l]; [congruence|]. intros _. unfold len.
  apply lt_0_INR. simpl. lia.
Qed.

(** *** The downside of returns without a loss *)

Lemma no_losses (rs : list R) :
  (forall r, In r rs -> 0 <= r) ->
  filter (fun r => lt_ext r (Fin 0)) rs = [].
Proof.
  intros H. apply filter_nil_iff. intros r Hr. cbn.
  destruct (Rlt_dec r 0) as [Hlt | _]; [|reflexivity].
  specialize (H r Hr). lra.
Qed.

Lemma downside_zero (rs : list R) :
  rs <> [] ->
  (forall r, In r rs -> 0 <= r) ->
  esqrt (ediv (Fin (Rsum (map (fun r => r ^ 2)
                              (filter (fun r => lt_ext r (Fin 0)) rs))))
              (Fin (len rs)))
  = Fin 0.
Proof.
  intros Hne Hpos. rewrite (no_losses rs Hpos). cbn [map].
  rewrite Rsum_nil. pose proof (len_pos rs Hne) as Hlen. cbn [ediv].
  destruct (Req_dec_T (len rs) 0) as [E | _]; [lra|].
  replace (0 / len rs) with 0 by (unfold Rdiv; now rewrite Rmult_0_l).
  cbn [esqrt]. destruct (Rlt_dec 0 0) as [H | _]; [lra|].
  now rewrite sqrt_0.
Qed.

Lemma emul_zero_l (x : ext R) : emul (Fin 0) x = Fin 0 \/ emul (Fin 0) x = NaN.
Proof.
  destruct x as [a| | |]; cbn.
  - left. now rewrite Rmult_0_l.
  - right. unfold by_sign.
    destruct (Rlt_dec 0 0) as [H | _]; [lra|reflexivity].
  - right. unfold by_sign.
    destruct (Rlt_dec 0 0) as [H | _]; [lra|reflexivity].
  - now right.
Qed.

Lemma ediv_by_zero (m : R) :
  0 <= m ->
  ediv (Fin m) (Fin 0) = (if Rlt_dec 0 m then PInf else NaN).
Proof.
  intros Hm. cbn [ediv]. destruct (Req_dec_T 0 0) as [_ | H]; [|now elim H].
  unfold by_sign. destruct (Rlt_dec 0 m); [reflexivity|].
  destruct (Rlt_dec m 0); [lra|reflexivity].
Qed.

Lemma emul_esqrt_unbounded (x : ext R) (p : R) :
  x = PInf \/ x = NaN ->
  emul x (esqrt (Fin p)) = PInf \/ emul x (esqrt (Fin p)) = NaN.
Proof.
  intros [-> | ->]; [|now right]. cbn [esqrt].
  destruct (Rlt_dec p 0); [now right|]. cbn [emul]. unfold by_sign.
  destruct (Rlt_dec 0 (sqrt p)); [now left|].
  destruct (Rlt_dec (sqrt p) 0) as [H | _]; [|now right].
  pose proof (sqrt_pos p). lra.
Qed.

(** *** The terms of the autocorrelation penalty *)

Lemma clip1_range (x : ext R) :
  clip1 x = NaN \/ exists c, clip1 x = Fin c /\ -1 <= c <= 1.
Proof.
  destruct x as [a| | |]; cbn.
  - right. destruct (Rlt_dec a (-1)); [exists (-1); split; [reflexivity|lra]|].
    destruct (Rlt_dec 1 a); [exists 1; split; [reflexivity|lra]|].
    exists a. split; [reflexivity|lra].
  - right. exists 1. split; [reflexivity|lra].
  - right. exists (-1). split; [reflexivity|lra].
  - now left.
Qed.

Lemma corrcoef_range (x y : list R) :
  corrcoef x y = NaN \/ exists c, corrcoef x y = Fin c /\ -1 <= c <= 1.
Proof.
  unfold corrcoef. destruct x as [|a [|b x]]; [now left|now left|].
  apply clip1_range.
Qed.

Lemma fold_eadd_nan (l : list (ext R)) : fold_left eadd l NaN = NaN.
Proof. induction l as [|a l IH]; [reflexivity|]. simpl. exact IH. Qed.

Lemma esum_nan_terms (g : nat -> ext R) (l : list nat) :
  l <> [] -> (forall k, g k = NaN) -> esum (map g l) = NaN.
Proof.
  intros Hne Hg. destruct l as [|k l]; [congruence|].
  unfold esum. cbn [map fold_left]. rewrite Hg.
  replace (eadd (Fin 0) NaN) with (@NaN R) by reflexivity.
  apply fold_eadd_nan.
Qed.

Lemma sum_to_le (g h : nat -> R) (m : nat) :
  (forall k, (1 <= k <= m)%nat -> g k <= h k) -> sum_to g m <= sum_to h m.
Proof.
  induction m as [|m IH]; intros H; simpl; [lra|].
  assert (sum_to g m <= sum_to h m) by (apply IH; intros k Hk; apply H; lia).
  assert (g (S m) <= h (S m)) by (apply H; lia). lra.
Qed.

Lemma sum_to_weights (N : R) (m : nat) :
  N <> 0 ->
  sum_to (fun k => (N - INR k) / N) m
  = (INR m * N - INR m * (INR m + 1) / 2) / N.
Proof.
  intros HN. induction m as [|m IH].
  - simpl. field. exact HN.
  - cbn [sum_to]. rewrite IH, !S_INR. field. exact HN.
Qed.

Lemma penalty_sum_bounds (n : nat) (c : R) :
  (1 <= n)%nat ->
  let S := sum_to (fun k => (INR n - INR k) / INR n * Rabs c ^ k) (n - 1) in
  Rabs c <= 1 -> 0 <= S /\ 1 + 2 * S <= INR n.
Proof.
  intros Hn S Hc. split.
  - apply sum_to_nonneg. intros k Hk. now apply penalty_weight_nonneg.
  - assert (HN : 0 < INR n) by (apply lt_0_INR; lia).
    assert (Hle : S <= sum_to (fun k => (INR n - INR k) / INR n) (n - 1)).
    { apply sum_to_le. intros k Hk.
      assert (Hw : 0 <= (INR n - INR k) / INR n).
      { assert (INR k <= INR n) by (apply le_INR; lia).
        apply Rmult_le_pos; [lra|]. left. now apply Rinv_0_lt_compat. }
      assert (Hp : Rabs c ^ k <= 1).
      { rewrite <- (pow1 k). apply pow_incr. split; [apply Rabs_pos|exact Hc]. }
      rewrite <- (Rmult_1_r ((INR n - INR k) / INR n)) at 2.
      now apply Rmult_le_compat_l. }
    rewrite sum_to_weights in Hle by lra.
    rewrite minus_INR in Hle by lia. simpl INR in Hle.
    assert (E : ((INR n - 1) * INR n - (INR n - 1) * (INR n - 1 + 1) / 2)
                / INR n = (INR n - 1) / 2) by (field; lra).
    rewrite E in Hle. lra.
Qed.

Section Kernels.

Variable prep : list R -> R -> option R -> list R.
Variable ndtri : R -> R.

(** X21. Without a risk-free rate and without periods, the Sharpe ratio is
    the risk/return ratio of the same returns, annualised or not. *)
Theorem sharpe_is_risk_return_ratio (returns : list R) (annualize : bool) :
  sharpe prep returns 0 None annualize false
  = Ok (risk_return_ratio prep returns true).
Proof.
  unfold sharpe, risk_return_ratio, Rneqb.
  destruct (Req_dec_T 0 0) as [_ | H]; [|now elim H].
  cbn [andb is_none periods_or_one].
  destruct annualize; [|reflexivity].
  now rewrite esqrt_one, emul_one_r.
Qed.

(** X22. With fewer than two prepared returns the Sharpe ratio is not a
    number, whatever the flags: the call either raises for the missing
    periods or returns NaN. *)
Theorem sharpe_under_two_observations (returns : list R) (rf : R)
        (periods : option R) (annualize smart : bool) :
  (List.length (prep returns rf periods) < 2)%nat ->
  sharpe prep returns rf periods annualize smart
  = Raise (Exception periods_message)
  \/ sharpe prep returns rf periods annualize smart = Ok NaN.
Proof.
  intros Hlen. unfold sharpe.
  destruct (Rneqb rf 0 && is_none periods); [now left|right].
  rewrite (std_under_two _ Hlen).
  assert (E : (if smart
               then emul NaN (autocorr_penalty prep (prep returns rf periods)
                                               false)
               else NaN) = NaN) by (destruct smart; reflexivity).
  rewrite E, ediv_nan_r. destruct annualize; reflexivity.
Qed.

(** X23. For returns without a loss (none negative, at least one
    observation) the Sortino ratio is never a finite number, whatever the
    flags: without the smart penalty and unannualised it is plus infinity
    when some return is positive and NaN when all are zero. *)
Theorem sortino_without_losses (returns : list R) (rf : R)
        (periods : option R) (annualize smart : bool) :
  let rs := prep returns rf periods in
  Rneqb rf 0 && is_none periods = false ->
  rs <> [] ->
  (forall r, In r rs -> 0 <= r) ->
  (exists x,
      sortino prep returns rf periods annualize smart = Ok x
      /\ (x = PInf \/ x = NaN))
  /\ ((exists r, In r rs /\ 0 < r) ->
      sortino prep returns rf periods false false = Ok PInf)
  /\ ((forall r, In r rs -> r = 0) ->
      sortino prep returns rf periods false false = Ok NaN).
Proof.
  intros rs Hguard Hne Hpos. unfold sortino. rewrite Hguard. fold rs.
  rewrite (downside_zero rs Hne Hpos).
  assert (Hmean : mean rs = Fin (Rsum rs / len rs)).
  { destruct rs; [congruence|reflexivity]. }
  pose proof (len_pos rs Hne) as Hlen.
  pose proof (Rsum_nonneg rs Hpos) as Hsum.
  assert (Hm : 0 <= Rsum rs / len rs).
  { apply Rmult_le_pos; [exact Hsum|]. left. now apply Rinv_0_lt_compat. }
  rewrite Hmean. split; [|split].
  - assert (Hres : forall d, d = Fin 0 \/ d = NaN ->
                             ediv (Fin (Rsum rs / len rs)) d = PInf
                             \/ ediv (Fin (Rsum rs / len rs)) d = NaN).
    { intros d [-> | ->]; [|now right].
      rewrite (ediv_by_zero _ Hm). destruct (Rlt_dec _ _); auto. }
    assert (Hd : (if smart
                  then emul (Fin 0) (autocorr_penalty prep rs false)
                  else Fin 0) = Fin 0
                 \/ (if smart
                     then emul (Fin 0) (autocorr_penalty prep rs false)
                     else Fin 0) = NaN).
    { destruct smart; [apply emul_zero_l|now left]. }
    apply Hres in Hd. destruct annualize.
    + eexists. split; [reflexivity|]. now apply emul_esqrt_unbounded.
    + eexists. split; [reflexivity|exact Hd].
  - intros Hex. apply (Rsum_pos_iff rs Hpos) in Hex.
    rewrite (ediv_by_zero _ Hm).
    destruct (Rlt_dec 0 (Rsum rs / len rs)) as [_ | Hn]; [reflexivity|].
    elim Hn. apply Rmult_lt_0_compat; [exact Hex|].
    now apply Rinv_0_lt_compat.
  - intros Hzero. rewrite (ediv_by_zero _ Hm).
    destruct (Rlt_dec 0 (Rsum rs / len rs)) as [Hlt | _]; [|reflexivity].
    assert (Hs : 0 < Rsum rs).
    { destruct (Rlt_dec 0 (Rsum rs)) as [H | H]; [exact H|].
      assert (E : Rsum rs = 0) by lra. rewrite E in Hlt.
      unfold Rdiv in Hlt. rewrite Rmult_0_l in Hlt. lra. }
    apply (Rsum_pos_iff rs Hpos) in Hs as (r & Hr & Hr0).
    rewrite (Hzero r Hr) in Hr0. lra.
Qed.

(** X24. The autocorrelation penalty is 1 for a series of at most one
    return; for a longer series it is either NaN or a number between 1 and
    the square root of the number of returns. *)
Theorem autocorr_penalty_range (returns : list R) (p : bool) :
  let rs := if p then prep returns 0 None else returns in
  ((List.length rs <= 1)%nat -> autocorr_penalty prep returns p = Fin 1)
  /\ ((2 <= List.length rs)%nat ->
      autocorr_penalty prep returns p = NaN
      \/ exists x, autocorr_penalty prep returns p = Fin x
                   /\ 1 <= x <= sqrt (INR (List.length rs))).
Proof.
  intros rs. unfold autocorr_penalty. fold rs.
  set (n := List.length rs). split; intros Hn.
  - replace (n - 1)%nat with 0%nat by lia. cbn [seq map]. unfold esum.
    cbn [fold_left emul eadd esqrt].
    replace (1 + 2 * 0) with 1 by lra.
    destruct (Rlt_dec 1 0); [lra|]. now rewrite sqrt_1.
  - destruct (corrcoef_range (removelast rs) (tl rs)) as [-> | (c & -> & Hc)].
    + left. cbn [eabs]. rewrite esum_nan_terms; [reflexivity| |].
      * destruct (n - 1)%nat eqn:E; [lia|discriminate].
      * intros k. cbn [epow]. now destruct (Fin _).
    + right. cbn [eabs].
      change (map (fun x => emul (Fin ((INR n - INR x) / INR n))
                                 (epow (Fin (Rabs c)) x)) (seq 1 (n - 1)))
        with (map (fun k => Fin ((INR n - INR k) / INR n * Rabs c ^ k))
                  (seq 1 (n - 1))).
      unfold esum. rewrite esum_fin, fold_seq_sum_to. cbn [emul eadd esqrt].
      assert (Habs : Rabs c <= 1) by (apply Rabs_le; lra).
      destruct (penalty_sum_bounds n c ltac:(lia) Habs) as [H0 Hup].
      destruct (Rlt_dec _ 0) as [H | _]; [lra|].
      eexists. split; [reflexivity|]. split.
      * rewrite <- sqrt_1 at 1. apply sqrt_le_1_alt. lra.
      * apply sqrt_le_1_alt. exact Hup.
Qed.

(** X25. The conditional value at risk is never above the value at risk it
    is cut at: where the value at risk is a number, so is the conditional
    one, and it is at most that number. *)
Theorem cvar_at_most_var (returns : list R) (sigma confidence : R)
        (p : bool) (b : R) :
  let rs := if p then prep returns 0 None else returns in
  value_at_risk prep ndtri rs sigma confidence true = Fin b ->
  exists c,
    conditional_value_at_risk prep ndtri returns sigma confidence p = Fin c
    /\ c <= b.
Proof.
  intros rs Hv. unfold conditional_value_at_risk. fold rs. rewrite Hv.
  set (tail := filter (fun r => lt_ext r (Fin b)) rs).
  destruct tail as [|a l] eqn:Et.
  - exists b. split; [reflexivity|lra].
  - cbn [mean isnan negb]. eexists. split; [reflexivity|].
    assert (Hall : forall x, In x (a :: l) -> x < b).
    { intros x Hx. rewrite <- Et in Hx. apply filter_In in Hx as [_ Hx].
      now apply lt_ext_iff in Hx. }
    destruct (Rsum_bound b (a :: l) Hall) as [_ Hlt].
    specialize (Hlt ltac:(discriminate)).
    pose proof (len_pos (a :: l) ltac:(discriminate)) as Hlen.
    left. apply (Rmult_lt_reg_r (len (a :: l))); [exact Hlen|].
    unfold Rdiv. rewrite Rmult_assoc, Rinv_l by lra. lra.
Qed.

(** X26. The volatility is NaN for fewer than two returns; for two or more
    it is a number that is not negative, annualised with periods that are
    not negative or left as it is. *)
Theorem volatility_cases (returns : list R) (periods : R)
        (annualize p : bool) :
  let rs := if p then prep returns 0 None else returns in
  ((List.length rs < 2)%nat ->
   volatility prep returns periods annualize p = NaN)
  /\ ((2 <= List.length rs)%nat -> 0 <= periods ->
      exists v, volatility prep returns periods annualize p = Fin v
                /\ 0 <= v).
Proof.
  intros rs. unfold volatility. fold rs. split.
  - intros H. rewrite (std_under_two rs H). now destruct annualize.
  - intros H Hp. destruct (std_fin rs H) as (s & -> & Hs).
    destruct annualize; [|now exists s].
    cbn [esqrt]. destruct (Rlt_dec periods 0); [lra|]. cbn [emul].
    eexists. split; [reflexivity|].
    apply Rmult_le_pos; [exact Hs|apply sqrt_pos].
Qed.

(** *** The annualised growth *)

Lemma span_days_cons (t0 : timestamp) (v0 : R)
      (rest : list (timestamp * R)) :
  span_days ((t0, v0) :: rest)
  = timedelta_days (last (map fst ((t0, v0) :: rest)) t0 - t0).
Proof. reflexivity. Qed.

(** X27. [cagr] raises IndexError on an empty series, and is 0 for a series
    whose first and last labels are less than a whole day apart (a single
    observation, for one), whatever its returns. *)
Theorem cagr_without_span (returns : list (timestamp * R)) (rf : R)
        (compounded : bool) :
  (returns = [] -> cagr prep returns rf compounded = Raise IndexError)
  /\ (returns <> [] -> span_days returns = 0%Z ->
      cagr prep returns rf compounded = Ok (Fin 0)).
Proof.
  split.
  - intros ->. reflexivity.
  - intros Hne Hspan. destruct returns as [|[t0 v0] rest]; [congruence|].
    rewrite span_days_cons in Hspan. unfold cagr. cbv zeta. rewrite Hspan.
    destruct (Req_dec_T (IZR 0 / 365) 0) as [_ | H]; [reflexivity|].
    elim H. unfold Rdiv. apply Rmult_0_l.
Qed.


(** X29. Over a span of exactly 365 days [cagr] is [|1 + total| - 1]: the
    total return itself when that is at least -1, and its mirror image
    about -1 when it is below. *)
Theorem cagr_one_year (returns : list (timestamp * R)) (rf : R)
        (compounded : bool) :
  span_days returns = 365%Z ->
  cagr prep returns rf compounded
  = Ok (Fin (Rabs (total_return prep returns rf compounded + 1) + - 1)).
Proof.
  intros Hspan. destruct returns as [|[t0 v0] rest]; [discriminate|].
  rewrite span_days_cons in Hspan. unfold cagr, total_return. cbv zeta.
  set (total := if compounded then _ else _). rewrite Hspan.
  replace (IZR 365 / 365) with 1 by (field; lra).
  replace (1 / 1) with 1 by field.
  destruct (Req_dec_T 1 0) as [E | _]; [lra|].
  unfold fpow. destruct (Rlt_dec 0 (Rabs (total + 1))) as [Hpos | Hzero].
  - now rewrite Rpower_1.
  - destruct (Rlt_dec 0 1) as [_ | H]; [|lra]. cbn [eadd].
    pose proof (Rabs_pos (total + 1)).
    replace (Rabs (total + 1)) with 0 by lra. reflexivity.
Qed.

End Kernels.

Lemma sharpe_under_two_observations_witness :
  (List.length (prepared [(1 / 100)%R] 0%R (Some 252%R)) < 2)%nat
  /\ (sharpe prepared [1 / 100] 0 (Some 252) true false
      = Raise (Exception periods_message)
      \/ sharpe prepared [1 / 100] 0 (Some 252) true false = Ok NaN).
Proof.
  assert (H : (List.length (prepared [(1 / 100)%R] 0%R (Some 252%R)) < 2)%nat)
    by (simpl; lia).
  split; [exact H|].
  exact (sharpe_under_two_observations prepared [1 / 100] 0 (Some 252)
                                       true false H).
Defined.

Lemma sortino_without_losses_witness :
  Rneqb 0 0 && is_none (Some 252) = false
  /\ prepared [1 / 100; 0] 0 (Some 252) <> []
  /\ (forall r, In r (prepared [1 / 100; 0] 0 (Some 252)) -> 0 <= r)
  /\ sortino prepared [1 / 100; 0] 0 (Some 252) false false = Ok PInf.
Proof.
  assert (Hg : Rneqb 0 0 && is_none (Some 252) = false).
  { unfold Rneqb. destruct (Req_dec_T 0 0) as [_ | H]; [reflexivity|].
    now elim H. }
  assert (Hne : prepared [1 / 100; 0] 0 (Some 252) <> []) by discriminate.
  assert (Hpos : forall r, In r (prepared [1 / 100; 0] 0 (Some 252))
                           -> 0 <= r).
  { intros r [<- | [<- | []]]; lra. }
  split; [exact Hg|]. split; [exact Hne|]. split; [exact Hpos|].
  apply (proj1 (proj2 (sortino_without_losses prepared [1 / 100; 0] 0
                                              (Some 252) false false
                                              Hg Hne Hpos))).
  exists (1 / 100). split; [now left|lra].
Defined.

Lemma cvar_at_most_var_witness :
  exists b,
    value_at_risk prepared (fun _ => 0) [-1; 1] 1 (95 / 100) true = Fin b
    /\ exists c,
        conditional_value_at_risk prepared (fun _ => 0) [-1; 1] 1 (95 / 100)
                                  true = Fin c
        /\ c <= b.
Proof.
  destruct (std_two (-1) 1) as (s & Hs & Hpos); [lra|].
  assert (Hv : value_at_risk prepared (fun _ => 0) [-1; 1] 1 (95 / 100) true
               = Fin (Rsum [-1; 1] / len [-1; 1] + 1 * s * 0)).
  { unfold value_at_risk, prepared. rewrite Hs. cbn [emul mean].
    destruct (Rlt_dec 1 (95 / 100)) as [Hn | _]; [lra|].
    rewrite norm_ppf_inside by lra. reflexivity. }
  eexists. split; [exact Hv|].
  exact (cvar_at_most_var prepared (fun _ => 0) [-1; 1] 1 (95 / 100) true
                          _ Hv).
Defined.

Lemma autocorr_penalty_range_witness :
  (List.length [(1 / 100)%R] <= 1)%nat
  /\ autocorr_penalty prepared [1 / 100] false = Fin 1.
Proof.
  assert (H : (List.length [(1 / 100)%R] <= 1)%nat) by (simpl; lia).
  split; [exact H|].
  exact (proj1 (autocorr_penalty_range prepared [1 / 100] false) H).
Defined.

Lemma volatility_cases_witness :
  (List.length [(1 / 100)%R] < 2)%nat
  /\ volatility prepared [1 / 100] 252 true false = NaN.
Proof.
  assert (H : (List.length [(1 / 100)%R] < 2)%nat) by (simpl; lia).
  split; [exact H|].
  exact (proj1 (volatility_cases prepared [1 / 100] 252 true false) H).
Defined.

Lemma cagr_without_span_witness :
  [(0%Z, 1 / 10)] <> [] /\ span_days [(0%Z, 1 / 10)] = 0%Z
  /\ cagr prepared [(0%Z, 1 / 10)] 0 true = Ok (Fin 0).
Proof.
  assert (Hne : [(0%Z, 1 / 10)] <> []) by discriminate.
  assert (Hs : span_days [(0%Z, 1 / 10)] = 0%Z) by reflexivity.
  split; [exact Hne|]. split; [exact Hs|].
  exact (proj2 (cagr_without_span prepared [(0%Z, 1 / 10)] 0 true) Hne Hs).
Defined.


Lemma cagr_one_year_witness :
  span_days [(0%Z, 1 / 10); (31536000000000000%Z, 1 / 10)] = 365%Z
  /\ cagr prepared [(0%Z, 1 / 10); (31536000000000000%Z, 1 / 10)] 0 true
     = Ok (Fin (Rabs (total_return prepared
                        [(0%Z, 1 / 10); (31536000000000000%Z, 1 / 10)]
                        0 true + 1) + - 1)).
Proof.
  assert (H : span_days [(0%Z, 1 / 10); (31536000000000000%Z, 1 / 10)]
              = 365%Z) by reflexivity.
  split; [exact H|].
  exact (cagr_one_year prepared _ 0 true H).
Defined.

End RiskFacts.

Module PeriodsFacts.
Import Trades.
Local Open Scope Z_scope.

(** X30. [get_trading_periods] returns the periods of a year as given, with
    the half year rounded up: the least whole number of periods of which
    two cover the year. *)
Theorem get_trading_periods_half_rounds_up (periods_per_year : Z) :
  fst (get_trading_periods periods_per_year) = periods_per_year
  /\ periods_per_year <= 2 * snd (get_trading_periods periods_per_year)
     < periods_per_year + 2.
Proof.
  unfold get_trading_periods. cbn [fst snd]. split; [reflexivity|].
  pose proof (Qle_ceiling (inject_Z periods_per_year / 2)) as Hup.
  pose proof (Qceiling_lt (inject_Z periods_per_year / 2)) as Hlo.
  remember (Qceiling (inject_Z periods_per_year / 2)) as h eqn:Eh. clear Eh.
  unfold Qle, Qlt, Qdiv, Qmult, Qinv, inject_Z in Hup, Hlo.
  cbn [Qnum Qden Pos.mul] in Hup, Hlo. lia.
Qed.

End PeriodsFacts.
